(** * vscode-firefox-debug: source adapters and launch configuration

    A shallow embedding of
    - [src/adapter/adapter/source.ts] (class [SourceAdapter]: the
      per-source breakpoint reconciliation and the construction of the
      editor-visible source),
    - the configuration parser ([parseConfiguration] and its helpers),
    - [src/common/configuration.ts] (the configuration types),
    followed by the properties of the specification that concern them.

    Asynchronous code is modelled by cutting every [async] function at
    its [await]s: the code between two [await]s is one function on an
    explicit state, and the settlement of a promise is an event. *)

From Stdlib Require Import ZArith Ascii String DecimalString.
From stdpp Require Import base option list strings gmap.

Local Open Scope Z_scope.

(** ** JavaScript values and string primitives *)

Module JS.

(** The double quote character, for messages that quote property names. *)
Definition dquote : string := String "034"%char EmptyString.
Definition quoted (s : string) : string := dquote +:+ s +:+ dquote.

(** Truthiness of [string | undefined], [number | undefined] and
    [boolean | undefined]. *)
Definition truthy (s : option string) : bool :=
  match s with
  | Some (String _ _) => true
  | _ => false
  end.

Definition truthyNumber (n : option Z) : bool :=
  match n with
  | Some n => negb (n =? 0)
  | None => false
  end.

Definition truthyBool (b : option bool) : bool :=
  match b with
  | Some true => true
  | _ => false
  end.

(** [s || d] on strings. *)
Definition orString (s : option string) (d : string) : string :=
  match s with
  | Some (String c r) => String c r
  | _ => d
  end.

(** [s.endsWith(c)] for a one-character [c]. *)
Fixpoint endsWith (c : ascii) (s : string) : bool :=
  match s with
  | EmptyString => false
  | String x EmptyString => Ascii.eqb x c
  | String _ r => endsWith c r
  end.

(** [s.split(c)] for a one-character separator: never empty. *)
Fixpoint split (sep : ascii) (s : string) : list string :=
  match s with
  | EmptyString => [EmptyString]
  | String x r =>
      if Ascii.eqb x sep then EmptyString :: split sep r
      else match split sep r with
           | [] => [String x EmptyString]
           | h :: t => String x h :: t
           end
  end.

(** [a.pop()!] and [a[0]] on the result of a [split]. *)
Definition pop (l : list string) : string := List.last l EmptyString.
Definition first (l : list string) : string := List.hd EmptyString l.

(** [s.replace(c, by)] with a one-character string pattern: only the
    first occurrence is replaced. *)
Fixpoint replaceFirst (c : ascii) (by_ : string) (s : string) : string :=
  match s with
  | EmptyString => EmptyString
  | String x r =>
      if Ascii.eqb x c then by_ +:+ r else String x (replaceFirst c by_ r)
  end.

(** [s.replace(/c/g, d)]: every occurrence of a character. *)
Fixpoint replaceAll (c d : ascii) (s : string) : string :=
  match s with
  | EmptyString => EmptyString
  | String x r => String (if Ascii.eqb x c then d else x) (replaceAll c d r)
  end.

(** [s.lastIndexOf(c)], [-1] when [c] does not occur. *)
Fixpoint lastIndexOf (c : ascii) (s : string) : Z :=
  match s with
  | EmptyString => -1
  | String x r =>
      let i := lastIndexOf c r in
      if 0 <=? i then i + 1 else if Ascii.eqb x c then 0 else -1
  end.

(** [s.substr(0, n)] and [s.substr(n)]. *)
Definition substrTo (n : nat) (s : string) : string := substring 0 n s.
Definition substrFrom (n : nat) (s : string) : string :=
  substring n (String.length s - n) s.

(** [s.substr(0, s.length - 1)]. *)
Fixpoint dropLast (s : string) : string :=
  match s with
  | EmptyString => EmptyString
  | String _ EmptyString => EmptyString
  | String x r => String x (dropLast r)
  end.

(** [String(n)] for an integral number. *)
Definition numberToString (n : Z) : string :=
  NilZero.string_of_int (Z.to_int n).

Definition isDigit (c : ascii) : bool :=
  let n := nat_of_ascii c in ((48 <=? n) && (n <=? 57))%nat.

(** The longest suffix of [s] made of decimal digits. *)
Fixpoint trailingDigits (s : string) : string :=
  match s with
  | EmptyString => EmptyString
  | String x r =>
      let t := trailingDigits r in
      if isDigit x && String.eqb t r then String x t else t
  end.

(** [/[0-9]+$/.exec(s)]: the match, if any, is the non-empty run of
    digits that ends the string. *)
Definition execTrailingDigits (s : string) : option string :=
  match trailingDigits s with
  | EmptyString => None
  | t => Some t
  end.

(** Vocabulary for stating what the string primitives compute. *)

(** [c] occurs in [s]. *)
Fixpoint occurs (c : ascii) (s : string) : bool :=
  match s with
  | EmptyString => false
  | String x r => Ascii.eqb x c || occurs c r
  end.

Fixpoint allDigits (s : string) : bool :=
  match s with
  | EmptyString => true
  | String x r => isDigit x && allDigits r
  end.

(** The last character of [s] is a decimal digit. *)
Fixpoint endsWithDigit (s : string) : bool :=
  match s with
  | EmptyString => false
  | String x EmptyString => isDigit x
  | String _ r => endsWithDigit r
  end.

End JS.

(** ** Outcome of an [async] function: resolved, or rejected with the
    thrown value *)

Inductive Thrown :=
| ThrowMessage (message : string)
| ThrowError (err : string).

Inductive Result (A : Type) :=
| Resolved (value : A)
| Rejected (reason : Thrown).
Arguments Resolved {A} value.
Arguments Rejected {A} reason.

#[global] Instance Result_bind : MBind Result := λ A B k r,
  match r with
  | Resolved a => k a
  | Rejected e => Rejected e
  end.

Definition throw {A} (message : string) : Result A :=
  Rejected (ThrowMessage message).

Definition isRejected {A} (r : Result A) : bool :=
  match r with
  | Rejected _ => true
  | Resolved _ => false
  end.

(** ** Configuration types ([src/common/configuration.ts]) *)

Module Configuration.

Inductive StringOrList :=
| Single (s : string)
| Several (l : list string).

Inductive Debounce :=
| DebounceNumber (n : Z)
| DebounceBoolean (b : bool).

Record DetailedReloadConfiguration := {
  watch : StringOrList;
  ignore : option StringOrList;
  debounce : option Debounce
}.

Inductive ReloadConfiguration :=
| ReloadPath (p : string)
| ReloadPaths (l : list string)
| ReloadDetailed (d : DetailedReloadConfiguration).

Inductive SourceMaps := client | server.

(** A regular expression is kept as its source text. *)
Record RegExp := { regexSource : string }.

Inductive UrlPattern :=
| UrlString (s : string)
| UrlRegExp (r : RegExp).

(** [type PathMapping = { url: string | RegExp, path: string | null }] *)
Record PathMapping := { url : UrlPattern; path : option string }.

(** [boolean | number | string]; in the configuration also [null]. *)
Inductive PreferenceValue :=
| PrefBoolean (b : bool)
| PrefNumber (n : Z)
| PrefString (s : string).

Record CommonConfiguration := {
  c_url : option string;
  webRoot : option string;
  reloadOnAttach : option bool;
  reloadOnChange : option ReloadConfiguration;
  clearConsoleOnReload : option bool;
  pathMappings : option (list PathMapping);
  skipFiles : option (list string);
  showConsoleCallLocation : option bool;
  addonPath : option string;
  popupAutohideButton : option bool;
  sourceMaps : option SourceMaps;
  liftAccessorsFromPrototypes : option Z
}.

Record LaunchConfiguration := {
  l_common : CommonConfiguration;
  file : option string;
  firefoxExecutable : option string;
  profileDir : option string;
  profile : option string;
  keepProfileChanges : option bool;
  preferences : option (gmap string (option PreferenceValue));
  l_port : option Z;
  firefoxArgs : option (list string);
  timeout : option Z;
  reAttach : option bool
}.

Record AttachConfiguration := {
  a_common : CommonConfiguration;
  a_port : option Z;
  host : option string
}.

(** [LaunchConfiguration | AttachConfiguration], discriminated by its
    [request] property. *)
Inductive Config :=
| Launch (c : LaunchConfiguration)
| Attach (c : AttachConfiguration).

Definition common (config : Config) : CommonConfiguration :=
  match config with
  | Launch c => l_common c
  | Attach c => a_common c
  end.

Definition port (config : Config) : option Z :=
  match config with
  | Launch c => l_port c
  | Attach c => a_port c
  end.

Definition request (config : Config) : string :=
  match config with
  | Launch _ => "launch"
  | Attach _ => "attach"
  end.

End Configuration.

(** ** The configuration parser *)

Module ParseConfiguration.
Import JS Configuration.

Record NormalizedReloadConfiguration := {
  n_watch : list string;
  n_ignore : list string;
  n_debounce : Z
}.

Record ParsedAttachConfiguration := {
  pa_host : string;
  pa_port : Z;
  reloadTabs : bool
}.

Record ParsedLaunchConfiguration := {
  pl_firefoxExecutable : string;
  pl_firefoxArgs : list string;
  pl_profileDir : string;
  srcProfileDir : option string;
  pl_preferences : gmap string PreferenceValue;
  tmpDirs : list string;
  pl_port : Z;
  pl_timeout : Z;
  detached : bool
}.

Record ParsedAddonConfiguration := {
  ad_path : string;
  ad_id : option string;
  ad_popupAutohideButton : bool
}.

Record ParsedConfiguration := {
  p_attach : option ParsedAttachConfiguration;
  p_launch : option ParsedLaunchConfiguration;
  p_addon : option ParsedAddonConfiguration;
  p_pathMappings : list PathMapping;
  filesToSkip : list RegExp;
  p_reloadOnChange : option NormalizedReloadConfiguration;
  p_clearConsoleOnReload : bool;
  p_sourceMaps : SourceMaps;
  p_showConsoleCallLocation : bool;
  p_liftAccessorsFromPrototypes : Z
}.

(** What the parser asks of the operating system and of the modules it
    imports ([os], [path], [uuid], [is-absolute-url], [minimatch],
    [firefox-profile], [./util/misc], [./util/fs], [../common/util]). *)
Record Environment := {
  isExecutable : string → bool;
  os_platform : string;
  env_PATH : string;
  path_join : string → string → string;
  path_isAbsolute : string → bool;
  os_tmpdir : string;
  uuid_v4 : string;
  isWindowsPlatform : bool;
  finder_getPath : string → Result string;
  findAddonId : string → Result (option string);
  normalizePath : string → string;
  isAbsoluteUrl : string → bool;
  minimatch_makeRe : string → option RegExp
}.

Definition harmonizeTrailingSlashes (pathMapping : PathMapping) : PathMapping :=
  match url pathMapping, path pathMapping with
  | UrlString u, Some p =>
      if endsWith "/" u then
        if endsWith "/" p then pathMapping
        else {| url := UrlString u; path := Some (p +:+ "/") |}
      else
        if endsWith "/" p then {| url := UrlString (u +:+ "/"); path := Some p |}
        else pathMapping
  | _, _ => pathMapping
  end.

Section WithEnvironment.
Variable env : Environment.

Definition findFirefoxExecutable (configuredPath : option string)
  : Result string :=
  match configuredPath with
  | Some (String c r) =>
      if isExecutable env (String c r) then Resolved (String c r)
      else throw ("Couldn't find the Firefox executable. " +:+
                  "Please correct the path given in your launch configuration.")
  | _ =>
      let candidates :=
        if bool_decide (os_platform env = "linux") ||
           bool_decide (os_platform env = "freebsd") ||
           bool_decide (os_platform env = "sunos") then
          let paths := split ":" (env_PATH env) in
          ((λ dir, path_join env dir "firefox-developer-edition") <$> paths) ++
          ((λ dir, path_join env dir "firefox-developer") <$> paths) ++
          ((λ dir, path_join env dir "firefox") <$> paths)
        else if bool_decide (os_platform env = "darwin") then
          [ "/Applications/Firefox Developer Edition.app/Contents/MacOS/firefox";
            "/Applications/FirefoxDeveloperEdition.app/Contents/MacOS/firefox";
            "/Applications/Firefox.app/Contents/MacOS/firefox" ]
        else if bool_decide (os_platform env = "win32") then
          [ "C:\Program Files (x86)\Firefox Developer Edition\firefox.exe";
            "C:\Program Files\Firefox Developer Edition\firefox.exe";
            "C:\Program Files (x86)\Mozilla Firefox\firefox.exe";
            "C:\Program Files\Mozilla Firefox\firefox.exe" ]
        else [] in
      match List.find (isExecutable env) candidates with
      | Some candidate => Resolved candidate
      | None =>
          throw ("Couldn't find the Firefox executable. Please specify the path by setting " +:+
                 quoted "firefoxExecutable" +:+ " in your launch configuration.")
      end
  end.

Definition findFirefoxProfileDir (profileName : string) : Result string :=
  finder_getPath env profileName.

(** Returns [{ profileDir, srcProfileDir }] and the array [tmpDirs],
    which the caller shares with it. *)
Definition parseProfileConfiguration
    (config : LaunchConfiguration) (tmpDirs : list string)
  : Result (string * option string * list string) :=
  srcProfileDir ←
    (if truthy (profileDir config) then
       if truthy (profile config) then
         throw ("You can set either " +:+ quoted "profile" +:+ " or " +:+
                quoted "profileDir" +:+ ", but not both")
       else Resolved (profileDir config)
     else
       match profile config with
       | Some (String c r) =>
           dir ← findFirefoxProfileDir (String c r); Resolved (Some dir)
       | _ => Resolved None
       end);
  if truthyBool (keepProfileChanges config) then
    match srcProfileDir with
    | Some (String c r) => Resolved (String c r, None, tmpDirs)
    | _ =>
        throw ("To enable " +:+ quoted "keepProfileChanges" +:+
               " you need to set either " +:+ quoted "profile" +:+ " or " +:+
               quoted "profileDir")
    end
  else
    let profileDir :=
      path_join env (os_tmpdir env)
        ("vscode-firefox-debug-profile-" +:+ uuid_v4 env) in
    Resolved (profileDir, srcProfileDir, tmpDirs ++ [profileDir]).

Definition defaultPreferences : gmap string PreferenceValue :=
  <["browser.warnOnQuit" := PrefBoolean false]>
  (<["browser.uitour.enabled" := PrefBoolean false]>
  (<["browser.startup.homepage_override.mstone" := PrefString "ignore"]>
  (<["datareporting.policy.dataSubmissionPolicyBypassNotification" := PrefBoolean true]>
  (<["browser.shell.checkDefaultBrowser" := PrefBoolean false]>
  (<["extensions.sdk.console.logLevel" := PrefString "all"]>
  (<["xpinstall.signatures.required" := PrefBoolean false]>
  (<["extensions.autoDisableScopes" := PrefNumber 10]>
  (<["devtools.debugger.remote-enabled" := PrefBoolean true]>
  (<["devtools.debugger.prompt-connection" := PrefBoolean false]>
  (<["devtools.chrome.enabled" := PrefBoolean true]> ∅)))))))))).

Definition createFirefoxPreferences
    (additionalPreferences : option (gmap string (option PreferenceValue)))
  : gmap string PreferenceValue :=
  match additionalPreferences with
  | None => defaultPreferences
  | Some additional =>
      map_fold (λ key value preferences,
                  match value with
                  | Some v => <[key := v]> preferences
                  | None => delete key preferences
                  end)
               defaultPreferences additional
  end.

(** Returns the web root and the array [pathMappings], which it
    updates in place. *)
Definition parseWebRootConfiguration
    (request : string) (config : CommonConfiguration)
    (pathMappings : list PathMapping)
  : Result (option string * list PathMapping) :=
  match c_url config with
  | Some (String c r) =>
      let configUrl := String c r in
      match webRoot config with
      | Some (String c' r') =>
          let configWebRoot := String c' r' in
          if negb (path_isAbsolute env configWebRoot) &&
             negb (isAbsoluteUrl env configWebRoot) then
            throw ("The " +:+ quoted "webRoot" +:+ " property in the " +:+ request +:+
                   " configuration has to be an absolute path")
          else
            let webRootUrl :=
              if 7 <? lastIndexOf "/" configUrl
              then substrTo (Z.to_nat (lastIndexOf "/" configUrl)) configUrl
              else configUrl in
            let webRoot :=
              if isAbsoluteUrl env configWebRoot then configWebRoot
              else normalizePath env configWebRoot in
            let rewrite pathMapping :=
              match path pathMapping with
              | Some to =>
                  if String.eqb (substrTo 10 to) "${webRoot}"
                  then {| url := url pathMapping;
                          path := Some (webRoot +:+ substrFrom 10 to) |}
                  else pathMapping
              | None => pathMapping
              end in
            Resolved (Some webRoot,
                      (rewrite <$> pathMappings) ++
                      [{| url := UrlString webRootUrl; path := Some webRoot |}])
      | _ =>
          match Configuration.pathMappings config with
          | None =>
              throw ("If you set " +:+ quoted "url" +:+ " you also have to set " +:+
                     quoted "webRoot" +:+ " or " +:+ quoted "pathMappings" +:+
                     " in the " +:+ request +:+ " configuration")
          | Some _ => Resolved (None, pathMappings)
          end
      end
  | _ =>
      if truthy (webRoot config) then
        throw ("If you set " +:+ quoted "webRoot" +:+ " you also have to set " +:+
               quoted "url" +:+ " in the " +:+ request +:+ " configuration")
      else Resolved (None, pathMappings)
  end.

Definition parseSkipFilesConfiguration (config : CommonConfiguration)
  : list RegExp :=
  match skipFiles config with
  | Some globs =>
      List.flat_map (λ glob, match minimatch_makeRe env glob with
                             | Some regExp => [regExp]
                             | None => []
                             end) globs
  | None => []
  end.

Definition parseReloadConfiguration (reloadConfig : option ReloadConfiguration)
  : option NormalizedReloadConfiguration :=
  let defaultDebounce := 100 in
  match reloadConfig with
  | None => None
  | Some (ReloadPath p) =>
      Some {| n_watch := [normalizePath env p]; n_ignore := [];
              n_debounce := defaultDebounce |}
  | Some (ReloadPaths l) =>
      Some {| n_watch := normalizePath env <$> l; n_ignore := [];
              n_debounce := defaultDebounce |}
  | Some (ReloadDetailed _config) =>
      let watch := match watch _config with
                   | Single s => [s]
                   | Several l => l
                   end in
      let ignore := match ignore _config with
                    | None => []
                    | Some (Single s) => [s]
                    | Some (Several l) => l
                    end in
      let debounce := match debounce _config with
                      | Some (DebounceNumber n) => n
                      | Some (DebounceBoolean false) => 0
                      | _ => defaultDebounce
                      end in
      Some {| n_watch := normalizePath env <$> watch;
              n_ignore := normalizePath env <$> ignore;
              n_debounce := debounce |}
  end.

(** Called only when [config.addonPath] is set; returns the parsed
    add-on configuration and the updated [pathMappings]. *)
Definition parseAddonConfiguration
    (config : CommonConfiguration) (pathMappings : list PathMapping)
  : Result (ParsedAddonConfiguration * list PathMapping) :=
  let addonPath := default EmptyString (addonPath config) in
  let popupAutohideButton :=
    negb (bool_decide (popupAutohideButton config = Some false)) in
  addonId ← findAddonId env addonPath;
  let sanitizedAddonPath :=
    if endsWith "/" addonPath then dropLast addonPath else addonPath in
  let pathMappings :=
    pathMappings ++
    [{| url := UrlRegExp {| regexSource := "^moz-extension://[0-9a-f-]*(/.*)$" |};
        path := Some sanitizedAddonPath |}] in
  let pathMappings :=
    match addonId with
    | Some (String c r) =>
        let rewrittenAddonId :=
          replaceFirst "}" "%7D" (replaceFirst "{" "%7B" (String c r)) in
        pathMappings ++
        [{| url := UrlRegExp {| regexSource :=
              "^jar:file:.*/extensions/" +:+ rewrittenAddonId +:+ ".xpi!(/.*)$" |};
            path := Some sanitizedAddonPath |}]
    | _ => pathMappings
    end in
  Resolved ({| ad_path := addonPath; ad_id := addonId;
               ad_popupAutohideButton := popupAutohideButton |},
            pathMappings).

(** The [launch] branch of [parseConfiguration]. *)
Definition parseLaunch (config : LaunchConfiguration) (port : Z)
  : Result (option ParsedAttachConfiguration * ParsedLaunchConfiguration) :=
  let tmpDirs := [] in
  let attach :=
    if truthyBool (reAttach config) then
      Some {| pa_host := "localhost"; pa_port := port;
              reloadTabs :=
                negb (bool_decide (reloadOnAttach (l_common config) = Some false)) |}
    else None in
  firefoxExecutable ← findFirefoxExecutable (firefoxExecutable config);
  let firefoxArgs :=
    [ "-start-debugger-server"; numberToString port; "-no-remote" ] ++
    default [] (firefoxArgs config) in
  '(profileDir, srcProfileDir, tmpDirs) ← parseProfileConfiguration config tmpDirs;
  let firefoxArgs := firefoxArgs ++ ["-profile"; profileDir] in
  let preferences := createFirefoxPreferences (preferences config) in
  firefoxArgs ←
    match file config with
    | Some (String c r) =>
        let file := String c r in
        if negb (path_isAbsolute env file) then
          throw ("The " +:+ quoted "file" +:+
                 " property in the launch configuration has to be an absolute path")
        else
          let fileUrl :=
            if isWindowsPlatform env
            then "file:///" +:+ replaceAll "\" "/" file
            else "file://" +:+ file in
          Resolved (firefoxArgs ++ [fileUrl])
    | _ =>
        match c_url (l_common config) with
        | Some (String c r) => Resolved (firefoxArgs ++ [String c r])
        | _ =>
            if truthy (addonPath (l_common config)) then
              Resolved (firefoxArgs ++ ["about:blank"])
            else
              throw ("You need to set either " +:+ quoted "file" +:+ " or " +:+
                     quoted "url" +:+ " in the launch configuration")
        end
    end;
  let timeout := default 5 (timeout config) in
  let detached := truthyBool (reAttach config) in
  Resolved (attach,
            {| pl_firefoxExecutable := firefoxExecutable;
               pl_firefoxArgs := firefoxArgs;
               pl_profileDir := profileDir;
               srcProfileDir := srcProfileDir;
               pl_preferences := preferences;
               tmpDirs := tmpDirs;
               pl_port := port;
               pl_timeout := timeout;
               detached := detached |}).

Definition parseConfiguration (config : Config) : Result ParsedConfiguration :=
  let port := if truthyNumber (port config) then default 6000 (port config) else 6000 in
  '(attach, launch) ←
    match config with
    | Launch c =>
        '(attach, launch) ← parseLaunch c port; Resolved (attach, Some launch)
    | Attach c =>
        Resolved (Some {| pa_host := orString (host c) "localhost";
                          pa_port := port;
                          reloadTabs := truthyBool (reloadOnAttach (a_common c)) |},
                  None)
    end;
  let pathMappings :=
    match pathMappings (common config) with
    | Some mappings => harmonizeTrailingSlashes <$> mappings
    | None => []
    end in
  '(addon, pathMappings) ←
    (if truthy (addonPath (common config)) then
       '(addon, pathMappings) ← parseAddonConfiguration (common config) pathMappings;
       Resolved (Some addon, pathMappings)
     else Resolved (None, pathMappings));
  '(webRoot, pathMappings) ←
    parseWebRootConfiguration (request config) (common config) pathMappings;
  let pathMappings :=
    match webRoot with
    | Some (String c r) =>
        let webRoot := String c r in
        pathMappings ++
        [ {| url := UrlString "webpack:///~/"; path := Some (webRoot +:+ "/node_modules/") |};
          {| url := UrlString "webpack:///./~/"; path := Some (webRoot +:+ "/node_modules/") |};
          {| url := UrlString "webpack:///./"; path := Some (webRoot +:+ "/") |};
          {| url := UrlString "webpack:///src/"; path := Some (webRoot +:+ "/src/") |} ]
    | _ => pathMappings
    end in
  let pathMappings :=
    pathMappings ++
    [ {| url := UrlString (if isWindowsPlatform env then "webpack:///" else "webpack://");
         path := Some EmptyString |};
      {| url := UrlString (if isWindowsPlatform env then "file:///" else "file://");
         path := Some EmptyString |} ] in
  Resolved
    {| p_attach := attach;
       p_launch := launch;
       p_addon := addon;
       p_pathMappings := pathMappings;
       filesToSkip := parseSkipFilesConfiguration (common config);
       p_reloadOnChange := parseReloadConfiguration (reloadOnChange (common config));
       p_clearConsoleOnReload := truthyBool (clearConsoleOnReload (common config));
       p_sourceMaps := default client (sourceMaps (common config));
       p_showConsoleCallLocation :=
         default false (showConsoleCallLocation (common config));
       p_liftAccessorsFromPrototypes :=
         if truthyNumber (liftAccessorsFromPrototypes (common config))
         then default 0 (liftAccessorsFromPrototypes (common config)) else 0 |}.

End WithEnvironment.

End ParseConfiguration.

(** ** The source adapter ([src/adapter/adapter/source.ts]) *)

Module Source.
Import JS.

(** The properties of [DebugProtocol.SourceBreakpoint] read here. *)
Record SourceBreakpoint := {
  line : Z;
  column : option Z;
  condition : option string;
  logMessage : option string
}.

#[global] Instance SourceBreakpoint_eq_dec : EqDecision SourceBreakpoint.
Proof. solve_decision. Defined.

(** Modelled from the spec: the class [BreakpointInfo] of [./breakpoint],
    which is not among the sources. It is the Breakpoint Descriptor of the
    data model: the request, the actual position and the verification
    state. Only the last three change after construction. *)
Record BreakpointInfo := {
  requestedBreakpoint : SourceBreakpoint;
  actualLine : option Z;
  actualColumn : option Z;
  verified : bool
}.

#[global] Instance BreakpointInfo_eq_dec : EqDecision BreakpointInfo.
Proof. solve_decision. Defined.

(** Modelled from the spec: [BreakpointInfo.isEquivalent] of [./breakpoint],
    which is not among the sources. Two descriptors are equivalent iff
    their equivalence keys match, the key being the requested line, column,
    condition and log message together. *)
Definition isEquivalent (this other : BreakpointInfo) : bool :=
  let bp1 := requestedBreakpoint this in
  let bp2 := requestedBreakpoint other in
  bool_decide (line bp1 = line bp2) && bool_decide (column bp1 = column bp2) &&
  bool_decide (condition bp1 = condition bp2) &&
  bool_decide (logMessage bp1 = logMessage bp2).

(** [FirefoxDebugProtocol.SourceLocation], as far as it is read here. *)
Record SourceLocation := { l_line : option Z; l_column : option Z }.

(** The result of [findNextBreakpointPosition]. *)
Record Position := { p_line : Z; p_column : Z }.

(** The result of the legacy [ISourceActorProxy.setBreakpoint]; the
    breakpoint actor is kept as its name. *)
Record SetBreakpointResult := {
  actualLocation : option SourceLocation;
  breakpointActor : string
}.

(** The two implementations of [BreakpointAdapter]. A breakpoint of the
    new protocol has no actor of its own. *)
Inductive BreakpointAdapter :=
| OldProtocolBreakpointAdapter (info : BreakpointInfo) (actor : string)
| NewProtocolBreakpointAdapter (info : BreakpointInfo).

Definition breakpointInfo (b : BreakpointAdapter) : BreakpointInfo :=
  match b with
  | OldProtocolBreakpointAdapter info _ => info
  | NewProtocolBreakpointAdapter info => info
  end.

Definition actorName (b : BreakpointAdapter) : option string :=
  match b with
  | OldProtocolBreakpointAdapter _ actor => Some actor
  | NewProtocolBreakpointAdapter _ => None
  end.

(** [ISourceActorProxy]: the properties read by the adapter. *)
Record ISourceActorProxy := {
  name : string;
  url : option string;
  introductionType : option string;
  isBlackBoxed : bool
}.

(** [Source] of [vscode-debugadapter], with the [presentationHint] of
    [DebugProtocol.Source]. *)
Record Source_ := {
  s_name : string;
  s_path : option string;
  sourceReference : Z;
  presentationHint : option string
}.

Definition createSource (actor : ISourceActorProxy)
    (sourcePath : option string) (id : Z) : Source_ :=
  let sourceName :=
    match url actor with
    | Some u => first (split "#" (pop (split "/" u)))
    | None =>
        match execTrailingDigits (name actor) with
        | Some match0 => orString (introductionType actor) "Script" +:+ " " +:+ match0
        | None => EmptyString
        end
    end in
  let source :=
    match sourcePath with
    | Some p => {| s_name := sourceName; s_path := Some p;
                   sourceReference := 0; presentationHint := None |}
    | None => {| s_name := sourceName;
                 s_path := if truthy (url actor) then url actor else None;
                 sourceReference := id; presentationHint := None |}
    end in
  if isBlackBoxed actor
  then {| s_name := s_name source; s_path := s_path source;
          sourceReference := sourceReference source;
          presentationHint := Some "deemphasize" |}
  else source.

Record SourceAdapter := {
  id : Z;
  source : Source_;
  actor : ISourceActorProxy;
  sourcePath : option string;
  newBreakpointProtocol : bool;
  (** the breakpoints for this source that have been set in Firefox *)
  currentBreakpoints : list BreakpointAdapter;
  (** the breakpoints for this source that should be set in Firefox *)
  desiredBreakpoints : option (list BreakpointInfo);
  (** [true] while [syncBreakpoints()] is running *)
  isSyncingBreakpoints : bool
}.

(** The constructor; [id] is what [sourceRegistry.register(this)] returned. *)
Definition newSourceAdapter (id : Z) (actor : ISourceActorProxy)
    (sourcePath : option string) (newBreakpointProtocol : bool) : SourceAdapter :=
  {| id := id;
     source := createSource actor sourcePath id;
     actor := actor;
     sourcePath := sourcePath;
     newBreakpointProtocol := newBreakpointProtocol;
     currentBreakpoints := [];
     desiredBreakpoints := None;
     isSyncingBreakpoints := false |}.

Definition setCurrentBreakpoints (l : list BreakpointAdapter) (this : SourceAdapter) :=
  {| id := id this; source := source this; actor := actor this;
     sourcePath := sourcePath this;
     newBreakpointProtocol := newBreakpointProtocol this;
     currentBreakpoints := l;
     desiredBreakpoints := desiredBreakpoints this;
     isSyncingBreakpoints := isSyncingBreakpoints this |}.

Definition setDesiredBreakpoints (d : option (list BreakpointInfo)) (this : SourceAdapter) :=
  {| id := id this; source := source this; actor := actor this;
     sourcePath := sourcePath this;
     newBreakpointProtocol := newBreakpointProtocol this;
     currentBreakpoints := currentBreakpoints this;
     desiredBreakpoints := d;
     isSyncingBreakpoints := isSyncingBreakpoints this |}.

Definition setIsSyncingBreakpoints (b : bool) (this : SourceAdapter) :=
  {| id := id this; source := source this; actor := actor this;
     sourcePath := sourcePath this;
     newBreakpointProtocol := newBreakpointProtocol this;
     currentBreakpoints := currentBreakpoints this;
     desiredBreakpoints := desiredBreakpoints this;
     isSyncingBreakpoints := b |}.

Definition findBreakpointAdapterForActorName (this : SourceAdapter)
    (wanted : string) : option BreakpointAdapter :=
  List.find (λ b, bool_decide (actorName b = Some wanted)) (currentBreakpoints this).

Definition findBreakpointAdapterForLocation (this : SourceAdapter)
    (location : SourceLocation) : option BreakpointAdapter :=
  List.find (λ b, bool_decide (actualLine (breakpointInfo b) = l_line location) &&
                  bool_decide (actualColumn (breakpointInfo b) = l_column location))
            (currentBreakpoints this).

(** *** The steps of [syncBreakpoints] that do not wait *)

(** The test of the loop at the start of [syncBreakpoints]: some requested
    breakpoint is equivalent to this installed one. *)
Definition isRequested (desired : list BreakpointInfo) (b : BreakpointAdapter) : bool :=
  existsb (λ requested, isEquivalent requested (breakpointInfo b)) desired.

Definition breakpointsToKeep (desired : list BreakpointInfo)
    (current : list BreakpointAdapter) : list BreakpointAdapter :=
  List.filter (isRequested desired) current.

Definition breakpointsToDelete (desired : list BreakpointInfo)
    (current : list BreakpointAdapter) : list BreakpointAdapter :=
  List.filter (λ b, negb (isRequested desired b)) current.

(** The filter after the deletions: it reads [this.currentBreakpoints],
    which still holds the breakpoints that were just deleted. *)
Definition breakpointsToAdd (desired : list BreakpointInfo)
    (current : list BreakpointAdapter) : list BreakpointInfo :=
  List.filter
    (λ desiredBreakpoint,
       negb (existsb (λ b, isEquivalent desiredBreakpoint (breakpointInfo b)) current))
    desired.

(** The log point expression sent to Firefox. *)
Definition logValue (info : BreakpointInfo) : option string :=
  match logMessage (requestedBreakpoint info) with
  | Some (String c r) => Some ("`" +:+ replaceFirst "{" "${" (String c r) +:+ "`")
  | _ => None
  end.

(** Modelled from the spec: [BreakpointsManager.verifyBreakpoint], the
    editor-facing verification sink, which is not among the sources. The
    reported position is recorded as the descriptor's actual position and
    the descriptor becomes verified; what the editor is told is outside
    the adapter. *)
Definition verifyBreakpoint (info : BreakpointInfo)
    (actualLine actualColumn : option Z) : BreakpointInfo :=
  {| requestedBreakpoint := requestedBreakpoint info;
     actualLine := actualLine;
     actualColumn := actualColumn;
     verified := true |}.

(** The calls on remote actors. *)
Inductive SetBreakpointCall :=
| ThreadSetBreakpoint (line column : option Z) (url condition logValue : option string)
| SourceSetBreakpoint (line : Z) (column : option Z) (condition : option string).

(** What an observer of the adapter's collaborators sees, in order. *)
Inductive Observation :=
| RunStarted (run : nat) (captured : option (list BreakpointInfo))
| DeleteIssued (run i : nat) (b : BreakpointAdapter)
| DeleteSettled (run i : nat) (ok : bool)
| PositionsRequested (run : nat)
| AddIssued (run i : nat) (call : SetBreakpointCall)
| AddSettled (run i : nat) (ok : bool)
| VerifyBreakpoint (info : BreakpointInfo) (actualLine actualColumn : option Z)
| RunFinished (run : nat)
| RunFaulted (run : nat).

(** A run of [syncBreakpoints] suspended at one of its [await]s, with the
    local variables that are live there. A promise is pending ([None]) or
    fulfilled; a rejected one ends the run. *)
Inductive Frame :=
| AwaitDeletions (desired : option (list BreakpointInfo))
    (toKeep : list BreakpointAdapter) (deletionPromises : list (option unit))
| AwaitBreakpointPositions
    (toKeep : list BreakpointAdapter) (toAdd : list BreakpointInfo)
| AwaitAdditionsNew
    (toKeep : list BreakpointAdapter) (toAdd : list BreakpointInfo)
    (additionPromises : list (option unit))
| AwaitAdditionsOld
    (toKeep : list BreakpointAdapter) (toAdd : list BreakpointInfo)
    (additionPromises : list (option SetBreakpointResult)).

(** The adapter together with what surrounds it.

    Modelled from the spec: the Pause Coordinator ([ThreadCoordinator],
    not among the sources), reduced to what the adapter sees of it: the
    closures given to [runOnPausedThread] are queued and run one at a
    time, each once the thread is paused and the one before it has
    settled. Every queued closure is [() => this.syncBreakpoints()], so
    the queue is their number. *)
Record World := {
  adapter : SourceAdapter;
  queued : nat;
  busy : bool;
  runs : list (nat * Frame);
  nextRun : nat;
  trace : list Observation
}.

Definition initialWorld (this : SourceAdapter) : World :=
  {| adapter := this; queued := 0; busy := false; runs := [];
     nextRun := 0; trace := [] |}.

Definition setAdapter (a : SourceAdapter) (w : World) : World :=
  {| adapter := a; queued := queued w; busy := busy w; runs := runs w;
     nextRun := nextRun w; trace := trace w |}.

Definition setCoordinator (q : nat) (b : bool) (w : World) : World :=
  {| adapter := adapter w; queued := q; busy := b; runs := runs w;
     nextRun := nextRun w; trace := trace w |}.

Definition setRuns (r : list (nat * Frame)) (w : World) : World :=
  {| adapter := adapter w; queued := queued w; busy := busy w; runs := r;
     nextRun := nextRun w; trace := trace w |}.

Definition freshRun (w : World) : World :=
  {| adapter := adapter w; queued := queued w; busy := busy w; runs := runs w;
     nextRun := S (nextRun w); trace := trace w |}.

Definition emit (o : list Observation) (w : World) : World :=
  {| adapter := adapter w; queued := queued w; busy := busy w; runs := runs w;
     nextRun := nextRun w; trace := trace w ++ o |}.

Definition lookupRun (run : nat) (w : World) : option Frame :=
  snd <$> List.find (λ r, bool_decide (fst r = run)) (runs w).

Definition removeRun (run : nat) (w : World) : World :=
  setRuns (List.filter (λ r, negb (bool_decide (fst r = run))) (runs w)) w.

Definition suspend (run : nat) (f : Frame) (w : World) : World :=
  setRuns (runs (removeRun run w) ++ [(run, f)]) w.

(** The promise returned by a run settles: the run is gone, and the
    coordinator, if it started the run, is free again. *)
Definition settleRun (run : nat) (w : World) : World :=
  setCoordinator (queued w) false (removeRun run w).

(** An exception escapes [syncBreakpoints]: its promise is rejected. Nothing
    is undone. *)
Definition faultRun (run : nat) (w : World) : World :=
  emit [RunFaulted run] (settleRun run w).

(** A pending promise of a batch is fulfilled. *)
Definition fulfil {A} (i : nat) (value : A) (promises : list (option A))
  : option (list (option A)) :=
  match promises !! i with
  | Some None => Some (<[i := Some value]> promises)
  | _ => None
  end.

Definition isPending {A} (i : nat) (promises : list (option A)) : bool :=
  match promises !! i with
  | Some None => true
  | _ => false
  end.

(** [Promise.all] is fulfilled once every promise is, with their values
    in order. *)
Fixpoint allFulfilled {A} (promises : list (option A)) : option (list A) :=
  match promises with
  | [] => Some []
  | Some v :: rest => (v ::.) <$> allFulfilled rest
  | None :: _ => None
  end.

Section Reconciliation.
(** What [actor.getBreakpointPositions()] resolves to, and the position
    look-up of [../firefox/sourceMaps/info]. *)
Context {BreakpointPositions : Type}.
Variable findNextBreakpointPosition : Z → Z → BreakpointPositions → Position.

(** [syncBreakpoints], from its start to [await Promise.all(deletionPromises)].
    With no desired breakpoints, [desiredBreakpoints.some] is a
    [TypeError] as soon as there is an installed breakpoint to test. *)
Definition syncBreakpoints (w : World) : World :=
  let run := nextRun w in
  let this := adapter w in
  let desired := desiredBreakpoints this in
  let this := setDesiredBreakpoints None (setIsSyncingBreakpoints true this) in
  let w := emit [RunStarted run desired] (freshRun (setAdapter this w)) in
  match desired, currentBreakpoints this with
  | None, _ :: _ => faultRun run w
  | _, current =>
      let toDelete := breakpointsToDelete (default [] desired) current in
      let toKeep := breakpointsToKeep (default [] desired) current in
      suspend run (AwaitDeletions desired toKeep ((λ _, None) <$> toDelete))
        (emit (imap (λ i b, DeleteIssued run i b) toDelete) w)
  end.

Definition runOnPausedThread (w : World) : World :=
  setCoordinator (S (queued w)) (busy w) w.

Definition checkAndSyncBreakpoints (w : World) : World :=
  if bool_decide (desiredBreakpoints (adapter w) ≠ None) &&
     negb (isSyncingBreakpoints (adapter w)) then
    if newBreakpointProtocol (adapter w) then syncBreakpoints w
    else runOnPausedThread w
  else w.

Definition updateBreakpoints (breakpoints : list BreakpointInfo) (w : World) : World :=
  checkAndSyncBreakpoints
    (setAdapter (setDesiredBreakpoints (Some breakpoints) (adapter w)) w).

(** The end of [syncBreakpoints]. *)
Definition finishSync (run : nat) (toKeep addedBreakpoints : list BreakpointAdapter)
    (w : World) : World :=
  let this :=
    setIsSyncingBreakpoints false
      (setCurrentBreakpoints (toKeep ++ addedBreakpoints) (adapter w)) in
  checkAndSyncBreakpoints
    (emit [RunFinished run] (settleRun run (setAdapter this w))).

(** From the deletions to the next [await]. *)
Definition afterDeletions (run : nat) (desired : option (list BreakpointInfo))
    (toKeep : list BreakpointAdapter) (w : World) : World :=
  match desired with
  | None => faultRun run w
  | Some desiredBreakpoints =>
      let toAdd :=
        breakpointsToAdd desiredBreakpoints (currentBreakpoints (adapter w)) in
      if newBreakpointProtocol (adapter w) then
        suspend run (AwaitBreakpointPositions toKeep toAdd)
          (emit [PositionsRequested run] w)
      else
        suspend run (AwaitAdditionsOld toKeep toAdd ((λ _, None) <$> toAdd))
          (emit (imap (λ i info,
                         AddIssued run i
                           (SourceSetBreakpoint
                              (line (requestedBreakpoint info))
                              (column (requestedBreakpoint info))
                              (condition (requestedBreakpoint info)))) toAdd) w)
  end.

(** New protocol: the start of each addition, up to its [await]. *)
Definition resolveActualLocation (breakpointPositions : BreakpointPositions)
    (info : BreakpointInfo) : BreakpointInfo :=
  let requestedColumn :=
    if truthyNumber (column (requestedBreakpoint info))
    then default 0 (column (requestedBreakpoint info)) else 0 in
  let actualLocation :=
    findNextBreakpointPosition (line (requestedBreakpoint info))
      requestedColumn breakpointPositions in
  {| requestedBreakpoint := requestedBreakpoint info;
     actualLine := Some (p_line actualLocation);
     actualColumn := Some (p_column actualLocation);
     verified := verified info |}.

Definition afterBreakpointPositions (run : nat)
    (toKeep : list BreakpointAdapter) (toAdd : list BreakpointInfo)
    (breakpointPositions : BreakpointPositions) (w : World) : World :=
  let toAdd := resolveActualLocation breakpointPositions <$> toAdd in
  suspend run (AwaitAdditionsNew toKeep toAdd ((λ _, None) <$> toAdd))
    (emit (imap (λ i info,
                   AddIssued run i
                     (ThreadSetBreakpoint (actualLine info) (actualColumn info)
                        (url (actor (adapter w)))
                        (condition (requestedBreakpoint info))
                        (logValue info))) toAdd) w).

(** New protocol: from the additions to the end. *)
Definition afterAdditionsNew (run : nat)
    (toKeep : list BreakpointAdapter) (toAdd : list BreakpointInfo)
    (w : World) : World :=
  let addedBreakpoints :=
    (λ info, NewProtocolBreakpointAdapter
               (verifyBreakpoint info (actualLine info) (actualColumn info)))
      <$> toAdd in
  finishSync run toKeep addedBreakpoints
    (emit ((λ info, VerifyBreakpoint info (actualLine info) (actualColumn info))
             <$> toAdd) w).

(** Legacy protocol: the position that is reported for an addition. *)
Definition legacyActualLine (desiredBreakpoint : BreakpointInfo)
    (setBreakpointResult : SetBreakpointResult) : option Z :=
  match actualLocation setBreakpointResult with
  | Some location => l_line location
  | None => Some (line (requestedBreakpoint desiredBreakpoint))
  end.

Definition legacyActualColumn (desiredBreakpoint : BreakpointInfo)
    (setBreakpointResult : SetBreakpointResult) : option Z :=
  match actualLocation setBreakpointResult with
  | Some location => l_column location
  | None => column (requestedBreakpoint desiredBreakpoint)
  end.

(** Legacy protocol: from the additions to the end. [additionResults]
    has one result per element of [toAdd], in the same order. *)
Definition afterAdditionsOld (run : nat)
    (toKeep : list BreakpointAdapter) (toAdd : list BreakpointInfo)
    (additionResults : list SetBreakpointResult) (w : World) : World :=
  let addedBreakpoints :=
    zip_with (λ setBreakpointResult desiredBreakpoint,
                OldProtocolBreakpointAdapter
                  (verifyBreakpoint desiredBreakpoint
                     (legacyActualLine desiredBreakpoint setBreakpointResult)
                     (legacyActualColumn desiredBreakpoint setBreakpointResult))
                  (breakpointActor setBreakpointResult))
             additionResults toAdd in
  finishSync run toKeep addedBreakpoints
    (emit (zip_with (λ setBreakpointResult desiredBreakpoint,
                       VerifyBreakpoint desiredBreakpoint
                         (legacyActualLine desiredBreakpoint setBreakpointResult)
                         (legacyActualColumn desiredBreakpoint setBreakpointResult))
                    additionResults toAdd) w).

(** *** Events *)

Inductive Event :=
(** the session calls [updateBreakpoints] *)
| Submit (breakpoints : list BreakpointInfo)
(** the coordinator runs the next queued closure *)
| CoordinatorRuns
(** [breakpointAdapter.delete()] of deletion [i] settles *)
| DeletionSettles (run i : nat) (ok : bool)
(** [actor.getBreakpointPositions()] settles *)
| PositionsSettle (run : nat) (positions : option BreakpointPositions)
(** [threadAdapter.actor.setBreakpoint] of addition [i] settles *)
| AdditionSettlesNew (run i : nat) (ok : bool)
(** [actor.setBreakpoint] of addition [i] settles *)
| AdditionSettlesOld (run i : nat) (result : option SetBreakpointResult)
(** a run continues after a fulfilled [Promise.all] *)
| Continue (run : nat).

(** One event; [None] when it cannot happen in this world. *)
Definition step (e : Event) (w : World) : option World :=
  match e with
  | Submit breakpoints => Some (updateBreakpoints breakpoints w)
  | CoordinatorRuns =>
      match queued w, busy w with
      | S n, false => Some (syncBreakpoints (setCoordinator n true w))
      | _, _ => None
      end
  | DeletionSettles run i ok =>
      match lookupRun run w with
      | Some (AwaitDeletions desired toKeep promises) =>
          let w := emit [DeleteSettled run i ok] w in
          if ok then
            promises ← fulfil i () promises;
            Some (suspend run (AwaitDeletions desired toKeep promises) w)
          else if isPending i promises then Some (faultRun run w)
          else None
      | _ => None
      end
  | PositionsSettle run positions =>
      match lookupRun run w with
      | Some (AwaitBreakpointPositions toKeep toAdd) =>
          Some (match positions with
                | Some breakpointPositions =>
                    afterBreakpointPositions run toKeep toAdd breakpointPositions w
                | None => faultRun run w
                end)
      | _ => None
      end
  | AdditionSettlesNew run i ok =>
      match lookupRun run w with
      | Some (AwaitAdditionsNew toKeep toAdd promises) =>
          let w := emit [AddSettled run i ok] w in
          if ok then
            promises ← fulfil i () promises;
            Some (suspend run (AwaitAdditionsNew toKeep toAdd promises) w)
          else if isPending i promises then Some (faultRun run w)
          else None
      | _ => None
      end
  | AdditionSettlesOld run i result =>
      match lookupRun run w with
      | Some (AwaitAdditionsOld toKeep toAdd promises) =>
          match result with
          | Some setBreakpointResult =>
              promises ← fulfil i setBreakpointResult promises;
              Some (suspend run (AwaitAdditionsOld toKeep toAdd promises)
                      (emit [AddSettled run i true] w))
          | None =>
              if isPending i promises
              then Some (faultRun run (emit [AddSettled run i false] w))
              else None
          end
      | _ => None
      end
  | Continue run =>
      match lookupRun run w with
      | Some (AwaitDeletions desired toKeep promises) =>
          _ ← allFulfilled promises;
          Some (afterDeletions run desired toKeep w)
      | Some (AwaitAdditionsNew toKeep toAdd promises) =>
          _ ← allFulfilled promises;
          Some (afterAdditionsNew run toKeep toAdd w)
      | Some (AwaitAdditionsOld toKeep toAdd promises) =>
          additionResults ← allFulfilled promises;
          Some (afterAdditionsOld run toKeep toAdd additionResults w)
      | _ => None
      end
  end.

(** A sequence of events, oldest first. *)
Fixpoint exec (events : list Event) (w : World) : option World :=
  match events with
  | [] => Some w
  | e :: rest => w' ← step e w; exec rest w'
  end.

End Reconciliation.

End Source.


(** * The commands of the extension

    The extension's entry point registers the commands of the debugger
    with the editor. [openRemoteScript] opens a script that has no local
    file through a [debug:] document. *)

Module Extension.
Import JS.

(** [openRemoteScript]: the text that is handed to [vscode.Uri.parse],
    [`debug:${sourceId}/${filename.split('?')[0]}?session=${sessionId}`]. *)
Definition remoteScriptUri (filename : string) (sourceId : Z) (sessionId : string) : string :=
  "debug:" +:+ numberToString sourceId +:+ "/" +:+ first (split "?" filename) +:+
  "?session=" +:+ sessionId.

End Extension.

(** * Properties *)

(** ** The string primitives *)

Module JSFacts.
Import JS.

Lemma append_nil (s : string) : EmptyString +:+ s = s.
Proof. reflexivity. Qed.

Lemma append_cons (x : ascii) (r s : string) :
  String x r +:+ s = String x (r +:+ s).
Proof. reflexivity. Qed.

Ltac str_simpl := simpl; rewrite ?append_cons, ?append_nil; simpl.

Lemma endsWith_append_char (c : ascii) (s : string) :
  endsWith c (s +:+ String c EmptyString) = true.
Proof.
  induction s as [|x r IH]; str_simpl.
  - apply Ascii.eqb_refl.
  - destruct r; [exact IH|]. rewrite append_cons in *. exact IH.
Qed.

Lemma split_nonempty (sep : ascii) (s : string) : split sep s ≠ [].
Proof.
  destruct s as [|x r]; simpl; [discriminate|].
  destruct (Ascii.eqb x sep); [discriminate|].
  destruct (split sep r); discriminate.
Qed.

Lemma split_shape (sep : ascii) (s : string) :
  ∃ h t, split sep s = h :: t ∧
    occurs sep h = false ∧
    (t = [] → s = h) ∧
    (t ≠ [] → (∃ rest, s = h +:+ String sep rest) ∧
              occurs sep (List.last t EmptyString) = false ∧
              ∃ pre, s = pre +:+ String sep (List.last t EmptyString)).
Proof.
  induction s as [|x r (h & t & Hs & Hh & Hnil & Hcons)]; simpl.
  - exists EmptyString, []. split; [done|]. split; [done|]. split; done.
  - destruct (Ascii.eqb x sep) eqn:E.
    + apply Ascii.eqb_eq in E as ->. rewrite Hs.
      exists EmptyString, (h :: t).
      split; [done|]. split; [done|]. split; [done|]. intros _.
      split; [exists r; reflexivity|].
      destruct t as [|h' t'].
      * split; [exact Hh|]. exists EmptyString. rewrite (Hnil eq_refl). reflexivity.
      * change (List.last (h :: h' :: t') EmptyString)
          with (List.last (h' :: t') EmptyString).
        destruct (Hcons ltac:(done)) as (_ & Ho & pre & ->).
        split; [exact Ho|]. exists (String sep pre). reflexivity.
    + rewrite Hs. exists (String x h), t.
      split; [done|]. split; [simpl; now rewrite E, Hh|].
      split; [intros ->; now rewrite (Hnil eq_refl)|]. intros Ht.
      destruct (Hcons Ht) as ((rest & Hr) & Ho & pre & Hp).
      split; [exists rest; rewrite append_cons; congruence|].
      split; [exact Ho|]. exists (String x pre). rewrite append_cons. congruence.
Qed.

(** The last piece of a split holds no separator, and is the whole string
    or what follows its last separator. *)
Lemma pop_split (sep : ascii) (s : string) :
  occurs sep (pop (split sep s)) = false ∧
  (s = pop (split sep s) ∨ ∃ pre, s = pre +:+ String sep (pop (split sep s))).
Proof.
  destruct (split_shape sep s) as (h & t & Hs & Hh & Hnil & Hcons).
  unfold pop. rewrite Hs. destruct t as [|h' t'].
  - simpl. split; [exact Hh | left; now apply Hnil].
  - change (List.last (h :: h' :: t') EmptyString)
      with (List.last (h' :: t') EmptyString).
    destruct (Hcons ltac:(done)) as (_ & Ho & Hp). split; [exact Ho | now right].
Qed.

(** The first piece of a split holds no separator, and is the whole string
    or what precedes its first separator. *)
Lemma first_split (sep : ascii) (s : string) :
  occurs sep (first (split sep s)) = false ∧
  (s = first (split sep s) ∨ ∃ rest, s = first (split sep s) +:+ String sep rest).
Proof.
  destruct (split_shape sep s) as (h & t & Hs & Hh & Hnil & Hcons).
  unfold first. rewrite Hs. simpl. split; [exact Hh|].
  destruct t as [|h' t']; [left; now apply Hnil|].
  right. now apply Hcons.
Qed.

(** [trailingDigits] is the longest suffix of digits. *)
Lemma trailingDigits_spec (s : string) :
  allDigits (trailingDigits s) = true ∧
  ∃ pre, s = pre +:+ trailingDigits s ∧ endsWithDigit pre = false.
Proof.
  induction s as [|x r (Hd & pre & Hs & Hp)]; simpl.
  - split; [reflexivity|]. exists EmptyString. done.
  - destruct (isDigit x) eqn:Ex; simpl.
    + destruct (String.eqb (trailingDigits r) r) eqn:Er.
      * apply String.eqb_eq in Er. simpl. rewrite Ex, Hd. split; [reflexivity|].
        exists EmptyString. split; [|reflexivity]. str_simpl. now rewrite Er.
      * split; [exact Hd|]. exists (String x pre). split.
        -- str_simpl. now rewrite <- Hs.
        -- simpl. destruct pre as [|y q]; [|exact Hp].
           rewrite append_nil in Hs. rewrite <- Hs in Er.
           now rewrite String.eqb_refl in Er.
    + split; [exact Hd|]. exists (String x pre). split.
      * str_simpl. now rewrite <- Hs.
      * simpl. destruct pre as [|y q]; [exact Ex | exact Hp].
Qed.

End JSFacts.

(** ** The configuration parser *)

Module ParseConfigurationFacts.
Import JS Configuration ParseConfiguration JSFacts.

(** C10. [harmonizeTrailingSlashes] makes the url and the path of a mapping
    agree on their trailing slash, only ever by appending one: for a mapping
    whose url and path are both strings, the result's url ends with a slash
    iff its path does, each of the two is the input's or the input's with a
    slash appended (so a slash that was there stays); a mapping whose url is
    a regular expression or whose path is null is returned unchanged; and
    the function is idempotent. *)
Theorem harmonizeTrailingSlashes_agree_idempotent (m : PathMapping) :
  (∀ u p, url m = UrlString u ∧ path m = Some p →
     ∃ u' p',
       harmonizeTrailingSlashes m = {| url := UrlString u'; path := Some p' |} ∧
       endsWith "/" u' = endsWith "/" p' ∧
       (u' = u ∨ u' = u +:+ "/") ∧ (p' = p ∨ p' = p +:+ "/") ∧
       (endsWith "/" u = true → endsWith "/" u' = true) ∧
       (endsWith "/" p = true → endsWith "/" p' = true)) ∧
  ((∀ u, url m ≠ UrlString u) ∨ path m = None → harmonizeTrailingSlashes m = m) ∧
  harmonizeTrailingSlashes (harmonizeTrailingSlashes m) = harmonizeTrailingSlashes m.
Proof.
  destruct m as [[u|r] [p|]]; cbn [url path].
  2,3,4: (split; [intros ? ? [? ?]; discriminate|]; split; [done|reflexivity]).
  unfold harmonizeTrailingSlashes; cbn [url path].
  split; [|split].
  - intros u0 p0 [[= <-] [= <-]].
    destruct (endsWith "/" u) eqn:Eu, (endsWith "/" p) eqn:Ep.
    + exists u, p. rewrite Eu, Ep. tauto.
    + exists u, (p +:+ "/"). rewrite Eu, endsWith_append_char. tauto.
    + exists (u +:+ "/"), p. rewrite Ep, endsWith_append_char. tauto.
    + exists u, p. rewrite Eu, Ep. tauto.
  - intros [H|H]; [now destruct (H u) | discriminate].
  - destruct (endsWith "/" u) eqn:Eu, (endsWith "/" p) eqn:Ep; cbn [url path].
    + now rewrite Eu, Ep.
    + now rewrite Eu, endsWith_append_char.
    + now rewrite Ep, endsWith_append_char.
    + now rewrite Eu, Ep.
Qed.

(** The three conflicts of claim C9, on a launch configuration. A property
    is set when the parser's own test of it succeeds: a string when it is
    not empty, [keepProfileChanges] when it is [true]. *)
Definition profileAndProfileDir (c : LaunchConfiguration) : Prop :=
  truthy (profile c) = true ∧ truthy (profileDir c) = true.

Definition keepProfileChangesAlone (c : LaunchConfiguration) : Prop :=
  keepProfileChanges c = Some true ∧
  truthy (profile c) = false ∧ truthy (profileDir c) = false.

Definition nothingToOpen (c : LaunchConfiguration) : Prop :=
  truthy (file c) = false ∧ truthy (c_url (l_common c)) = false ∧
  truthy (addonPath (l_common c)) = false.

Lemma bind_rejected {A B} (r : Result A) (k : A → Result B) (e : Thrown) :
  r = Rejected e → r ≫= k = Rejected e.
Proof. now intros ->. Qed.

Lemma bind_resolved {A B} (r : Result A) (k : A → Result B) (a : A) :
  r = Resolved a → r ≫= k = k a.
Proof. now intros ->. Qed.

(** Every rejection of [findFirefoxExecutable] is a message. *)
Lemma findFirefoxExecutable_message (env : Environment) (p : option string) :
  (∃ exe, findFirefoxExecutable env p = Resolved exe) ∨
  (∃ msg, findFirefoxExecutable env p = Rejected (ThrowMessage msg)).
Proof.
  unfold findFirefoxExecutable, throw.
  destruct p as [[|c r]|].
  2: destruct (isExecutable env (String c r)); eauto.
  all: match goal with |- context [List.find ?f ?l] => destruct (List.find f l) end; eauto.
Qed.

Lemma truthy_true (s : option string) :
  truthy s = true → ∃ c r, s = Some (String c r).
Proof. destruct s as [[|c r]|]; try discriminate. eauto. Qed.

Lemma parseProfileConfiguration_conflict (env : Environment)
    (c : LaunchConfiguration) (tmp : list string) :
  profileAndProfileDir c →
  parseProfileConfiguration env c tmp =
    throw ("You can set either " +:+ quoted "profile" +:+ " or " +:+
           quoted "profileDir" +:+ ", but not both").
Proof.
  intros [Hp Hd]. unfold parseProfileConfiguration. now rewrite Hd, Hp.
Qed.

Lemma parseProfileConfiguration_keep (env : Environment)
    (c : LaunchConfiguration) (tmp : list string) :
  keepProfileChangesAlone c →
  parseProfileConfiguration env c tmp =
    throw ("To enable " +:+ quoted "keepProfileChanges" +:+
           " you need to set either " +:+ quoted "profile" +:+ " or " +:+
           quoted "profileDir").
Proof.
  intros (Hk & Hp & Hd). unfold parseProfileConfiguration. rewrite Hd, Hk.
  destruct (profile c) as [[|x r]|]; try discriminate; reflexivity.
Qed.

(** Every rejection of [parseProfileConfiguration] is a message or the
    error of the profile finder. *)
Lemma parseProfileConfiguration_rejection (env : Environment)
    (c : LaunchConfiguration) (tmp : list string) (e : Thrown) :
  parseProfileConfiguration env c tmp = Rejected e →
  (∃ msg, e = ThrowMessage msg) ∨
  (∃ p, profile c = Some p ∧ finder_getPath env p = Rejected e).
Proof.
  unfold parseProfileConfiguration, findFirefoxProfileDir, throw.
  destruct (truthy (profileDir c)).
  - destruct (truthy (profile c)); simpl.
    + intros [= <-]. eauto.
    + destruct (truthyBool (keepProfileChanges c)); [|discriminate].
      destruct (profileDir c) as [[|x r]|]; try discriminate; intros [= <-]; eauto.
  - destruct (profile c) as [[|x r]|] eqn:Hp; simpl.
    2: destruct (finder_getPath env (String x r)) as [dir|e'] eqn:Hf; simpl.
    3: { intros [= <-]. right. eauto. }
    all: destruct (truthyBool (keepProfileChanges c)); try discriminate.
    2: destruct dir; try discriminate.
    all: intros [= <-]; eauto.
Qed.


Definition conflictMessage : string :=
  "You can set either " +:+ quoted "profile" +:+ " or " +:+
  quoted "profileDir" +:+ ", but not both".

Definition keepProfileChangesMessage : string :=
  "To enable " +:+ quoted "keepProfileChanges" +:+
  " you need to set either " +:+ quoted "profile" +:+ " or " +:+
  quoted "profileDir".

Definition nothingToOpenMessage : string :=
  "You need to set either " +:+ quoted "file" +:+ " or " +:+
  quoted "url" +:+ " in the launch configuration".

(** What the launch branch rejects with in each of the three cases. *)
Lemma parseLaunch_rejects (env : Environment) (c : LaunchConfiguration) (port : Z) :
  profileAndProfileDir c ∨ keepProfileChangesAlone c ∨ nothingToOpen c →
  ∃ reason, parseLaunch env c port = Rejected reason ∧
    ((∃ message, reason = ThrowMessage message) ∨
     (∃ p, profile c = Some p ∧ finder_getPath env p = Rejected reason)) ∧
    (∀ exe, findFirefoxExecutable env (firefoxExecutable c) = Resolved exe →
       (profileAndProfileDir c → reason = ThrowMessage conflictMessage) ∧
       (keepProfileChangesAlone c → reason = ThrowMessage keepProfileChangesMessage) ∧
       (nothingToOpen c →
        (∃ r, parseProfileConfiguration env c [] = Resolved r) →
        reason = ThrowMessage nothingToOpenMessage)).
Proof.
  intros Hcase. unfold parseLaunch.
  destruct (findFirefoxExecutable_message env (firefoxExecutable c))
    as [[exe Hexe]|[msg Hexe]]; rewrite Hexe; simpl.
  2: { exists (ThrowMessage msg). split; [reflexivity|]. split; [eauto|]. discriminate. }
  destruct (parseProfileConfiguration env c []) as [[[pd sp] tmp]|e] eqn:Hprofile; simpl.
  - destruct Hcase as [H|[H|(Hf & Hu & Ha)]].
    + rewrite (parseProfileConfiguration_conflict env c [] H) in Hprofile. discriminate.
    + rewrite (parseProfileConfiguration_keep env c [] H) in Hprofile. discriminate.
    + destruct (file c) as [[|x r]|]; try discriminate;
        destruct (c_url (l_common c)) as [[|y q]|]; try discriminate;
        rewrite Ha; simpl;
        (exists (ThrowMessage nothingToOpenMessage); split; [reflexivity|];
         split; [eauto|]; intros exe' _; split; [|split];
         [ intros H; rewrite (parseProfileConfiguration_conflict env c [] H) in Hprofile;
           discriminate
         | intros H; rewrite (parseProfileConfiguration_keep env c [] H) in Hprofile;
           discriminate
         | reflexivity ]).
  - exists e. split; [reflexivity|].
    split; [exact (parseProfileConfiguration_rejection env c [] e Hprofile)|].
    intros exe' _. split; [|split].
    + intros H. rewrite (parseProfileConfiguration_conflict env c [] H) in Hprofile.
      now injection Hprofile as <-.
    + intros H. rewrite (parseProfileConfiguration_keep env c [] H) in Hprofile.
      now injection Hprofile as <-.
    + intros _ [r Hr]. discriminate.
Qed.

(** C9. Conflicting or incomplete launch options are fatal:
    [parseConfiguration] is rejected, and returns no parsed configuration,
    when [profile] and [profileDir] are both set, when [keepProfileChanges]
    is set with neither of them, and when none of [file], [url] and
    [addonPath] is set. The rejection is a message, or (only possible when
    [profile] is set) the error of the profile finder; when the Firefox
    executable is found it is the message of the conflict itself. *)
Theorem parseConfiguration_rejects_conflicts
    (env : Environment) (c : LaunchConfiguration) :
  profileAndProfileDir c ∨ keepProfileChangesAlone c ∨ nothingToOpen c →
  ∃ reason, parseConfiguration env (Launch c) = Rejected reason ∧
    ((∃ message, reason = ThrowMessage message) ∨
     (∃ p, profile c = Some p ∧ finder_getPath env p = Rejected reason)) ∧
    (∀ exe, findFirefoxExecutable env (firefoxExecutable c) = Resolved exe →
       (profileAndProfileDir c → reason = ThrowMessage conflictMessage) ∧
       (keepProfileChangesAlone c → reason = ThrowMessage keepProfileChangesMessage) ∧
       (nothingToOpen c →
        (∃ r, parseProfileConfiguration env c [] = Resolved r) →
        reason = ThrowMessage nothingToOpenMessage)).
Proof.
  intros Hcase. unfold parseConfiguration.
  cbn [port common].
  destruct (parseLaunch_rejects env c
              (if truthyNumber (l_port c) then default 6000 (l_port c) else 6000) Hcase)
    as (reason & Hr & Hkind).
  exists reason. split; [|exact Hkind].
  rewrite Hr. reflexivity.
Qed.

(** A Linux machine with Firefox in [/usr/bin] and no named profiles. *)
Definition sampleEnvironment : Environment :=
  {| isExecutable := λ p, String.eqb p "/usr/bin/firefox";
     os_platform := "linux";
     env_PATH := "/usr/local/bin:/usr/bin";
     path_join := λ a b, a +:+ "/" +:+ b;
     path_isAbsolute := λ p, match p with String "/" _ => true | _ => false end;
     os_tmpdir := "/tmp";
     uuid_v4 := "110ec58a-a0f2-4ac4-8393-c866d813b8d1";
     isWindowsPlatform := false;
     finder_getPath := λ _, Rejected (ThrowError "profile not found");
     findAddonId := λ _, Resolved None;
     normalizePath := λ p, p;
     isAbsoluteUrl := λ _, false;
     minimatch_makeRe := λ _, None |}.

Definition emptyCommon : CommonConfiguration :=
  {| c_url := None; webRoot := None; reloadOnAttach := None; reloadOnChange := None;
     clearConsoleOnReload := None; pathMappings := None; skipFiles := None;
     showConsoleCallLocation := None; addonPath := None; popupAutohideButton := None;
     sourceMaps := None; liftAccessorsFromPrototypes := None |}.

(** A launch configuration that only sets [keepProfileChanges]. *)
Definition sampleLaunch : LaunchConfiguration :=
  {| l_common := emptyCommon; file := None; firefoxExecutable := None;
     profileDir := None; profile := None; keepProfileChanges := Some true;
     preferences := None; l_port := None; firefoxArgs := None; timeout := None;
     reAttach := None |}.

Lemma parseConfiguration_rejects_conflicts_witness :
  ∃ reason, parseConfiguration sampleEnvironment (Launch sampleLaunch) = Rejected reason ∧
    ((∃ message, reason = ThrowMessage message) ∨
     (∃ p, profile sampleLaunch = Some p ∧
           finder_getPath sampleEnvironment p = Rejected reason)) ∧
    (∀ exe, findFirefoxExecutable sampleEnvironment (firefoxExecutable sampleLaunch)
            = Resolved exe →
       (profileAndProfileDir sampleLaunch → reason = ThrowMessage conflictMessage) ∧
       (keepProfileChangesAlone sampleLaunch →
        reason = ThrowMessage keepProfileChangesMessage) ∧
       (nothingToOpen sampleLaunch →
        (∃ r, parseProfileConfiguration sampleEnvironment sampleLaunch [] = Resolved r) →
        reason = ThrowMessage nothingToOpenMessage)).
Proof.
  apply (parseConfiguration_rejects_conflicts sampleEnvironment sampleLaunch).
  right. left. repeat split; reflexivity.
Defined.

(** The same configuration is rejected with the message about
    [keepProfileChanges]; with a [url] and a [webRoot] and no
    [keepProfileChanges] it is accepted. *)
Example parseConfiguration_sample_rejected :
  parseConfiguration sampleEnvironment (Launch sampleLaunch)
  = Rejected (ThrowMessage keepProfileChangesMessage).
Proof. vm_compute. reflexivity. Qed.

Example parseConfiguration_sample_accepted :
  isRejected
    (parseConfiguration sampleEnvironment
       (Launch {| l_common :=
                    {| c_url := Some "http://localhost:8080/index.html";
                       webRoot := Some "/home/me/app"; reloadOnAttach := None;
                       reloadOnChange := None; clearConsoleOnReload := None;
                       pathMappings := None; skipFiles := None;
                       showConsoleCallLocation := None; addonPath := None;
                       popupAutohideButton := None; sourceMaps := None;
                       liftAccessorsFromPrototypes := None |};
                  file := None; firefoxExecutable := None;
                  profileDir := None; profile := None; keepProfileChanges := None;
                  preferences := None; l_port := None; firefoxArgs := None;
                  timeout := None; reAttach := None |})) = false.
Proof. vm_compute. reflexivity. Qed.

End ParseConfigurationFacts.

(** ** The source adapter *)

Module SourceFacts.
Import JS Source JSFacts.

(** *** The editor-visible source *)

Lemma createSource_name (actor : ISourceActorProxy) (sourcePath : option string) (id : Z) :
  s_name (createSource actor sourcePath id) =
    match url actor with
    | Some u => first (split "#" (pop (split "/" u)))
    | None =>
        match execTrailingDigits (name actor) with
        | Some match0 => orString (introductionType actor) "Script" +:+ " " +:+ match0
        | None => EmptyString
        end
    end.
Proof.
  unfold createSource. destruct sourcePath, (isBlackBoxed actor); reflexivity.
Qed.

(** A script loaded with a cache-busting query, and an actor whose name does
    not end in digits. *)
Definition scriptWithQuery : ISourceActorProxy :=
  {| name := "server1.conn0.child1/source27";
     url := Some "http://localhost:8080/js/app.js?v=3";
     introductionType := Some "scriptElement";
     isBlackBoxed := false |}.

Definition evalWithoutNumber : ISourceActorProxy :=
  {| name := "server1.conn0.source27a";
     url := None;
     introductionType := Some "eval";
     isBlackBoxed := false |}.

(** C8, as stated, fails: the query string of the URL stays in the display
    name (only a fragment is cut off), and a source without URL whose actor
    name does not end in a digit gets the empty name. *)
Lemma createSource_keeps_query_string :
  s_name (createSource scriptWithQuery None 7) = "app.js?v=3" ∧
  s_name (createSource scriptWithQuery None 7) ≠ "app.js" ∧
  s_name (createSource evalWithoutNumber None 8) = EmptyString.
Proof. split; [reflexivity|]. split; [discriminate | reflexivity]. Qed.

(** C8, amended. With a URL, the display name is what follows the last
    slash of the URL, cut before its first [#]: the fragment is stripped, a
    query string is kept. Without a URL, the actor name is split into its
    longest suffix of digits and the rest; when there are such digits the
    display name is the introduction type (or [Script] when it is missing
    or empty), a space and the digits, and otherwise it is empty. *)
Theorem createSource_display_name
    (actor : ISourceActorProxy) (sourcePath : option string) (id : Z) :
  let displayName := s_name (createSource actor sourcePath id) in
  (∀ u, url actor = Some u →
     ∃ segment,
       occurs "/" segment = false ∧
       (u = segment ∨ ∃ pre, u = pre +:+ String "/" segment) ∧
       occurs "#" displayName = false ∧
       (segment = displayName ∨
        ∃ fragment, segment = displayName +:+ String "#" fragment)) ∧
  (url actor = None →
     ∃ pre digits,
       name actor = pre +:+ digits ∧
       allDigits digits = true ∧ endsWithDigit pre = false ∧
       displayName =
         match digits with
         | EmptyString => EmptyString
         | _ => orString (introductionType actor) "Script" +:+ " " +:+ digits
         end).
Proof.
  cbv zeta. rewrite createSource_name. split.
  - intros u ->. exists (pop (split "/" u)).
    destruct (pop_split "/" u) as [Ho Hs].
    destruct (first_split "#" (pop (split "/" u))) as [Ho' Hs']. auto.
  - intros ->. destruct (trailingDigits_spec (name actor)) as (Hd & pre & Hs & Hp).
    exists pre, (trailingDigits (name actor)).
    split; [exact Hs|]. split; [exact Hd|]. split; [exact Hp|].
    unfold execTrailingDigits. destruct (trailingDigits (name actor)); reflexivity.
Qed.

(** *** Equivalence and the difference between desired and installed *)

(** The equivalence key of a descriptor is its request: the four fields
    that [isEquivalent] compares. *)
Lemma isEquivalent_key (a b : BreakpointInfo) :
  isEquivalent a b = true ↔ requestedBreakpoint a = requestedBreakpoint b.
Proof.
  unfold isEquivalent. rewrite !andb_true_iff, !bool_decide_eq_true.
  destruct (requestedBreakpoint a), (requestedBreakpoint b); cbn.
  split; [intros [[[-> ->] ->] ->]; reflexivity | intros [= -> -> -> ->]; auto].
Qed.

Lemma isEquivalent_fields (a b : BreakpointInfo) :
  isEquivalent a b = false ↔
  line (requestedBreakpoint a) ≠ line (requestedBreakpoint b) ∨
  column (requestedBreakpoint a) ≠ column (requestedBreakpoint b) ∨
  condition (requestedBreakpoint a) ≠ condition (requestedBreakpoint b) ∨
  logMessage (requestedBreakpoint a) ≠ logMessage (requestedBreakpoint b).
Proof.
  unfold isEquivalent. rewrite !andb_false_iff, !bool_decide_eq_false. tauto.
Qed.

Lemma isEquivalent_refl (a : BreakpointInfo) : isEquivalent a a = true.
Proof. now apply isEquivalent_key. Qed.

Lemma isEquivalent_sym (a b : BreakpointInfo) : isEquivalent a b = isEquivalent b a.
Proof.
  destruct (isEquivalent b a) eqn:E.
  - apply isEquivalent_key. symmetry. now apply isEquivalent_key.
  - destruct (isEquivalent a b) eqn:E'; [|reflexivity].
    apply isEquivalent_key in E'. symmetry in E'. apply isEquivalent_key in E'. congruence.
Qed.

(** The keys of the installed breakpoints and of a desired set. *)
Definition installedKeys (current : list BreakpointAdapter) : list SourceBreakpoint :=
  (λ b, requestedBreakpoint (breakpointInfo b)) <$> current.

Definition desiredKeys (desired : list BreakpointInfo) : list SourceBreakpoint :=
  requestedBreakpoint <$> desired.

Lemma isRequested_keys (D : list BreakpointInfo) (b : BreakpointAdapter) :
  isRequested D b = true ↔ In (requestedBreakpoint (breakpointInfo b)) (desiredKeys D).
Proof.
  unfold isRequested, desiredKeys. rewrite existsb_exists, in_map_iff.
  split; intros (d & H1 & H2); exists d.
  - apply isEquivalent_key in H2. auto.
  - split; [exact H2|]. now apply isEquivalent_key.
Qed.

Lemma isInstalled_keys (current : list BreakpointAdapter) (d : BreakpointInfo) :
  existsb (λ b, isEquivalent d (breakpointInfo b)) current = true ↔
  In (requestedBreakpoint d) (installedKeys current).
Proof.
  unfold installedKeys. rewrite existsb_exists, in_map_iff.
  split; intros (b & H1 & H2); exists b.
  - apply isEquivalent_key in H2. auto.
  - split; [exact H2|]. apply isEquivalent_key. auto.
Qed.

(** The installed set and a desired set agree: every installed breakpoint
    has an equivalent desired one and conversely. *)
Definition inSync (D : list BreakpointInfo) (current : list BreakpointAdapter) : Prop :=
  (∀ k, In k (installedKeys current) ↔ In k (desiredKeys D)).

Lemma filter_nil_iff {A} (f : A → bool) (l : list A) :
  List.filter f l = [] ↔ ∀ x, In x l → f x = false.
Proof.
  induction l as [|a l IH]; cbn; [tauto|].
  destruct (f a) eqn:E; split.
  - discriminate.
  - intros H. specialize (H a (or_introl eq_refl)). congruence.
  - intros H x [<-|Hx]; [exact E | now apply IH].
  - intros H. apply IH. auto.
Qed.

Lemma filter_all {A} (f : A → bool) (l : list A) :
  (∀ x, In x l → f x = true) → List.filter f l = l.
Proof.
  induction l as [|a l IH]; cbn; [reflexivity|]. intros H.
  rewrite (H a (or_introl eq_refl)). f_equal. auto.
Qed.

Lemma inSync_nothing_to_do (D : list BreakpointInfo) (current : list BreakpointAdapter) :
  inSync D current ↔
  breakpointsToDelete D current = [] ∧ breakpointsToAdd D current = [].
Proof.
  unfold inSync, breakpointsToDelete, breakpointsToAdd.
  rewrite !filter_nil_iff. split.
  - intros H. split.
    + intros b Hb. apply negb_false_iff, isRequested_keys, H.
      unfold installedKeys. apply in_map_iff. eauto.
    + intros d Hd. apply negb_false_iff, isInstalled_keys, H.
      unfold desiredKeys. apply in_map_iff. eauto.
  - intros [H1 H2] k. split.
    + unfold installedKeys. rewrite in_map_iff. intros (b & <- & Hb).
      apply isRequested_keys. specialize (H1 b Hb). now apply negb_false_iff in H1.
    + unfold desiredKeys at 1. rewrite in_map_iff. intros (d & <- & Hd).
      apply isInstalled_keys. specialize (H2 d Hd). now apply negb_false_iff in H2.
Qed.

Lemma inSync_keep_all (D : list BreakpointInfo) (current : list BreakpointAdapter) :
  inSync D current → breakpointsToKeep D current = current.
Proof.
  intros H. unfold breakpointsToKeep. apply filter_all. intros b Hb.
  apply isRequested_keys, H. unfold installedKeys. apply in_map_iff. eauto.
Qed.

Lemma inSync_same_keys (D D' : list BreakpointInfo) (current : list BreakpointAdapter) :
  desiredKeys D' = desiredKeys D → inSync D current → inSync D' current.
Proof. unfold inSync. intros ->. done. Qed.

Lemma installedKeys_app (a b : list BreakpointAdapter) :
  installedKeys (a ++ b) = installedKeys a ++ installedKeys b.
Proof. unfold installedKeys. apply fmap_app. Qed.

Lemma installedKeys_keep (D : list BreakpointInfo) (current : list BreakpointAdapter) (k : SourceBreakpoint) :
  In k (installedKeys (breakpointsToKeep D current)) ↔
  In k (installedKeys current) ∧ In k (desiredKeys D).
Proof.
  unfold installedKeys, breakpointsToKeep. rewrite !in_map_iff. split.
  - intros (b & <- & Hb). apply filter_In in Hb as [Hb Hr].
    split; [eauto | now apply isRequested_keys].
  - intros [(b & <- & Hb) Hk]. exists b. split; [reflexivity|].
    apply filter_In. split; [exact Hb | now apply isRequested_keys].
Qed.

Lemma desiredKeys_add (D : list BreakpointInfo) (current : list BreakpointAdapter) (k : SourceBreakpoint) :
  In k (desiredKeys (breakpointsToAdd D current)) ↔
  In k (desiredKeys D) ∧ ¬ In k (installedKeys current).
Proof.
  unfold desiredKeys, breakpointsToAdd. rewrite !in_map_iff. split.
  - intros (d & <- & Hd). apply filter_In in Hd as [Hd Hn].
    split; [eauto|]. intros Hi. apply isInstalled_keys in Hi.
    rewrite Hi in Hn. discriminate.
  - intros [(d & <- & Hd) Hn]. exists d. split; [reflexivity|].
    apply filter_In. split; [exact Hd|]. apply negb_true_iff.
    destruct (existsb _ current) eqn:E; [|reflexivity].
    exfalso. apply Hn. now apply isInstalled_keys.
Qed.

(** Merging what was kept with additions that carry the keys of what was
    to add brings the installed set in agreement with the desired set. *)
Lemma merge_inSync (D : list BreakpointInfo) (current added : list BreakpointAdapter) :
  installedKeys added = desiredKeys (breakpointsToAdd D current) →
  inSync D (breakpointsToKeep D current ++ added).
Proof.
  intros Ha k. rewrite installedKeys_app, in_app_iff, Ha, installedKeys_keep, desiredKeys_add.
  destruct (in_dec SourceBreakpoint_eq_dec k (installedKeys current)); tauto.
Qed.

(** *** Reconciliation: worlds that can be reached *)

Section ReconciliationFacts.
Context {BreakpointPositions : Type}.
Variable findNextBreakpointPosition : Z → Z → BreakpointPositions → Position.

Local Abbreviation step := (step findNextBreakpointPosition).
Local Abbreviation exec := (exec findNextBreakpointPosition).
Local Abbreviation Event := (@Event BreakpointPositions).

(** A world is reachable when some sequence of events leads to it from a
    newly constructed adapter. *)
Definition reachable (w : World) : Prop :=
  ∃ id actor sourcePath newProtocol (events : list Event),
    exec events (initialWorld (newSourceAdapter id actor sourcePath newProtocol)) = Some w.

Lemma exec_app (e1 e2 : list Event) (w : World) :
  exec (e1 ++ e2) w = exec e1 w ≫= exec e2.
Proof.
  revert w. induction e1 as [|e rest IH]; intros w; simpl; [reflexivity|].
  destruct (step e w) as [w'|]; simpl; [apply IH | reflexivity].
Qed.

Lemma exec_snoc (events : list Event) (e : Event) (w w' : World) :
  exec (events ++ [e]) w = Some w' ↔ ∃ w1, exec events w = Some w1 ∧ step e w1 = Some w'.
Proof.
  rewrite exec_app. destruct (exec events w) as [w1|]; simpl.
  - destruct (step e w1) as [w2|] eqn:E; simpl; split.
    + intros [= <-]. eauto.
    + intros (w1' & [= <-] & H). congruence.
    + discriminate.
    + intros (w1' & [= <-] & H). congruence.
  - split; [discriminate|]. intros (w1 & H & _). discriminate.
Qed.

Lemma exec_cons (e : Event) (rest : list Event) (w w' : World) :
  exec (e :: rest) w = Some w' ↔ ∃ w1, step e w = Some w1 ∧ exec rest w1 = Some w'.
Proof.
  change (exec (e :: rest) w) with (step e w ≫= exec rest).
  destruct (step e w) as [w1|]; cbn; split.
  - eauto.
  - intros (w2 & [= <-] & H). exact H.
  - discriminate.
  - intros (w2 & H & _). discriminate.
Qed.

(** Invariants are proved by induction on the events, latest last. *)
Lemma exec_ind (P : World → Prop) (w0 : World) :
  P w0 →
  (∀ w e w', P w → step e w = Some w' → P w') →
  ∀ events w, exec events w0 = Some w → P w.
Proof.
  intros H0 Hstep events. induction events as [|e events IH] using rev_ind; intros w.
  - simpl. now intros [= <-].
  - rewrite exec_snoc. intros (w1 & H1 & H2). eauto.
Qed.

Lemma reachable_ind (P : World → Prop) :
  (∀ id actor sourcePath newProtocol,
     P (initialWorld (newSourceAdapter id actor sourcePath newProtocol))) →
  (∀ w e w', P w → step e w = Some w' → P w') →
  ∀ w, reachable w → P w.
Proof.
  intros H0 Hstep w (id & actor & sourcePath & newProtocol & events & H).
  eapply exec_ind; eauto.
Qed.

Lemma reachable_step (w w' : World) (e : Event) :
  reachable w → step e w = Some w' → reachable w'.
Proof.
  intros (id & actor & sourcePath & newProtocol & events & H) Hs.
  exists id, actor, sourcePath, newProtocol, (events ++ [e]).
  apply exec_snoc. eauto.
Qed.

Lemma reachable_exec (w w' : World) (events : list Event) :
  reachable w → exec events w = Some w' → reachable w'.
Proof.
  revert w. induction events as [|e rest IH]; intros w Hr; simpl.
  - now intros [= <-].
  - destruct (step e w) as [w1|] eqn:E; simpl; [|discriminate].
    apply IH. eapply reachable_step; eauto.
Qed.

(** *** Single flight *)

#[local] Arguments breakpointsToKeep : simpl never.
#[local] Arguments breakpointsToDelete : simpl never.
#[local] Arguments breakpointsToAdd : simpl never.
#[local] Arguments isEquivalent : simpl never.
#[local] Arguments resolveActualLocation : simpl never.
#[local] Arguments verifyBreakpoint : simpl never.
#[local] Arguments logValue : simpl never.
#[local] Arguments legacyActualLine : simpl never.
#[local] Arguments legacyActualColumn : simpl never.
#[local] Arguments syncBreakpoints : simpl never.
#[local] Arguments checkAndSyncBreakpoints : simpl never.
#[local] Arguments updateBreakpoints : simpl never.
#[local] Arguments finishSync : simpl never.
#[local] Arguments afterDeletions : simpl never.
#[local] Arguments afterBreakpointPositions : simpl never.
#[local] Arguments afterAdditionsNew : simpl never.
#[local] Arguments afterAdditionsOld : simpl never.

(** A frame belongs to the protocol variant that can suspend there, with
    one promise per breakpoint to add. *)
Definition frameFits (newProtocol : bool) (f : Frame) : Prop :=
  match f with
  | AwaitDeletions _ _ _ => True
  | AwaitBreakpointPositions _ _ => newProtocol = true
  | AwaitAdditionsNew _ toAdd promises =>
      newProtocol = true ∧ length promises = length toAdd
  | AwaitAdditionsOld _ toAdd promises =>
      newProtocol = false ∧ length promises = length toAdd
  end.

(** No run is suspended, or exactly one is, and then the flag is set. *)
Definition singleFlight (w : World) : Prop :=
  runs w = [] ∨
  ∃ run f, runs w = [(run, f)] ∧
           isSyncingBreakpoints (adapter w) = true ∧
           (run < nextRun w)%nat ∧
           frameFits (newBreakpointProtocol (adapter w)) f.

(** The new protocol never uses the coordinator; under the legacy protocol
    the coordinator is busy exactly while a run is suspended. *)
Definition coordinatorFits (w : World) : Prop :=
  if newBreakpointProtocol (adapter w)
  then queued w = 0%nat ∧ busy w = false
  else (busy w = true ↔ runs w ≠ []).

Definition wellFormed (w : World) : Prop := singleFlight w ∧ coordinatorFits w.

Lemma length_fulfil {A} (i : nat) (v : A) (ps ps' : list (option A)) :
  fulfil i v ps = Some ps' → length ps' = length ps.
Proof.
  unfold fulfil. destruct (ps !! i) as [[|]|]; try discriminate.
  intros [= <-]. apply length_insert.
Qed.

Ltac wf_unfold :=
  unfold wellFormed, singleFlight, coordinatorFits, lookupRun in *; cbn in *.

Ltac wf_runs Hs :=
  let Hr := fresh "Hr" in
  destruct Hs as [Hr | (?r & ?f & Hr & ?Hflag & ?Hlt & ?Hfit)];
  rewrite Hr in *; cbn in *.

Ltac wf_rewrite :=
  repeat match goal with
         | H : newBreakpointProtocol _ = _ |- _ => rewrite H in *; clear H
         | H : isSyncingBreakpoints _ = _ |- _ => rewrite H in *; clear H
         | H : runs _ = _ |- _ => rewrite H in *; clear H
         | H : busy _ = _ |- _ => rewrite H in *; clear H
         | H : queued _ = _ |- _ => rewrite H in *; clear H
         end; cbn in *.

Ltac wf_solve :=
  wf_rewrite;
  first [ done
        | split; [ first [ now left | right; eexists _, _; split; [reflexivity|];
                                      cbn; repeat split; first [done | lia | idtac] ]
                 | first [ done | intuition (first [congruence | lia | done]) ] ] ].

(** Starting a run when none is suspended. *)
Lemma wellFormed_syncBreakpoints (w : World) :
  runs w = [] →
  (if newBreakpointProtocol (adapter w)
   then queued w = 0%nat ∧ busy w = false else busy w = true) →
  wellFormed (syncBreakpoints w).
Proof.
  intros Hr Hc. unfold syncBreakpoints.
  destruct (desiredBreakpoints (adapter w)) as [d|],
    (currentBreakpoints (adapter w)) as [|c cs] eqn:Ec;
    cbn; rewrite ?Ec; cbn; wf_unfold;
    destruct (newBreakpointProtocol (adapter w)); wf_solve.
Qed.

Lemma wellFormed_checkAndSyncBreakpoints (w : World) :
  runs w = [] → busy w = false →
  (newBreakpointProtocol (adapter w) = true → queued w = 0%nat) →
  wellFormed (checkAndSyncBreakpoints w).
Proof.
  intros Hr Hb Hq. unfold checkAndSyncBreakpoints.
  destruct (bool_decide _ && negb _).
  - destruct (newBreakpointProtocol (adapter w)) eqn:Ep.
    + apply wellFormed_syncBreakpoints; [done|]. rewrite Ep. auto.
    + wf_unfold. wf_solve.
  - wf_unfold. destruct (newBreakpointProtocol (adapter w)); wf_solve.
Qed.

Lemma lookupRun_inv (w : World) (run : nat) (f : Frame) :
  singleFlight w → lookupRun run w = Some f →
  runs w = [(run, f)] ∧ isSyncingBreakpoints (adapter w) = true ∧
  (run < nextRun w)%nat ∧ frameFits (newBreakpointProtocol (adapter w)) f.
Proof.
  intros Hs H. unfold lookupRun in H. wf_runs Hs; [done|].
  case_bool_decide; [|done]. cbn in H. injection H as <-. subst. done.
Qed.

Lemma runs_suspend (w : World) (run : nat) (f f' : Frame) :
  runs w = [(run, f)] → runs (suspend run f' w) = [(run, f')].
Proof. intros Hr. cbn. rewrite Hr. cbn. now rewrite bool_decide_true. Qed.

Lemma runs_settleRun (w : World) (run : nat) (f : Frame) :
  runs w = [(run, f)] → runs (settleRun run w) = [].
Proof. intros Hr. cbn. rewrite Hr. cbn. now rewrite bool_decide_true. Qed.

Lemma wellFormed_suspend (w : World) (run : nat) (f f' : Frame) (o : list Observation) :
  wellFormed w → runs w = [(run, f)] →
  frameFits (newBreakpointProtocol (adapter w)) f' →
  wellFormed (suspend run f' (emit o w)).
Proof.
  intros [Hs Hc] Hr Hf. split.
  - right. exists run, f'. split; [now apply (runs_suspend (emit o w) run f)|].
    wf_runs Hs; [done|]. injection Hr as -> ->. done.
  - unfold coordinatorFits in *.
    rewrite (runs_suspend (emit o w) run f f' Hr). cbn.
    destruct (newBreakpointProtocol (adapter w)); [done|].
    rewrite Hr in Hc. intuition congruence.
Qed.

Lemma wellFormed_faultRun (w : World) (run : nat) (f : Frame) (o : list Observation) :
  wellFormed w → runs w = [(run, f)] → wellFormed (faultRun run (emit o w)).
Proof.
  intros [Hs Hc] Hr. split.
  - left. apply (runs_settleRun (emit o w) run f Hr).
  - unfold coordinatorFits in *. change (runs (faultRun run (emit o w)))
      with (runs (settleRun run (emit o w))).
    rewrite (runs_settleRun (emit o w) run f Hr). cbn.
    destruct (newBreakpointProtocol (adapter w)); [tauto|]. intuition congruence.
Qed.

Lemma wellFormed_finishSync (w : World) (run : nat) (f : Frame)
    (toKeep added : list BreakpointAdapter) (o : list Observation) :
  wellFormed w → runs w = [(run, f)] →
  wellFormed (finishSync run toKeep added (emit o w)).
Proof.
  intros [Hs Hc] Hr. unfold finishSync.
  apply wellFormed_checkAndSyncBreakpoints.
  - cbn. rewrite Hr. cbn. now rewrite bool_decide_true.
  - reflexivity.
  - cbn. unfold coordinatorFits in Hc. intros Hp. rewrite Hp in Hc. tauto.
Qed.

Lemma wellFormed_step (w w' : World) (e : Event) :
  wellFormed w → step e w = Some w' → wellFormed w'.
Proof.
  intros Hw H. pose proof Hw as [Hs Hc]. destruct e; cbn in H.
  - injection H as <-. unfold updateBreakpoints, checkAndSyncBreakpoints. cbn.
    destruct (isSyncingBreakpoints (adapter w)) eqn:Ef; cbn; [exact Hw|].
    destruct (newBreakpointProtocol (adapter w)) eqn:Ep.
    + apply wellFormed_syncBreakpoints; cbn.
      { destruct Hs as [Hr|(r & f & Hr & Hflag & _)]; [done | congruence]. }
      rewrite Ep.
      unfold coordinatorFits in Hc. now rewrite Ep in Hc.
    + wf_unfold. rewrite Ep in *. done.
  - destruct (queued w) as [|n] eqn:Eq; [done|]. destruct (busy w) eqn:Eb; [done|].
    injection H as <-. unfold coordinatorFits in Hc.
    destruct (newBreakpointProtocol (adapter w)) eqn:Ep; [lia|].
    apply wellFormed_syncBreakpoints; cbn; [|now rewrite Ep].
    destruct (runs w); [done|]. exfalso. rewrite Eb in Hc.
    assert (false = true) as Habs by now apply Hc. discriminate.
  - destruct (lookupRun run w) as [[d k ps| | |]|] eqn:El; try done.
    destruct (lookupRun_inv w run _ Hs El) as (Hr & _).
    destruct ok.
    + destruct (fulfil i () ps) as [ps'|]; [|done]. injection H as <-.
      now apply (wellFormed_suspend w run _ _ _ Hw Hr).
    + destruct (isPending i ps); [|done]. injection H as <-.
      now apply (wellFormed_faultRun w run _ _ Hw Hr).
  - destruct (lookupRun run w) as [[| k a | |]|] eqn:El; try done.
    destruct (lookupRun_inv w run _ Hs El) as (Hr & _ & _ & Hfit).
    injection H as <-. destruct positions as [positions|].
    + unfold afterBreakpointPositions.
      apply (wellFormed_suspend w run _ _ _ Hw Hr). cbn.
      split; [exact Hfit|]. now rewrite !length_fmap.
    + now apply (wellFormed_faultRun w run _ [] Hw Hr).
  - destruct (lookupRun run w) as [[| | k a ps |]|] eqn:El; try done.
    destruct (lookupRun_inv w run _ Hs El) as (Hr & _ & _ & Hfit & Hlen).
    destruct ok.
    + destruct (fulfil i () ps) as [ps'|] eqn:Ef; [|done]. injection H as <-.
      apply (wellFormed_suspend w run _ _ _ Hw Hr). cbn.
      split; [done|]. now rewrite (length_fulfil _ _ _ _ Ef).
    + destruct (isPending i ps); [|done]. injection H as <-.
      now apply (wellFormed_faultRun w run _ _ Hw Hr).
  - destruct (lookupRun run w) as [[| | | k a ps]|] eqn:El; try done.
    destruct (lookupRun_inv w run _ Hs El) as (Hr & _ & _ & Hfit & Hlen).
    destruct result as [result|].
    + destruct (fulfil i result ps) as [ps'|] eqn:Ef; [|done]. injection H as <-.
      apply (wellFormed_suspend w run _ _ _ Hw Hr). cbn.
      split; [done|]. now rewrite (length_fulfil _ _ _ _ Ef).
    + destruct (isPending i ps); [|done]. injection H as <-.
      now apply (wellFormed_faultRun w run _ _ Hw Hr).
  - destruct (lookupRun run w) as [[d k ps| | k a ps | k a ps]|] eqn:El; try done;
      destruct (lookupRun_inv w run _ Hs El) as (Hr & _ & _ & Hfit);
      destruct (allFulfilled ps) as [results|]; try done; injection H as <-.
    + unfold afterDeletions. destruct d as [d|].
      * destruct (newBreakpointProtocol (adapter w)) eqn:Ep.
        -- apply (wellFormed_suspend w run _ _ _ Hw Hr). cbn. done.
        -- apply (wellFormed_suspend w run _ _ _ Hw Hr). cbn.
           split; [done|]. now rewrite length_fmap.
      * now apply (wellFormed_faultRun w run _ [] Hw Hr).
    + unfold afterAdditionsNew. now apply (wellFormed_finishSync w run _ _ _ _ Hw Hr).
    + unfold afterAdditionsOld. now apply (wellFormed_finishSync w run _ _ _ _ Hw Hr).
Qed.

Lemma wellFormed_initial (this : SourceAdapter) : wellFormed (initialWorld this).
Proof.
  split; [now left|]. unfold coordinatorFits. cbn.
  destruct (newBreakpointProtocol this); [done|]. split; [discriminate | done].
Qed.

Lemma wellFormed_exec (events : list Event) (w w' : World) :
  wellFormed w → exec events w = Some w' → wellFormed w'.
Proof. intros Hw. apply exec_ind; [done|]. intros; eapply wellFormed_step; eauto. Qed.

Lemma wellFormed_reachable (w : World) : reachable w → wellFormed w.
Proof.
  apply reachable_ind; [intros; apply wellFormed_initial|].
  intros; eapply wellFormed_step; eauto.
Qed.

(** *** The events of a well-formed world, case by case *)

Ltac world_unfold :=
  unfold suspend, faultRun, settleRun, removeRun, setRuns, setCoordinator, emit,
    freshRun, setAdapter; cbn.

(** Starting a run with a pending set, none being suspended. *)
Definition started (D : list BreakpointInfo) (w : World) : World :=
  {| adapter := setDesiredBreakpoints None (setIsSyncingBreakpoints true (adapter w));
     queued := queued w; busy := busy w;
     runs := [(nextRun w,
               AwaitDeletions (Some D)
                 (breakpointsToKeep D (currentBreakpoints (adapter w)))
                 ((λ _, None) <$> breakpointsToDelete D (currentBreakpoints (adapter w))))];
     nextRun := S (nextRun w);
     trace := trace w ++ RunStarted (nextRun w) (Some D) ::
              imap (λ i b, DeleteIssued (nextRun w) i b)
                (breakpointsToDelete D (currentBreakpoints (adapter w))) |}.

(** Starting a run with no pending set and nothing installed. *)
Definition startedEmpty (w : World) : World :=
  {| adapter := setDesiredBreakpoints None (setIsSyncingBreakpoints true (adapter w));
     queued := queued w; busy := busy w;
     runs := [(nextRun w, AwaitDeletions None [] [])];
     nextRun := S (nextRun w);
     trace := trace w ++ [RunStarted (nextRun w) None] |}.

(** Starting a run with no pending set and something installed. *)
Definition startedFaulty (w : World) : World :=
  {| adapter := setDesiredBreakpoints None (setIsSyncingBreakpoints true (adapter w));
     queued := queued w; busy := false;
     runs := [];
     nextRun := S (nextRun w);
     trace := trace w ++ [RunStarted (nextRun w) None; RunFaulted (nextRun w)] |}.

Lemma syncBreakpoints_started (w : World) (D : list BreakpointInfo) :
  runs w = [] → desiredBreakpoints (adapter w) = Some D →
  syncBreakpoints w = started D w.
Proof.
  intros Hr Hd. unfold syncBreakpoints, started. rewrite Hd. world_unfold.
  rewrite Hr. cbn. rewrite <- app_assoc. reflexivity.
Qed.

Lemma syncBreakpoints_startedEmpty (w : World) :
  runs w = [] → desiredBreakpoints (adapter w) = None →
  currentBreakpoints (adapter w) = [] →
  syncBreakpoints w = startedEmpty w.
Proof.
  intros Hr Hd Hc. unfold syncBreakpoints, startedEmpty. rewrite Hd. world_unfold.
  rewrite Hc, Hr. cbn. rewrite app_nil_r. reflexivity.
Qed.

Lemma syncBreakpoints_startedFaulty (w : World) :
  runs w = [] → desiredBreakpoints (adapter w) = None →
  currentBreakpoints (adapter w) ≠ [] →
  syncBreakpoints w = startedFaulty w.
Proof.
  intros Hr Hd Hc. unfold syncBreakpoints, startedFaulty. rewrite Hd. cbn.
  destruct (currentBreakpoints (adapter w)); [done|]. world_unfold. rewrite Hr. cbn.
  rewrite <- app_assoc. reflexivity.
Qed.

(** The run [run] being the one suspended: what becomes of the world when it
    suspends again, faults, or finishes. *)
Definition suspended (run : nat) (f : Frame) (o : list Observation) (w : World) : World :=
  {| adapter := adapter w; queued := queued w; busy := busy w;
     runs := [(run, f)]; nextRun := nextRun w; trace := trace w ++ o |}.

Definition faulted (run : nat) (o : list Observation) (w : World) : World :=
  {| adapter := adapter w; queued := queued w; busy := false;
     runs := []; nextRun := nextRun w; trace := trace w ++ o ++ [RunFaulted run] |}.

(** The world at the end of a run, before [checkAndSyncBreakpoints]. *)
Definition merged (run : nat) (toKeep added : list BreakpointAdapter)
    (o : list Observation) (w : World) : World :=
  {| adapter := setIsSyncingBreakpoints false
                  (setCurrentBreakpoints (toKeep ++ added) (adapter w));
     queued := queued w; busy := false;
     runs := []; nextRun := nextRun w; trace := trace w ++ o ++ [RunFinished run] |}.

Lemma suspend_suspended (w : World) (run : nat) (f f' : Frame) (o : list Observation) :
  runs w = [(run, f)] → suspend run f' (emit o w) = suspended run f' o w.
Proof.
  intros Hr. unfold suspended. world_unfold. rewrite Hr. cbn.
  now rewrite bool_decide_true.
Qed.

Lemma faultRun_faulted (w : World) (run : nat) (f : Frame) (o : list Observation) :
  runs w = [(run, f)] → faultRun run (emit o w) = faulted run o w.
Proof.
  intros Hr. unfold faulted. world_unfold. rewrite Hr. cbn.
  rewrite bool_decide_true by done. cbn. now rewrite <- app_assoc.
Qed.

Lemma faultRun_faulted_nil (w : World) (run : nat) (f : Frame) :
  runs w = [(run, f)] → faultRun run w = faulted run [] w.
Proof.
  intros Hr. unfold faulted. world_unfold. rewrite Hr. cbn.
  now rewrite bool_decide_true.
Qed.

Lemma finishSync_merged (w : World) (run : nat) (f : Frame)
    (toKeep added : list BreakpointAdapter) (o : list Observation) :
  runs w = [(run, f)] →
  finishSync run toKeep added (emit o w) =
    checkAndSyncBreakpoints (merged run toKeep added o w).
Proof.
  intros Hr. unfold finishSync, merged. world_unfold. rewrite Hr. cbn.
  rewrite bool_decide_true by done. cbn. now rewrite <- app_assoc.
Qed.

(** [checkAndSyncBreakpoints] when no run is suspended. *)
Lemma checkAndSyncBreakpoints_cases (w : World) :
  runs w = [] →
  match desiredBreakpoints (adapter w), isSyncingBreakpoints (adapter w) with
  | Some D, false =>
      checkAndSyncBreakpoints w =
        if newBreakpointProtocol (adapter w) then started D w
        else setCoordinator (S (queued w)) (busy w) w
  | _, _ => checkAndSyncBreakpoints w = w
  end.
Proof.
  intros Hr. unfold checkAndSyncBreakpoints.
  destruct (desiredBreakpoints (adapter w)) as [D|] eqn:Hd; cbn; [|reflexivity].
  destruct (isSyncingBreakpoints (adapter w)); cbn; [reflexivity|].
  destruct (newBreakpointProtocol (adapter w)); [|reflexivity].
  now apply syncBreakpoints_started.
Qed.

(** The world after a run has finished: a set that became pending during
    the run starts the next run (new protocol) or queues it (legacy). *)
Definition finished (run : nat) (toKeep added : list BreakpointAdapter)
    (o : list Observation) (w : World) : World :=
  match desiredBreakpoints (adapter w) with
  | None => merged run toKeep added o w
  | Some D =>
      if newBreakpointProtocol (adapter w)
      then started D (merged run toKeep added o w)
      else setCoordinator (S (queued w)) false (merged run toKeep added o w)
  end.

Lemma checkAndSyncBreakpoints_merged (run : nat) (toKeep added : list BreakpointAdapter)
    (o : list Observation) (w : World) :
  checkAndSyncBreakpoints (merged run toKeep added o w) = finished run toKeep added o w.
Proof.
  pose proof (checkAndSyncBreakpoints_cases (merged run toKeep added o w) eq_refl) as H.
  unfold finished. cbn in H.
  destruct (desiredBreakpoints (adapter w)); exact H.
Qed.

Definition addedNew (toAdd : list BreakpointInfo) : list BreakpointAdapter :=
  (λ info, NewProtocolBreakpointAdapter
             (verifyBreakpoint info (actualLine info) (actualColumn info))) <$> toAdd.

Definition verifiedNew (toAdd : list BreakpointInfo) : list Observation :=
  (λ info, VerifyBreakpoint info (actualLine info) (actualColumn info)) <$> toAdd.

Definition addedOld (results : list SetBreakpointResult) (toAdd : list BreakpointInfo)
  : list BreakpointAdapter :=
  zip_with (λ r d, OldProtocolBreakpointAdapter
                     (verifyBreakpoint d (legacyActualLine d r) (legacyActualColumn d r))
                     (breakpointActor r)) results toAdd.

Definition verifiedOld (results : list SetBreakpointResult) (toAdd : list BreakpointInfo)
  : list Observation :=
  zip_with (λ r d, VerifyBreakpoint d (legacyActualLine d r) (legacyActualColumn d r))
    results toAdd.

Definition issuedOld (run : nat) (toAdd : list BreakpointInfo) : list Observation :=
  imap (λ i info, AddIssued run i
                    (SourceSetBreakpoint (line (requestedBreakpoint info))
                       (column (requestedBreakpoint info))
                       (condition (requestedBreakpoint info)))) toAdd.

Definition issuedNew (run : nat) (url : option string) (toAdd : list BreakpointInfo)
  : list Observation :=
  imap (λ i info, AddIssued run i
                    (ThreadSetBreakpoint (actualLine info) (actualColumn info) url
                       (condition (requestedBreakpoint info)) (logValue info))) toAdd.

(** Every event that can happen in a well-formed world, with the world it
    leads to. *)
Inductive Transition (w : World) : Event → World → Prop :=
| T_SubmitPending D :
    isSyncingBreakpoints (adapter w) = true →
    Transition w (Submit D) (setAdapter (setDesiredBreakpoints (Some D) (adapter w)) w)
| T_SubmitStart D :
    isSyncingBreakpoints (adapter w) = false →
    newBreakpointProtocol (adapter w) = true → runs w = [] →
    Transition w (Submit D)
      (started D (setAdapter (setDesiredBreakpoints (Some D) (adapter w)) w))
| T_SubmitQueue D :
    isSyncingBreakpoints (adapter w) = false →
    newBreakpointProtocol (adapter w) = false →
    Transition w (Submit D)
      (setCoordinator (S (queued w)) (busy w)
         (setAdapter (setDesiredBreakpoints (Some D) (adapter w)) w))
| T_CoordinatorStart n D :
    queued w = S n → busy w = false → runs w = [] →
    newBreakpointProtocol (adapter w) = false →
    desiredBreakpoints (adapter w) = Some D →
    Transition w CoordinatorRuns (started D (setCoordinator n true w))
| T_CoordinatorEmpty n :
    queued w = S n → busy w = false → runs w = [] →
    newBreakpointProtocol (adapter w) = false →
    desiredBreakpoints (adapter w) = None → currentBreakpoints (adapter w) = [] →
    Transition w CoordinatorRuns (startedEmpty (setCoordinator n true w))
| T_CoordinatorFaulty n :
    queued w = S n → busy w = false → runs w = [] →
    newBreakpointProtocol (adapter w) = false →
    desiredBreakpoints (adapter w) = None → currentBreakpoints (adapter w) ≠ [] →
    Transition w CoordinatorRuns (startedFaulty (setCoordinator n true w))
| T_DeletionOk run i d k ps ps' :
    runs w = [(run, AwaitDeletions d k ps)] → fulfil i () ps = Some ps' →
    Transition w (DeletionSettles run i true)
      (suspended run (AwaitDeletions d k ps') [DeleteSettled run i true] w)
| T_DeletionFailed run i d k ps :
    runs w = [(run, AwaitDeletions d k ps)] → isPending i ps = true →
    Transition w (DeletionSettles run i false)
      (faulted run [DeleteSettled run i false] w)
| T_DeletionsDoneNew run D k ps us :
    runs w = [(run, AwaitDeletions (Some D) k ps)] → allFulfilled ps = Some us →
    newBreakpointProtocol (adapter w) = true →
    Transition w (Continue run)
      (suspended run
         (AwaitBreakpointPositions k (breakpointsToAdd D (currentBreakpoints (adapter w))))
         [PositionsRequested run] w)
| T_DeletionsDoneOld run D k ps us :
    runs w = [(run, AwaitDeletions (Some D) k ps)] → allFulfilled ps = Some us →
    newBreakpointProtocol (adapter w) = false →
    Transition w (Continue run)
      (suspended run
         (AwaitAdditionsOld k (breakpointsToAdd D (currentBreakpoints (adapter w)))
            ((λ _, None) <$> breakpointsToAdd D (currentBreakpoints (adapter w))))
         (issuedOld run (breakpointsToAdd D (currentBreakpoints (adapter w)))) w)
| T_DeletionsDoneFault run k ps us :
    runs w = [(run, AwaitDeletions None k ps)] → allFulfilled ps = Some us →
    Transition w (Continue run) (faulted run [] w)
| T_PositionsOk run k a positions :
    runs w = [(run, AwaitBreakpointPositions k a)] →
    newBreakpointProtocol (adapter w) = true →
    Transition w (PositionsSettle run (Some positions))
      (suspended run
         (AwaitAdditionsNew k
            (resolveActualLocation findNextBreakpointPosition positions <$> a)
            ((λ _, None) <$>
               (resolveActualLocation findNextBreakpointPosition positions <$> a)))
         (issuedNew run (url (actor (adapter w)))
            (resolveActualLocation findNextBreakpointPosition positions <$> a)) w)
| T_PositionsFailed run k a :
    runs w = [(run, AwaitBreakpointPositions k a)] →
    Transition w (PositionsSettle run None) (faulted run [] w)
| T_AdditionNewOk run i k a ps ps' :
    runs w = [(run, AwaitAdditionsNew k a ps)] → fulfil i () ps = Some ps' →
    Transition w (AdditionSettlesNew run i true)
      (suspended run (AwaitAdditionsNew k a ps') [AddSettled run i true] w)
| T_AdditionNewFailed run i k a ps :
    runs w = [(run, AwaitAdditionsNew k a ps)] → isPending i ps = true →
    Transition w (AdditionSettlesNew run i false)
      (faulted run [AddSettled run i false] w)
| T_AdditionOldOk run i result k a ps ps' :
    runs w = [(run, AwaitAdditionsOld k a ps)] → fulfil i result ps = Some ps' →
    Transition w (AdditionSettlesOld run i (Some result))
      (suspended run (AwaitAdditionsOld k a ps') [AddSettled run i true] w)
| T_AdditionOldFailed run i k a ps :
    runs w = [(run, AwaitAdditionsOld k a ps)] → isPending i ps = true →
    Transition w (AdditionSettlesOld run i None)
      (faulted run [AddSettled run i false] w)
| T_FinishNew run k a ps us :
    runs w = [(run, AwaitAdditionsNew k a ps)] → allFulfilled ps = Some us →
    newBreakpointProtocol (adapter w) = true →
    Transition w (Continue run) (finished run k (addedNew a) (verifiedNew a) w)
| T_FinishOld run k a ps results :
    runs w = [(run, AwaitAdditionsOld k a ps)] → allFulfilled ps = Some results →
    newBreakpointProtocol (adapter w) = false → length ps = length a →
    Transition w (Continue run)
      (finished run k (addedOld results a) (verifiedOld results a) w).

Lemma step_Transition (w w' : World) (e : Event) :
  wellFormed w → step e w = Some w' → Transition w e w'.
Proof.
  intros Hw H. pose proof Hw as [Hs Hc]. destruct e; cbn in H.
  - injection H as <-. unfold updateBreakpoints.
    pose proof (checkAndSyncBreakpoints_cases
                  (setAdapter (setDesiredBreakpoints (Some breakpoints) (adapter w)) w)) as Hk.
    cbn in Hk. unfold checkAndSyncBreakpoints in *. cbn in *.
    destruct (isSyncingBreakpoints (adapter w)) eqn:Ef; cbn in *; [now constructor|].
    destruct (newBreakpointProtocol (adapter w)) eqn:Ep.
    + assert (runs w = []) as Hr
        by (destruct Hs as [Hr|(r & f & Hr & Hflag & _)]; [done | congruence]).
      rewrite (Hk Hr). now constructor.
    + now constructor.
  - destruct (queued w) as [|n] eqn:Eq; [done|]. destruct (busy w) eqn:Eb; [done|].
    injection H as <-. unfold coordinatorFits in Hc.
    destruct (newBreakpointProtocol (adapter w)) eqn:Ep; [lia|].
    assert (runs w = []) as Hr.
    { destruct (runs w); [done|]. exfalso. rewrite Eb in Hc.
      assert (false = true) as Habs by now apply Hc. discriminate. }
    destruct (desiredBreakpoints (adapter w)) as [D|] eqn:Ed.
    + rewrite (syncBreakpoints_started _ D) by done. now apply T_CoordinatorStart.
    + destruct (currentBreakpoints (adapter w)) as [|c cs] eqn:Ec.
      * rewrite syncBreakpoints_startedEmpty by done. now apply T_CoordinatorEmpty.
      * rewrite syncBreakpoints_startedFaulty by (cbn; congruence).
        apply T_CoordinatorFaulty; congruence.
  - destruct (lookupRun run w) as [[d k ps| | |]|] eqn:El; try done.
    destruct (lookupRun_inv w run _ Hs El) as (Hr & _).
    destruct ok.
    + destruct (fulfil i () ps) as [ps'|] eqn:Ef; [|done]. injection H as <-.
      rewrite (suspend_suspended w run _ _ _ Hr). econstructor; eauto.
    + destruct (isPending i ps) eqn:Ei; [|done]. injection H as <-.
      rewrite (faultRun_faulted w run _ _ Hr). econstructor; eauto.
  - destruct (lookupRun run w) as [[| k a | |]|] eqn:El; try done.
    destruct (lookupRun_inv w run _ Hs El) as (Hr & _ & _ & Hfit).
    injection H as <-. destruct positions as [positions|].
    + unfold afterBreakpointPositions.
      rewrite (suspend_suspended w run _ _ _ Hr). now constructor.
    + rewrite (faultRun_faulted_nil w run _ Hr). econstructor; eauto.
  - destruct (lookupRun run w) as [[| | k a ps |]|] eqn:El; try done.
    destruct (lookupRun_inv w run _ Hs El) as (Hr & _ & _ & Hfit & Hlen).
    destruct ok.
    + destruct (fulfil i () ps) as [ps'|] eqn:Ef; [|done]. injection H as <-.
      rewrite (suspend_suspended w run _ _ _ Hr). econstructor; eauto.
    + destruct (isPending i ps) eqn:Ei; [|done]. injection H as <-.
      rewrite (faultRun_faulted w run _ _ Hr). econstructor; eauto.
  - destruct (lookupRun run w) as [[| | | k a ps]|] eqn:El; try done.
    destruct (lookupRun_inv w run _ Hs El) as (Hr & _ & _ & Hfit & Hlen).
    destruct result as [result|].
    + destruct (fulfil i result ps) as [ps'|] eqn:Ef; [|done]. injection H as <-.
      rewrite (suspend_suspended w run _ _ _ Hr). econstructor; eauto.
    + destruct (isPending i ps) eqn:Ei; [|done]. injection H as <-.
      rewrite (faultRun_faulted w run _ _ Hr). econstructor; eauto.
  - destruct (lookupRun run w) as [[d k ps| | k a ps | k a ps]|] eqn:El; try done;
      destruct (lookupRun_inv w run _ Hs El) as (Hr & _ & _ & Hfit);
      destruct (allFulfilled ps) as [results|] eqn:Ea; try done; injection H as <-.
    + unfold afterDeletions. destruct d as [d|].
      * destruct (newBreakpointProtocol (adapter w)) eqn:Ep.
        -- rewrite (suspend_suspended w run _ _ _ Hr). econstructor; eauto.
        -- rewrite (suspend_suspended w run _ _ _ Hr). econstructor; eauto.
      * rewrite (faultRun_faulted_nil w run _ Hr). econstructor; eauto.
    + unfold afterAdditionsNew. rewrite (finishSync_merged w run _ _ _ _ Hr).
      rewrite checkAndSyncBreakpoints_merged. destruct Hfit. econstructor; eauto.
    + unfold afterAdditionsOld. rewrite (finishSync_merged w run _ _ _ _ Hr).
      rewrite checkAndSyncBreakpoints_merged. destruct Hfit. econstructor; eauto.
Qed.

(** *** A run converges on the set it captured *)

(** The frame of a run that reconciles towards [D], [current] being
    installed: it keeps what [D] requests and adds, or is about to add,
    descriptors with the keys of what [D] misses. *)
Definition planFor (D : list BreakpointInfo) (current : list BreakpointAdapter)
    (f : Frame) : Prop :=
  match f with
  | AwaitDeletions d k _ => d = Some D ∧ k = breakpointsToKeep D current
  | AwaitBreakpointPositions k a
  | AwaitAdditionsNew k a _
  | AwaitAdditionsOld k a _ =>
      k = breakpointsToKeep D current ∧
      desiredKeys a = desiredKeys (breakpointsToAdd D current)
  end.

(** The sets captured by the runs that started, oldest first. *)
Definition capture (o : Observation) : option (option (list BreakpointInfo)) :=
  match o with
  | RunStarted _ captured => Some captured
  | _ => None
  end.

Definition captures (t : list Observation) : list (option (list BreakpointInfo)) :=
  omap capture t.

(** A call that deletes or adds a breakpoint in Firefox. *)
Definition isOperation (o : Observation) : bool :=
  match o with
  | DeleteIssued _ _ _ | AddIssued _ _ _ => true
  | _ => false
  end.

Definition isSubmit (e : Event) : bool :=
  match e with
  | Submit _ => true
  | _ => false
  end.

(** The rejection of a promise. *)
Definition isFailure (e : Event) : bool :=
  match e with
  | DeletionSettles _ _ false | PositionsSettle _ None
  | AdditionSettlesNew _ _ false | AdditionSettlesOld _ _ None => true
  | _ => false
  end.

(** One run is suspended and reconciles towards [D]; nothing is pending. *)
Definition running (D : list BreakpointInfo) (q : nat) (w : World) : Prop :=
  wellFormed w ∧ desiredBreakpoints (adapter w) = None ∧ queued w = q ∧
  ∃ run f, runs w = [(run, f)] ∧ planFor D (currentBreakpoints (adapter w)) f.

(** No run is suspended, nothing is pending, the flag is clear and the
    installed set agrees with [D]. *)
Definition settledAt (D : list BreakpointInfo) (q : nat) (w : World) : Prop :=
  wellFormed w ∧ desiredBreakpoints (adapter w) = None ∧ queued w = q ∧
  runs w = [] ∧ isSyncingBreakpoints (adapter w) = false ∧
  inSync D (currentBreakpoints (adapter w)).

(** No run is suspended, nothing is queued and the flag is set: no run will
    start again. *)
Definition stuck (w : World) : Prop :=
  wellFormed w ∧ runs w = [] ∧ isSyncingBreakpoints (adapter w) = true ∧
  queued w = 0%nat.

Lemma captures_app (t1 t2 : list Observation) :
  captures (t1 ++ t2) = captures t1 ++ captures t2.
Proof. apply omap_app. Qed.

Lemma omap_fmap_none {A B C} (f : B → option C) (g : A → B) (l : list A) :
  (∀ x, f (g x) = None) → omap f (g <$> l) = [].
Proof. intros H. induction l as [|a l IH]; cbn; [reflexivity|]. now rewrite H. Qed.

Lemma omap_imap_none {A B C} (f : B → option C) (g : nat → A → B) (l : list A) :
  (∀ i x, f (g i x) = None) → omap f (imap g l) = [].
Proof.
  revert g. induction l as [|a l IH]; intros g H; cbn; [reflexivity|].
  rewrite H. apply IH. intros i x. apply H.
Qed.

Lemma omap_zip_with_none {A A' B C} (f : B → option C) (g : A → A' → B)
    (l : list A) (l' : list A') :
  (∀ x y, f (g x y) = None) → omap f (zip_with g l l') = [].
Proof.
  intros H. revert l'. induction l as [|a l IH]; intros [|a' l']; cbn; try reflexivity.
  now rewrite H.
Qed.

Lemma length_allFulfilled {A} (ps : list (option A)) (vs : list A) :
  allFulfilled ps = Some vs → length vs = length ps.
Proof.
  revert vs. induction ps as [|[v|] ps IH]; intros vs; cbn; try discriminate.
  - now intros [= <-].
  - destruct (allFulfilled ps) as [vs'|]; cbn; [|discriminate].
    intros [= <-]. cbn. f_equal. now apply IH.
Qed.

Lemma desiredKeys_resolve (positions : BreakpointPositions) (a : list BreakpointInfo) :
  desiredKeys (resolveActualLocation findNextBreakpointPosition positions <$> a)
  = desiredKeys a.
Proof.
  unfold desiredKeys. rewrite <- list_fmap_compose. apply list_fmap_ext. done.
Qed.

Lemma installedKeys_addedNew (a : list BreakpointInfo) :
  installedKeys (addedNew a) = desiredKeys a.
Proof.
  unfold installedKeys, addedNew, desiredKeys. rewrite <- list_fmap_compose.
  apply list_fmap_ext. done.
Qed.

Lemma installedKeys_addedOld (results : list SetBreakpointResult) (a : list BreakpointInfo) :
  length results = length a → installedKeys (addedOld results a) = desiredKeys a.
Proof.
  unfold installedKeys, addedOld, desiredKeys. revert a.
  induction results as [|r results IH]; intros [|d a]; cbn; try done.
  intros [= H]. f_equal. now apply IH.
Qed.

(** The observations of a transition of a suspended run that start no run. *)
Ltac no_capture :=
  unfold captures, issuedOld, issuedNew, verifiedNew, verifiedOld; cbn;
  rewrite ?omap_app; cbn;
  rewrite ?omap_imap_none, ?omap_fmap_none, ?omap_zip_with_none by done;
  first [reflexivity | done].

Ltac same_run Hr :=
  match goal with
  | H : runs ?w = [(_, _)] |- _ =>
      lazymatch H with
      | Hr => fail
      | _ => rewrite Hr in H; injection H as ? ?; subst
      end
  | H : runs ?w = [] |- _ => rewrite Hr in H; discriminate H
  end.

Lemma running_step (D : list BreakpointInfo) (q : nat) (w w' : World) (e : Event) :
  running D q w → step e w = Some w' → isSubmit e = false →
  ∃ o, trace w' = trace w ++ o ∧ captures o = [] ∧
       (running D q w' ∨ settledAt D q w' ∨
        (isFailure e = true ∧ (q = 0%nat → stuck w'))).
Proof.
  intros (Hw & Hd & Hq & run & f & Hr & Hp) Hs Hsub.
  pose proof (wellFormed_step w w' e Hw Hs) as Hw'.
  destruct (step_Transition w w' e Hw Hs); try (cbn in Hsub; discriminate Hsub);
    try same_run Hr; cbn in Hp; destruct Hp as [Hp1 Hp2].
  - eexists. split; [reflexivity|]. split; [no_capture|]. left.
    split; [done|]. split; [done|]. split; [done|]. eexists _, _. split; [reflexivity|]. done.
  - eexists. split; [reflexivity|]. split; [no_capture|]. right. right.
    split; [done|]. intros Hq0. split; [done|]. split; [reflexivity|]. cbn.
    split; [|done]. destruct Hw as [[?|(r & f & Hr' & Hf & _)] _]; congruence.
  - injection Hp1 as ->.
    eexists. split; [reflexivity|]. split; [no_capture|]. left.
    split; [done|]. split; [done|]. split; [done|]. eexists _, _. split; [reflexivity|]. done.
  - injection Hp1 as ->.
    eexists. split; [reflexivity|]. split; [no_capture|]. left.
    split; [done|]. split; [done|]. split; [done|]. eexists _, _. split; [reflexivity|]. done.
  - discriminate.
  - eexists. split; [reflexivity|]. split; [no_capture|]. left.
    split; [done|]. split; [done|]. split; [done|]. eexists _, _. split; [reflexivity|].
    cbn. split; [done|]. now rewrite desiredKeys_resolve.
  - eexists. split; [reflexivity|]. split; [no_capture|]. right. right.
    split; [done|]. intros Hq0. split; [done|]. split; [reflexivity|]. cbn.
    split; [|done]. destruct Hw as [[?|(r & f & Hr' & Hf & _)] _]; congruence.
  - eexists. split; [reflexivity|]. split; [no_capture|]. left.
    split; [done|]. split; [done|]. split; [done|]. eexists _, _. split; [reflexivity|]. done.
  - eexists. split; [reflexivity|]. split; [no_capture|]. right. right.
    split; [done|]. intros Hq0. split; [done|]. split; [reflexivity|]. cbn.
    split; [|done]. destruct Hw as [[?|(r & f & Hr' & Hf & _)] _]; congruence.
  - eexists. split; [reflexivity|]. split; [no_capture|]. left.
    split; [done|]. split; [done|]. split; [done|]. eexists _, _. split; [reflexivity|]. done.
  - eexists. split; [reflexivity|]. split; [no_capture|]. right. right.
    split; [done|]. intros Hq0. split; [done|]. split; [reflexivity|]. cbn.
    split; [|done]. destruct Hw as [[?|(r & f & Hr' & Hf & _)] _]; congruence.
  - unfold finished in *. rewrite Hd in *.
    eexists. split; [reflexivity|]. split; [no_capture|]. right. left.
    split; [done|]. split; [done|]. split; [done|]. split; [done|]. split; [done|].
    cbn. subst k. apply merge_inSync. now rewrite installedKeys_addedNew.
  - unfold finished in *. rewrite Hd in *.
    eexists. split; [reflexivity|]. split; [no_capture|]. right. left.
    split; [done|]. split; [done|]. split; [done|]. split; [done|]. split; [done|].
    cbn. subst k. apply merge_inSync. rewrite installedKeys_addedOld; [done|].
    erewrite length_allFulfilled by eassumption. done.
Qed.


(** Nothing in flight, nothing pending, nothing queued. *)
Definition idle (w : World) : Prop :=
  runs w = [] ∧ desiredBreakpoints (adapter w) = None ∧
  isSyncingBreakpoints (adapter w) = false ∧ queued w = 0%nat.

(** Legacy protocol: closures are queued for the set [D], none has run. *)
Definition waiting (D : list BreakpointInfo) (q : nat) (w : World) : Prop :=
  wellFormed w ∧ newBreakpointProtocol (adapter w) = false ∧
  runs w = [] ∧ isSyncingBreakpoints (adapter w) = false ∧
  desiredBreakpoints (adapter w) = Some D ∧ queued w = q.

(** The run of this frame captured a desired set when it started. *)
Definition hasCaptured (f : Frame) : Prop :=
  match f with
  | AwaitDeletions None _ _ => False
  | _ => True
  end.

(** A run is suspended and [D] became pending meanwhile. *)
Definition overtaken (D : list BreakpointInfo) (w : World) : Prop :=
  wellFormed w ∧ queued w = 0%nat ∧
  desiredBreakpoints (adapter w) = Some D ∧
  ∃ run f, runs w = [(run, f)] ∧ hasCaptured f.

(** A run was started with nothing pending while [D] was installed: it has
    faulted, or it will as soon as it continues. *)
Definition doomed (D : list BreakpointInfo) (w : World) : Prop :=
  wellFormed w ∧ desiredBreakpoints (adapter w) = None ∧
  isSyncingBreakpoints (adapter w) = true ∧ queued w = 0%nat ∧
  inSync D (currentBreakpoints (adapter w)) ∧
  (runs w = [] ∨ ∃ run, runs w = [(run, AwaitDeletions None [] [])]).

Lemma protocol_step (w w' : World) (e : Event) :
  wellFormed w → step e w = Some w' →
  newBreakpointProtocol (adapter w') = newBreakpointProtocol (adapter w).
Proof.
  intros Hw H. destruct (step_Transition w w' e Hw H); try reflexivity;
    unfold finished; repeat case_match; cbn; congruence.
Qed.

Lemma protocol_exec (events : list Event) (w w' : World) :
  wellFormed w → exec events w = Some w' →
  newBreakpointProtocol (adapter w') = newBreakpointProtocol (adapter w).
Proof.
  revert w. induction events as [|e rest IH]; intros w Hw; cbn.
  - now intros [= <-].
  - destruct (step e w) as [w1|] eqn:E; cbn; [|discriminate]. intros H.
    rewrite (IH w1 (wellFormed_step _ _ _ Hw E) H). eapply protocol_step; eauto.
Qed.

Ltac same_desired :=
  match goal with
  | H1 : desiredBreakpoints ?a = Some ?x, H2 : desiredBreakpoints ?a = Some ?y |- _ =>
      rewrite H1 in H2; injection H2 as ?; subst
  end.

Ltac rew_protocol :=
  match goal with
  | H : newBreakpointProtocol (adapter ?w) = _ |- _ => rewrite H in *
  end.

(** A first submission to an idle adapter. *)
Lemma idle_submit (D : list BreakpointInfo) (w w' : World) :
  wellFormed w → idle w → step (Submit D) w = Some w' →
  ∃ o, trace w' = trace w ++ o ∧
    if newBreakpointProtocol (adapter w)
    then running D 0 w' ∧ captures o = [Some D]
    else waiting D 1 w' ∧ o = [].
Proof.
  intros Hw (Hr & Hd & Hf & Hq) H.
  pose proof (wellFormed_step w w' _ Hw H) as Hw'.
  pose proof (protocol_step w w' _ Hw H) as Hp.
  pose proof (step_Transition w w' _ Hw H) as Ht.
  inversion Ht; subst; try congruence.
  - rew_protocol. eexists. split; [reflexivity|]. split.
    + split; [done|]. split; [done|]. split; [done|].
      eexists _, _. split; [reflexivity|]. done.
    + cbn. no_capture.
  - rew_protocol. exists []. split; [cbn; now rewrite app_nil_r|]. split; [|done].
    split; [done|]. split; [done|]. cbn. rewrite Hq. done.
Qed.

(** A second submission while the closure of the first is still queued. *)
Lemma waiting_submit (D D' : list BreakpointInfo) (q : nat) (w w' : World) :
  waiting D q w → step (Submit D') w = Some w' →
  waiting D' (S q) w' ∧ trace w' = trace w.
Proof.
  intros (Hw & Hp & Hr & Hf & Hd & Hq) H.
  pose proof (wellFormed_step w w' _ Hw H) as Hw'.
  pose proof (step_Transition w w' _ Hw H) as Ht.
  inversion Ht; subst; try congruence.
  split; [|done]. split; [done|]. done.
Qed.

(** A second submission while the run of the first is suspended. *)
Lemma running_submit (D D' : list BreakpointInfo) (w w' : World) :
  running D 0 w → step (Submit D') w = Some w' →
  overtaken D' w' ∧ trace w' = trace w.
Proof.
  intros (Hw & Hd & Hq & run & f & Hr & Hplan) H.
  pose proof (wellFormed_step w w' _ Hw H) as Hw'.
  pose proof (step_Transition w w' _ Hw H) as Ht.
  assert (isSyncingBreakpoints (adapter w) = true) as Hf
    by (destruct Hw as [[?|(r & f' & Hr' & Hf & _)] _]; congruence).
  inversion Ht; subst; try congruence.
  split; [|done]. split; [done|]. split; [done|]. split; [done|].
  exists run, f. split; [done|]. destruct f as [[d|] k ps| | |]; try exact I.
  cbn in Hplan. now destruct Hplan.
Qed.

Lemma waiting_step (D : list BreakpointInfo) (q : nat) (w w' : World) (e : Event) :
  waiting D (S q) w → step e w = Some w' → isSubmit e = false →
  ∃ o, trace w' = trace w ++ o ∧ captures o = [Some D] ∧ running D q w'.
Proof.
  intros (Hw & Hp & Hr & Hf & Hd & Hq) H Hsub.
  pose proof (wellFormed_step w w' _ Hw H) as Hw'.
  destruct (step_Transition w w' _ Hw H); try (cbn in Hsub; discriminate Hsub);
    try congruence.
  same_desired.
  eexists. split; [reflexivity|]. split; [cbn; no_capture|].
  split; [done|]. split; [done|]. split; [cbn; congruence|].
  eexists _, _. split; [reflexivity|]. done.
Qed.

Lemma overtaken_step (D : list BreakpointInfo) (w w' : World) (e : Event) :
  overtaken D w → step e w = Some w' → isSubmit e = false → isFailure e = false →
  ∃ o, trace w' = trace w ++ o ∧
       ((overtaken D w' ∧ captures o = []) ∨
        (running D 0 w' ∧ captures o = [Some D]) ∨
        (waiting D 1 w' ∧ captures o = [])).
Proof.
  intros (Hw & Hq & Hd & run & f & Hr & Hcap) H Hsub Hfail.
  pose proof (wellFormed_step w w' _ Hw H) as Hw'.
  destruct (step_Transition w w' _ Hw H); try (cbn in Hsub; discriminate Hsub);
    try (cbn in Hfail; discriminate Hfail); try same_run Hr; try congruence.
  all: try (exfalso; exact Hcap).
  all: try (eexists; split; [reflexivity|]; left; split; [|no_capture];
            split; [done|]; split; [done|]; split; [done|];
            eexists _, _; split; [reflexivity|]; first [exact Hcap | exact I]).
  - unfold finished in *. rewrite Hd in *. rew_protocol.
    eexists. split; [cbn; rewrite <- app_assoc; reflexivity|]. right. left. split.
    + split; [done|]. split; [done|]. split; [done|].
      eexists _, _. split; [reflexivity|]. done.
    + rewrite !captures_app. cbn. no_capture.
  - unfold finished in *. rewrite Hd in *. rew_protocol.
    eexists. split; [reflexivity|]. right. right. split; [|no_capture].
    split; [done|]. split; [done|]. split; [done|]. split; [done|].
    split; [done|]. cbn. now rewrite Hq.
Qed.

(** Legacy protocol: the coordinator runs a closure that was queued for a
    set which an earlier run has already consumed. *)
Lemma settled_step (D : list BreakpointInfo) (w w' : World) (e : Event) :
  settledAt D 1 w → step e w = Some w' → isSubmit e = false →
  ∃ o, trace w' = trace w ++ o ∧ captures o = [None] ∧ doomed D w'.
Proof.
  intros (Hw & Hd & Hq & Hr & Hf & Hsync) H Hsub.
  pose proof (wellFormed_step w w' _ Hw H) as Hw'.
  destruct (step_Transition w w' _ Hw H); try (cbn in Hsub; discriminate Hsub);
    try congruence.
  - eexists. split; [reflexivity|]. split; [done|].
    split; [done|]. split; [done|]. split; [done|]. split; [cbn; congruence|].
    split; [done|]. right. eauto.
  - eexists. split; [reflexivity|]. split; [done|].
    split; [done|]. split; [done|]. split; [done|]. split; [cbn; congruence|].
    split; [done|]. now left.
Qed.

Lemma doomed_step (D : list BreakpointInfo) (w w' : World) (e : Event) :
  doomed D w → step e w = Some w' → isSubmit e = false →
  ∃ o, trace w' = trace w ++ o ∧ captures o = [] ∧ doomed D w' ∧ runs w' = [].
Proof.
  intros (Hw & Hd & Hf & Hq & Hsync & Hr) H Hsub.
  pose proof (wellFormed_step w w' _ Hw H) as Hw'.
  destruct (step_Transition w w' _ Hw H); try (cbn in Hsub; discriminate Hsub);
    try congruence; destruct Hr as [Hr|[r Hr]]; try congruence; try same_run Hr.
  - unfold fulfil in *. done.
  - unfold isPending in *. done.
  - eexists. split; [reflexivity|]. split; [done|]. split; [|done].
    split; [done|]. split; [done|]. split; [done|]. split; [done|]. split; [done|].
    now left.
Qed.

(** With nothing queued, only a submission can wake a settled adapter. *)
Lemma settled_quiet (D : list BreakpointInfo) (w : World) (e : Event) :
  settledAt D 0 w → isSubmit e = false → step e w = None.
Proof.
  intros (Hw & Hd & Hq & Hr & Hf & Hsync) Hsub.
  destruct (step e w) as [w'|] eqn:H; [|done]. exfalso.
  destruct (step_Transition w w' _ Hw H); try (cbn in Hsub; discriminate Hsub);
    congruence.
Qed.

(** *** Two submissions in a row *)

(** Events among which nothing is submitted and no promise is rejected. *)
Definition calm (events : list Event) : Prop :=
  Forall (λ e, isSubmit e = false ∧ isFailure e = false) events.

(** The second set [D2] arrived while the run for [D1] was suspended:
    that run goes on, then one run captures [D2] and the adapter settles. *)
Definition superseding (D1 D2 : list BreakpointInfo)
    (t : list Observation) (w : World) : Prop :=
  (overtaken D2 w ∧ captures t = [Some D1]) ∨
  (waiting D2 1 w ∧ captures t = [Some D1]) ∨
  (running D2 0 w ∧ captures t = [Some D1; Some D2]) ∨
  (settledAt D2 0 w ∧ captures t = [Some D1; Some D2]).

Lemma superseding_exec (D1 D2 : list BreakpointInfo) (t0 : list Observation)
    (rest : list Event) :
  calm rest → ∀ w t w',
  trace w = t0 ++ t → superseding D1 D2 t w → exec rest w = Some w' →
  ∃ t', trace w' = t0 ++ t' ∧ superseding D1 D2 t' w'.
Proof.
  induction 1 as [|e rest [Hsub Hfail] Hcalm IH]; intros w t w' Ht Hphase; cbn.
  - intros [= <-]. eauto.
  - destruct (step e w) as [w1|] eqn:Hs; cbn; [|discriminate]. intros Hex.
    assert (∃ t1, trace w1 = t0 ++ t1 ∧ superseding D1 D2 t1 w1) as (t1 & Ht1 & Hp1);
      [|eapply IH; eauto].
    destruct Hphase as [[Hph Hc]|[[Hph Hc]|[[Hph Hc]|[Hph Hc]]]].
    + destruct (overtaken_step D2 w w1 e Hph Hs Hsub Hfail)
        as (o & Ho & [[Hn Hco]|[[Hn Hco]|[Hn Hco]]]);
        exists (t ++ o); (split; [rewrite Ho, Ht, app_assoc; reflexivity|]);
        unfold superseding; rewrite captures_app, Hc, Hco; cbn; auto.
    + destruct (waiting_step D2 0 w w1 e Hph Hs Hsub) as (o & Ho & Hco & Hn).
      exists (t ++ o). split; [rewrite Ho, Ht, app_assoc; reflexivity|].
      unfold superseding. rewrite captures_app, Hc, Hco. cbn. auto.
    + destruct (running_step D2 0 w w1 e Hph Hs Hsub) as (o & Ho & Hco & Hn).
      exists (t ++ o). split; [rewrite Ho, Ht, app_assoc; reflexivity|].
      unfold superseding. rewrite captures_app, Hc, Hco, app_nil_r.
      destruct Hn as [Hn|[Hn|[Hn _]]]; [auto | auto | congruence].
    + rewrite (settled_quiet D2 w e Hph Hsub) in Hs. discriminate.
Qed.

(** Legacy protocol, both sets submitted before the coordinator ran the
    first closure: the first run captures [D2], the second closure finds
    nothing pending. *)
Definition deferred (D2 : list BreakpointInfo)
    (t : list Observation) (w : World) : Prop :=
  (waiting D2 2 w ∧ captures t = []) ∨
  (running D2 1 w ∧ captures t = [Some D2]) ∨
  (settledAt D2 1 w ∧ captures t = [Some D2]) ∨
  (doomed D2 w ∧ captures t = [Some D2; None]).

Lemma deferred_exec (D2 : list BreakpointInfo) (t0 : list Observation)
    (rest : list Event) :
  calm rest → ∀ w t w',
  trace w = t0 ++ t → deferred D2 t w → exec rest w = Some w' →
  ∃ t', trace w' = t0 ++ t' ∧ deferred D2 t' w'.
Proof.
  induction 1 as [|e rest [Hsub Hfail] Hcalm IH]; intros w t w' Ht Hphase; cbn.
  - intros [= <-]. eauto.
  - destruct (step e w) as [w1|] eqn:Hs; cbn; [|discriminate]. intros Hex.
    assert (∃ t1, trace w1 = t0 ++ t1 ∧ deferred D2 t1 w1) as (t1 & Ht1 & Hp1);
      [|eapply IH; eauto].
    destruct Hphase as [[Hph Hc]|[[Hph Hc]|[[Hph Hc]|[Hph Hc]]]].
    + destruct (waiting_step D2 1 w w1 e Hph Hs Hsub) as (o & Ho & Hco & Hn).
      exists (t ++ o). split; [rewrite Ho, Ht, app_assoc; reflexivity|].
      unfold deferred. rewrite captures_app, Hc, Hco. cbn. auto.
    + destruct (running_step D2 1 w w1 e Hph Hs Hsub) as (o & Ho & Hco & Hn).
      exists (t ++ o). split; [rewrite Ho, Ht, app_assoc; reflexivity|].
      unfold deferred. rewrite captures_app, Hc, Hco, app_nil_r.
      destruct Hn as [Hn|[Hn|[Hn _]]]; [auto | auto | congruence].
    + destruct (settled_step D2 w w1 e Hph Hs Hsub) as (o & Ho & Hco & Hn).
      exists (t ++ o). split; [rewrite Ho, Ht, app_assoc; reflexivity|].
      unfold deferred. rewrite captures_app, Hc, Hco. cbn. auto 6.
    + destruct (doomed_step D2 w w1 e Hph Hs Hsub) as (o & Ho & Hco & Hn & _).
      exists (t ++ o). split; [rewrite Ho, Ht, app_assoc; reflexivity|].
      unfold deferred. rewrite captures_app, Hc, Hco, app_nil_r. auto 6.
Qed.



(** *** Submitting the same set again *)

Lemma stuck_quiet (w : World) (e : Event) :
  stuck w → isSubmit e = false → step e w = None.
Proof.
  intros (Hw & Hr & Hf & Hq) Hsub.
  destruct (step e w) as [w'|] eqn:H; [|done]. exfalso.
  destruct (step_Transition w w' _ Hw H); try (cbn in Hsub; discriminate Hsub);
    congruence.
Qed.

(** One submission to an idle adapter, and what follows without another. *)
Definition reconciling (D : list BreakpointInfo) (w : World) : Prop :=
  waiting D 1 w ∨ running D 0 w ∨ settledAt D 0 w ∨ stuck w.

Lemma reconciling_exec (D : list BreakpointInfo) (events : list Event) :
  Forall (λ e, isSubmit e = false) events → ∀ w w',
  reconciling D w → exec events w = Some w' → reconciling D w'.
Proof.
  induction 1 as [|e rest Hsub Hrest IH]; intros w w' Hphase.
  - cbn. now intros [= <-].
  - intros (w1 & Hs & Hex)%exec_cons. apply (IH w1); [|exact Hex].
    destruct Hphase as [Hph|[Hph|[Hph|Hph]]].
    + destruct (waiting_step D 0 w w1 e Hph Hs Hsub) as (o & _ & _ & Hn).
      right. now left.
    + destruct (running_step D 0 w w1 e Hph Hs Hsub) as (o & _ & _ & Hn).
      destruct Hn as [Hn|[Hn|[_ Hn]]].
      * right. now left.
      * right. right. now left.
      * right. right. right. now apply Hn.
    + rewrite (settled_quiet D w e Hph Hsub) in Hs. discriminate.
    + rewrite (stuck_quiet w e Hph Hsub) in Hs. discriminate.
Qed.

(** After the reconciliation of one submission has completed, the installed
    set agrees with the submitted set. *)
Lemma reconciled (D : list BreakpointInfo) (events : list Event) (w0 w1 : World) :
  wellFormed w0 → idle w0 → Forall (λ e, isSubmit e = false) events →
  exec (Submit D :: events) w0 = Some w1 → idle w1 →
  settledAt D 0 w1.
Proof.
  intros Hw0 Hidle Hsub (w & Hs & Hex)%exec_cons (Hr & Hd & Hf & Hq).
  destruct (idle_submit D w0 w Hw0 Hidle Hs) as (o & _ & Hn).
  assert (reconciling D w) as Hph.
  { destruct (newBreakpointProtocol (adapter w0)); destruct Hn as [Hn _];
      [right; now left | now left]. }
  destruct (reconciling_exec D events Hsub w w1 Hph Hex) as [Hn1|[Hn1|[Hn1|Hn1]]].
  - destruct Hn1 as (_ & _ & _ & _ & Hd' & _). congruence.
  - destruct Hn1 as (_ & _ & _ & r & f & Hr' & _). congruence.
  - exact Hn1.
  - destruct Hn1 as (_ & _ & Hf' & _). congruence.
Qed.

(** A run that has nothing to delete and nothing to add. *)
Definition effortlessFrame (D : list BreakpointInfo)
    (current : list BreakpointAdapter) (f : Frame) : Prop :=
  match f with
  | AwaitDeletions d k ps => (d = None ∨ d = Some D) ∧ k = current ∧ ps = []
  | AwaitBreakpointPositions k a => k = current ∧ a = []
  | AwaitAdditionsNew k a ps => k = current ∧ a = [] ∧ ps = []
  | AwaitAdditionsOld k a ps => k = current ∧ a = [] ∧ ps = []
  end.

(** The installed set agrees with [D], and [D] is all that is pending or
    being reconciled. *)
Definition effortless (D : list BreakpointInfo) (w : World) : Prop :=
  wellFormed w ∧ inSync D (currentBreakpoints (adapter w)) ∧
  (desiredBreakpoints (adapter w) = None ∨ desiredBreakpoints (adapter w) = Some D) ∧
  (∀ run f, runs w = [(run, f)] →
            effortlessFrame D (currentBreakpoints (adapter w)) f).

Definition noOperation (t : list Observation) : Prop :=
  Forall (λ o, isOperation o = false) t.

Lemma effortless_started (D : list BreakpointInfo) (w : World) :
  inSync D (currentBreakpoints (adapter w)) →
  started D w = suspended (nextRun w)
                  (AwaitDeletions (Some D) (currentBreakpoints (adapter w)) [])
                  [RunStarted (nextRun w) (Some D)]
                  {| adapter := setDesiredBreakpoints None
                                  (setIsSyncingBreakpoints true (adapter w));
                     queued := queued w; busy := busy w; runs := runs w;
                     nextRun := S (nextRun w); trace := trace w |}.
Proof.
  intros Hsync. unfold started, suspended. cbn.
  rewrite (inSync_keep_all D _ Hsync).
  apply inSync_nothing_to_do in Hsync as [-> _]. reflexivity.
Qed.

Lemma effortless_step (D : list BreakpointInfo) (w w' : World) (e : Event) :
  effortless D w → step e w = Some w' → isSubmit e = false ∨ e = Submit D →
  ∃ o, trace w' = trace w ++ o ∧ noOperation o ∧ effortless D w'.
Proof.
  intros (Hw & Hsync & Hd & Hruns) Hs He.
  pose proof (wellFormed_step w w' e Hw Hs) as Hw'.
  pose proof (proj1 (inSync_nothing_to_do D _) Hsync) as [Hdel Hadd].
  pose proof (inSync_keep_all D _ Hsync) as Hkeep.
  destruct (step_Transition w w' e Hw Hs);
    try (destruct He as [He|He]; [cbn in He; discriminate He | injection He as ->]);
    try (destruct He as [He|He]; [clear He | discriminate He]).
  - exists []. split; [cbn; now rewrite app_nil_r|]. split; [constructor|].
    split; [done|]. split; [done|]. split; [now right|]. exact Hruns.
  - rewrite effortless_started in * by done.
    eexists. split; [reflexivity|]. split; [repeat constructor|].
    split; [done|]. split; [done|]. split; [now left|].
    intros r f [= <- <-]. cbn. auto.
  - exists []. split; [cbn; now rewrite app_nil_r|]. split; [constructor|].
    split; [done|]. split; [done|]. split; [now right|]. exact Hruns.
  - assert (D0 = D) as -> by (destruct Hd; congruence).
    rewrite effortless_started in * by done.
    eexists. split; [reflexivity|]. split; [repeat constructor|].
    split; [done|]. split; [done|]. split; [now left|].
    intros r f [= <- <-]. cbn. auto.
  - eexists. split; [reflexivity|]. split; [repeat constructor|].
    split; [done|]. split; [done|]. split; [now left|].
    intros r f [= <- <-]. cbn. auto.
  - eexists. split; [reflexivity|]. split; [repeat constructor|].
    split; [done|]. split; [done|]. split; [now left|]. intros r f [=].
  - destruct (Hruns _ _ H) as (_ & _ & ->). discriminate.
  - destruct (Hruns _ _ H) as (_ & _ & ->). discriminate.
  - destruct (Hruns _ _ H) as ([?| [= ->]] & -> & ->); [done|].
    rewrite Hadd in *.
    eexists. split; [reflexivity|]. split; [repeat constructor|].
    split; [done|]. split; [done|]. split; [done|].
    intros r f [= <- <-]. cbn. auto.
  - destruct (Hruns _ _ H) as ([?| [= ->]] & -> & ->); [done|].
    rewrite Hadd in *.
    eexists. split; [reflexivity|]. split; [constructor|].
    split; [done|]. split; [done|]. split; [done|].
    intros r f [= <- <-]. cbn. auto.
  - eexists. split; [reflexivity|]. split; [repeat constructor|].
    split; [done|]. split; [done|]. split; [done|]. intros r f [=].
  - destruct (Hruns _ _ H) as (-> & ->).
    eexists. split; [reflexivity|]. split; [constructor|].
    split; [done|]. split; [done|]. split; [done|].
    intros r f [= <- <-]. cbn. auto.
  - eexists. split; [reflexivity|]. split; [repeat constructor|].
    split; [done|]. split; [done|]. split; [done|]. intros r f [=].
  - destruct (Hruns _ _ H) as (_ & _ & ->). discriminate.
  - destruct (Hruns _ _ H) as (_ & _ & ->). discriminate.
  - destruct (Hruns _ _ H) as (_ & _ & ->). discriminate.
  - destruct (Hruns _ _ H) as (_ & _ & ->). discriminate.
  - destruct (Hruns _ _ H) as (-> & -> & ->). unfold finished in *.
    assert (inSync D (currentBreakpoints (adapter w) ++ addedNew [])) as Hsync'
      by (cbn; now rewrite app_nil_r).
    destruct Hd as [Hd|Hd]; rewrite Hd in *.
    + eexists. split; [reflexivity|]. split; [repeat constructor|].
      split; [done|]. split; [done|]. split; [now left|]. intros r f [=].
    + rew_protocol. rewrite effortless_started in * by done.
      eexists. split; [cbn; rewrite <- app_assoc; reflexivity|].
      split; [repeat constructor|].
      split; [done|]. split; [done|]. split; [now left|].
      intros r f [= <- <-]. cbn. auto.
  - destruct (Hruns _ _ H) as (-> & -> & ->). unfold finished in *.
    assert (inSync D (currentBreakpoints (adapter w) ++ addedOld results [])) as Hsync'
      by (unfold addedOld; rewrite zip_with_nil_r, app_nil_r; done).
    destruct Hd as [Hd|Hd]; rewrite Hd in *.
    + eexists. split; [reflexivity|].
      split; [unfold verifiedOld; rewrite zip_with_nil_r; repeat constructor|].
      split; [done|]. split; [done|]. split; [now left|]. intros r f [=].
    + rew_protocol.
      eexists. split; [reflexivity|].
      split; [unfold verifiedOld; rewrite zip_with_nil_r; repeat constructor|].
      split; [done|]. split; [done|]. split; [now right|]. intros r f [=].
Qed.

Lemma effortless_exec (D : list BreakpointInfo) (events : list Event) :
  Forall (λ e, isSubmit e = false ∨ e = Submit D) events → ∀ w w',
  effortless D w → exec events w = Some w' →
  ∃ t, trace w' = trace w ++ t ∧ noOperation t ∧ effortless D w'.
Proof.
  induction 1 as [|e rest He Hrest IH]; intros w w' Hph.
  - cbn. intros [= <-]. exists []. rewrite app_nil_r. split; [done|].
    split; [constructor | done].
  - intros (w1 & Hs & Hex)%exec_cons.
    destruct (effortless_step D w w1 e Hph Hs He) as (o & Ho & Hno & Hph1).
    destruct (IH w1 w' Hph1 Hex) as (t & Ht & Hnt & Hph').
    exists (o ++ t). split; [rewrite Ht, Ho, app_assoc; reflexivity|].
    split; [now apply Forall_app | done].
Qed.

(** C4. Idempotence. A set is submitted to an idle adapter and its
    reconciliation completes, so that the adapter is idle again: then the
    installed set agrees with the submitted one (every installed breakpoint
    has an equivalent desired one and conversely), and submitting the same
    set again (descriptors with the same keys) makes the next run issue no
    deletion and no addition, whatever happens until the next submission. *)
Theorem reconciliation_idempotent (w0 w1 w2 : World) (D D' : list BreakpointInfo)
    (events1 events2 : list Event) :
  reachable w0 → idle w0 →
  Forall (λ e, isSubmit e = false) events1 →
  exec (Submit D :: events1) w0 = Some w1 → idle w1 →
  desiredKeys D' = desiredKeys D →
  Forall (λ e, isSubmit e = false) events2 →
  exec (Submit D' :: events2) w1 = Some w2 →
  inSync D (currentBreakpoints (adapter w1)) ∧
  breakpointsToDelete D' (currentBreakpoints (adapter w1)) = [] ∧
  breakpointsToAdd D' (currentBreakpoints (adapter w1)) = [] ∧
  ∃ t, trace w2 = trace w1 ++ t ∧ noOperation t.
Proof.
  intros Hreach Hidle0 Hsub1 Hex1 Hidle1 Hkeys Hsub2 Hex2.
  pose proof (wellFormed_reachable w0 Hreach) as Hw0.
  destruct (reconciled D events1 w0 w1 Hw0 Hidle0 Hsub1 Hex1 Hidle1)
    as (Hw1 & Hd1 & Hq1 & Hr1 & Hf1 & Hsync).
  pose proof (inSync_same_keys D D' _ Hkeys Hsync) as Hsync'.
  split; [exact Hsync|].
  destruct (proj1 (inSync_nothing_to_do D' _) Hsync') as [Hdel Hadd].
  split; [exact Hdel|]. split; [exact Hadd|].
  assert (effortless D' w1) as Hph.
  { split; [done|]. split; [done|]. split; [now left|]. intros r f. rewrite Hr1. done. }
  destruct (effortless_exec D' (Submit D' :: events2)) with (w := w1) (w' := w2)
    as (t & Ht & Hno & _); [|done|done|eauto].
  constructor; [now right|]. eapply Forall_impl; [exact Hsub2|]. cbn. auto.
Qed.

(** *** One installed breakpoint per equivalence key *)

Lemma NoDup_fmap_filter {A B} (g : A → B) (f : A → bool) (l : list A) :
  NoDup (g <$> l) → NoDup (g <$> List.filter f l).
Proof.
  induction l as [|a l IH]; cbn; [done|]. intros [Hn Hd]%NoDup_cons.
  destruct (f a); cbn; [|auto]. apply NoDup_cons. split; [|auto].
  intros Hin. apply Hn. apply list_elem_of_In, in_map_iff.
  apply list_elem_of_In, in_map_iff in Hin as (x & Hx & Hin).
  apply filter_In in Hin as [Hin _]. eauto.
Qed.

Lemma merge_NoDup (D : list BreakpointInfo) (current added : list BreakpointAdapter) :
  NoDup (installedKeys current) → NoDup (desiredKeys D) →
  installedKeys added = desiredKeys (breakpointsToAdd D current) →
  NoDup (installedKeys (breakpointsToKeep D current ++ added)).
Proof.
  intros Hc Hd Ha. rewrite installedKeys_app, Ha. apply NoDup_app.
  split; [|split].
  - now apply NoDup_fmap_filter.
  - intros k [Hk _]%list_elem_of_In%installedKeys_keep
      [_ Hn]%list_elem_of_In%desiredKeys_add. contradiction.
  - now apply NoDup_fmap_filter.
Qed.

(** The submitted sets hold no two equivalent descriptors. *)
Definition submitsUnique (e : Event) : Prop :=
  match e with
  | Submit D => NoDup (desiredKeys D)
  | _ => True
  end.

Definition uniqueFrame (current : list BreakpointAdapter) (f : Frame) : Prop :=
  (∃ k ps, f = AwaitDeletions None k ps) ∨
  (∃ D, NoDup (desiredKeys D) ∧ planFor D current f).

Definition uniqueKeys (w : World) : Prop :=
  wellFormed w ∧ NoDup (installedKeys (currentBreakpoints (adapter w))) ∧
  (∀ D, desiredBreakpoints (adapter w) = Some D → NoDup (desiredKeys D)) ∧
  (∀ run f, runs w = [(run, f)] → uniqueFrame (currentBreakpoints (adapter w)) f).

Ltac unique_frame Hruns :=
  match goal with
  | H : runs ?w = [(_, _)] |- _ =>
      let D0 := fresh "D0" in
      let HD0 := fresh "HD0" in
      let Hp1 := fresh "Hp1" in
      let Hp2 := fresh "Hp2" in
      destruct (Hruns _ _ H) as [(? & ? & Hf)|(D0 & HD0 & Hplan)];
      [try discriminate Hf | cbn in Hplan; destruct Hplan as [Hp1 Hp2]]
  end.

Ltac unique_idle :=
  split; [done|]; split; [done|]; split; [done|]; intros ? ? [=].

Ltac unique_suspended D0 :=
  split; [done|]; split; [done|]; split; [done|]; intros ? ? [= <- <-];
  right; exists D0; split; [done|]; cbn; rewrite ?desiredKeys_resolve; done.

Lemma uniqueKeys_step (w w' : World) (e : Event) :
  uniqueKeys w → submitsUnique e → step e w = Some w' → uniqueKeys w'.
Proof.
  intros (Hw & Hcur & Hd & Hruns) He Hs.
  pose proof (wellFormed_step w w' e Hw Hs) as Hw'.
  destruct (step_Transition w w' e Hw Hs); cbn in He.
  - split; [done|]. split; [done|]. split; [|exact Hruns]. cbn. now intros ? [= <-].
  - split; [done|]. split; [done|]. split; [done|]. intros r f [= <- <-].
    right. exists D. done.
  - split; [done|]. split; [done|]. split; [|exact Hruns]. cbn. now intros ? [= <-].
  - split; [done|]. split; [done|]. split; [done|]. intros r f [= <- <-].
    right. exists D. split; [auto|done].
  - split; [done|]. split; [done|]. split; [done|]. intros r f [= <- <-]. left. eauto.
  - unique_idle.
  - unique_frame Hruns.
    + split; [done|]. split; [done|]. split; [done|]. intros ? ? [= <- <-].
      left. injection Hf as -> _ _. eauto.
    + unique_suspended D0.
  - unique_idle.
  - unique_frame Hruns. injection Hp1 as ->. unique_suspended D0.
  - unique_frame Hruns. injection Hp1 as ->. unique_suspended D0.
  - unique_idle.
  - unique_frame Hruns. unique_suspended D0.
  - unique_idle.
  - unique_frame Hruns. unique_suspended D0.
  - unique_idle.
  - unique_frame Hruns. unique_suspended D0.
  - unique_idle.
  - unique_frame Hruns.
    assert (NoDup (installedKeys (k ++ addedNew a))) as Hcur'
      by (subst k; apply merge_NoDup; [done | done | now rewrite installedKeys_addedNew]).
    unfold finished in *. destruct (desiredBreakpoints (adapter w)) as [D2|] eqn:Hd2.
    + destruct (newBreakpointProtocol (adapter w)).
      * split; [done|]. split; [done|]. split; [done|]. intros r f [= <- <-].
        right. exists D2. split; [auto|done].
      * split; [done|]. split; [done|]. split; [|intros r f [=]].
        cbn. rewrite Hd2. exact Hd.
    + split; [done|]. split; [done|]. split; [|intros r f [=]]. cbn. now rewrite Hd2.
  - unique_frame Hruns.
    assert (NoDup (installedKeys (k ++ addedOld results a))) as Hcur'.
    { subst k. apply merge_NoDup; [done | done |].
      rewrite installedKeys_addedOld; [done|].
      erewrite length_allFulfilled by eassumption. done. }
    unfold finished in *. destruct (desiredBreakpoints (adapter w)) as [D2|] eqn:Hd2.
    + destruct (newBreakpointProtocol (adapter w)).
      * split; [done|]. split; [done|]. split; [done|]. intros r f [= <- <-].
        right. exists D2. split; [auto|done].
      * split; [done|]. split; [done|]. split; [|intros r f [=]].
        cbn. rewrite Hd2. exact Hd.
    + split; [done|]. split; [done|]. split; [|intros r f [=]]. cbn. now rewrite Hd2.
Qed.

Lemma uniqueKeys_exec (events : list Event) :
  Forall submitsUnique events → ∀ w w',
  uniqueKeys w → exec events w = Some w' → uniqueKeys w'.
Proof.
  induction 1 as [|e rest He Hrest IH]; intros w w' Hu.
  - cbn. now intros [= <-].
  - intros (w1 & Hs & Hex)%exec_cons. apply (IH w1); [|exact Hex].
    eapply uniqueKeys_step; eauto.
Qed.

(** Two descriptors differ in a field of the equivalence key. *)
Definition differ (a b : BreakpointInfo) : Prop :=
  line (requestedBreakpoint a) ≠ line (requestedBreakpoint b) ∨
  column (requestedBreakpoint a) ≠ column (requestedBreakpoint b) ∨
  condition (requestedBreakpoint a) ≠ condition (requestedBreakpoint b) ∨
  logMessage (requestedBreakpoint a) ≠ logMessage (requestedBreakpoint b).

Lemma existsb_false_iff {A} (f : A → bool) (l : list A) :
  existsb f l = false ↔ ∀ x, In x l → f x = false.
Proof.
  induction l as [|a l IH]; cbn; [tauto|]. rewrite orb_false_iff, IH.
  split; [intros [Ha Hl] x [<-|Hx]; auto | auto].
Qed.


(** *** Deletions before additions *)

(** The run an observation belongs to. *)
Definition runOf (o : Observation) : option nat :=
  match o with
  | RunStarted r _ | DeleteIssued r _ _ | DeleteSettled r _ _ | PositionsRequested r
  | AddIssued r _ _ | AddSettled r _ _ | RunFinished r | RunFaulted r => Some r
  | VerifyBreakpoint _ _ _ => None
  end.

Definition isAddition (o : Observation) : bool :=
  match o with
  | AddIssued _ _ _ => true
  | _ => false
  end.

Definition isDeletion (o : Observation) : bool :=
  match o with
  | DeleteIssued _ _ _ => true
  | _ => false
  end.

(** Whenever a run issues an addition, each deletion that run ever issues
    has been issued and has succeeded before. *)
Definition ordered (t : list Observation) : Prop :=
  ∀ run before j call after,
    t = before ++ AddIssued run j call :: after →
    ∀ i b, In (DeleteIssued run i b) t →
           In (DeleteIssued run i b) before ∧ In (DeleteSettled run i true) before.

Definition bounded (n : nat) (t : list Observation) : Prop :=
  ∀ o r, In o t → runOf o = Some r → (r < n)%nat.

Definition settledDeletions (run : nat) (t : list Observation) : Prop :=
  ∀ i b, In (DeleteIssued run i b) t → In (DeleteSettled run i true) t.

Definition pendingDeletions (run : nat) (ps : list (option ()))
    (t : list Observation) : Prop :=
  (∀ j call, ¬ In (AddIssued run j call) t) ∧
  ∀ i b, In (DeleteIssued run i b) t →
         In (DeleteSettled run i true) t ∨ ps !! i = Some None.

Definition frameOrder (run : nat) (f : Frame) (t : list Observation) : Prop :=
  match f with
  | AwaitDeletions _ _ ps => pendingDeletions run ps t
  | _ => settledDeletions run t
  end.

Definition orderly (w : World) : Prop :=
  wellFormed w ∧ bounded (nextRun w) (trace w) ∧ ordered (trace w) ∧
  ∀ run f, runs w = [(run, f)] → frameOrder run f (trace w).

Lemma bounded_app (n : nat) (t o : list Observation) :
  bounded n t → bounded n o → bounded n (t ++ o).
Proof. intros Ht Ho x r [Hx|Hx]%in_app_iff; eauto. Qed.

Lemma bounded_mono (n m : nat) (t : list Observation) :
  (n ≤ m)%nat → bounded n t → bounded m t.
Proof. intros Hle Ht x r Hx Hr. specialize (Ht x r Hx Hr). lia. Qed.

(** Observations are appended: additions only of runs whose deletions have
    all succeeded, deletions only of runs that have added nothing. *)
Lemma ordered_app (t o : list Observation) :
  ordered t →
  (∀ run j call, In (AddIssued run j call) o →
     ∀ i b, In (DeleteIssued run i b) (t ++ o) →
            In (DeleteIssued run i b) t ∧ In (DeleteSettled run i true) t) →
  (∀ run i b, In (DeleteIssued run i b) o → ∀ j call, ¬ In (AddIssued run j call) t) →
  ordered (t ++ o).
Proof.
  intros Ht Hadd Hdel run before j call after Heq i b Hin.
  apply app_eq_app in Heq as [l [[-> Hl]|[-> ->]]].
  - destruct l as [|x l]; cbn in Hl.
    + subst o. rewrite app_nil_r in *.
      destruct (Hadd run j call (or_introl eq_refl) i b Hin). auto.
    + injection Hl as <- ->. apply in_app_iff in Hin as [Hin|Hin].
      * apply (Ht run before j call l eq_refl i b). exact Hin.
      * exfalso. apply (Hdel run i b Hin j call).
        apply in_app_iff. right. now left.
  - destruct (Hadd run j call) with (i := i) (b := b) as [H1 H2].
    + apply in_app_iff. right. now left.
    + exact Hin.
    + split; apply in_app_iff; auto.
Qed.

Lemma ordered_app_quiet (t o : list Observation) :
  ordered t → noOperation o → ordered (t ++ o).
Proof.
  intros Ht Ho. unfold noOperation in Ho. rewrite Forall_forall in Ho.
  apply ordered_app; [exact Ht| |].
  - intros run j call Hin. apply list_elem_of_In, Ho in Hin. discriminate.
  - intros run i b Hin. apply list_elem_of_In, Ho in Hin. discriminate.
Qed.

Lemma ordered_app_additions (run : nat) (t o : list Observation) :
  ordered t → settledDeletions run t →
  (∀ x, In x o → isAddition x = true ∧ runOf x = Some run) →
  ordered (t ++ o).
Proof.
  intros Ht Hs Ho. apply ordered_app; [exact Ht| |].
  - intros run' j call Hin i b [Hd|Hd]%in_app_iff.
    + destruct (Ho _ Hin) as [_ [= ->]]. split; [exact Hd | now apply (Hs i b)].
    + destruct (Ho _ Hd) as [Habs _]. discriminate.
  - intros run' i b Hd. destruct (Ho _ Hd) as [Habs _]. discriminate.
Qed.

Lemma ordered_app_start (run : nat) (t o : list Observation) :
  ordered t → bounded run t →
  (∀ x, In x o → isAddition x = false ∧ runOf x = Some run) →
  ordered (t ++ o).
Proof.
  intros Ht Hb Ho. apply ordered_app; [exact Ht| |].
  - intros run' j call Hin. destruct (Ho _ Hin) as [Habs _]. discriminate.
  - intros run' i b Hd j call Hin. destruct (Ho _ Hd) as [_ [= ->]].
    specialize (Hb _ run Hin eq_refl). lia.
Qed.

Lemma In_imap {A B} (f : nat → A → B) (l : list A) (x : B) :
  In x (imap f l) ↔ ∃ i y, l !! i = Some y ∧ x = f i y.
Proof.
  rewrite <- list_elem_of_In, elem_of_lookup_imap.
  split; intros (i & y & ? & ?); exists i, y; split; assumption.
Qed.

Lemma allFulfilled_lookup {A} (ps : list (option A)) (vs : list A) (i : nat) :
  allFulfilled ps = Some vs → ps !! i ≠ Some None.
Proof.
  revert vs i. induction ps as [|[v|] ps IH]; intros vs i Hall.
  - destruct i; done.
  - cbn in Hall. destruct (allFulfilled ps) as [vs'|] eqn:E; [|done].
    destruct i as [|i]; cbn; [done | eauto].
  - done.
Qed.

Lemma fulfil_inv {A} (i : nat) (v : A) (ps ps' : list (option A)) :
  fulfil i v ps = Some ps' → ps !! i = Some None ∧ ps' = <[i := Some v]> ps.
Proof.
  unfold fulfil. destruct (ps !! i) as [[|]|]; try discriminate.
  now intros [= <-].
Qed.

Lemma bounded_single (n : nat) (o : Observation) :
  (∀ r, runOf o = Some r → (r < n)%nat) → bounded n [o].
Proof. intros H x r [<-|[]] Hr. auto. Qed.

Lemma bounded_imap {A} (n run : nat) (f : nat → A → Observation) (l : list A) :
  (run < n)%nat → (∀ i x, runOf (f i x) = Some run) → bounded n (imap f l).
Proof.
  intros Hlt Hf x r (i & y & _ & ->)%In_imap Hr. rewrite Hf in Hr.
  injection Hr as <-. exact Hlt.
Qed.

Lemma bounded_unowned (n : nat) (o : list Observation) :
  (∀ x, In x o → runOf x = None) → bounded n o.
Proof. intros H x r Hx Hr. rewrite (H x Hx) in Hr. discriminate. Qed.

Lemma noOperation_app (a b : list Observation) :
  noOperation a → noOperation b → noOperation (a ++ b).
Proof. apply Forall_app_2. Qed.

Lemma noOperation_verifiedNew (a : list BreakpointInfo) : noOperation (verifiedNew a).
Proof. unfold noOperation, verifiedNew. apply Forall_fmap, Forall_true. done. Qed.

Lemma noOperation_verifiedOld (rs : list SetBreakpointResult) (a : list BreakpointInfo) :
  noOperation (verifiedOld rs a).
Proof.
  unfold noOperation, verifiedOld. revert a.
  induction rs as [|r rs IH]; intros [|d a]; cbn; constructor; auto.
Qed.

Lemma runOf_verifiedNew (a : list BreakpointInfo) (x : Observation) :
  In x (verifiedNew a) → runOf x = None.
Proof. unfold verifiedNew. intros (d & <- & _)%in_map_iff. reflexivity. Qed.

Lemma runOf_verifiedOld (rs : list SetBreakpointResult) (a : list BreakpointInfo)
    (x : Observation) :
  In x (verifiedOld rs a) → runOf x = None.
Proof.
  unfold verifiedOld. revert a. induction rs as [|r rs IH]; intros [|d a]; cbn; try done.
  intros [<-|H]; [reflexivity | eauto].
Qed.

(** A freshly started run has issued its deletions and nothing else. *)
Lemma orderly_started (D : list BreakpointInfo) (w : World) :
  wellFormed (started D w) → bounded (nextRun w) (trace w) → ordered (trace w) →
  orderly (started D w).
Proof.
  intros Hw Hb Ho. split; [exact Hw|]. cbn.
  assert (∀ x, In x (RunStarted (nextRun w) (Some D) ::
                     imap (λ i b, DeleteIssued (nextRun w) i b)
                       (breakpointsToDelete D (currentBreakpoints (adapter w)))) →
               isAddition x = false ∧ runOf x = Some (nextRun w)) as Hnew.
  { intros x [<-|(i & b & _ & ->)%In_imap]; done. }
  split; [|split].
  - apply bounded_app; [eapply bounded_mono; [|exact Hb]; lia|].
    intros x r Hx Hr. destruct (Hnew x Hx) as [_ Hr']. rewrite Hr' in Hr.
    injection Hr as <-. lia.
  - now apply (ordered_app_start (nextRun w)).
  - intros r f [= <- <-]. cbn. split.
    + intros j call [Hin|Hin]%in_app_iff.
      * specialize (Hb _ (nextRun w) Hin eq_refl). lia.
      * destruct (Hnew _ Hin) as [Habs _]. discriminate.
    + intros i b [Hin|Hin]%in_app_iff.
      * specialize (Hb _ (nextRun w) Hin eq_refl). lia.
      * right. destruct Hin as [Habs|(i' & b' & Hl & [= -> ->])%In_imap]; [done|].
        rewrite list_lookup_fmap, Hl. reflexivity.
Qed.

Lemma orderly_startedEmpty (w : World) :
  wellFormed (startedEmpty w) → bounded (nextRun w) (trace w) → ordered (trace w) →
  orderly (startedEmpty w).
Proof.
  intros Hw Hb Ho. split; [exact Hw|]. cbn. split; [|split].
  - apply bounded_app; [eapply bounded_mono; [|exact Hb]; lia|].
    apply bounded_single. intros r [= <-]. lia.
  - apply ordered_app_quiet; [done | repeat constructor].
  - intros r f [= <- <-]. cbn. split.
    + intros j call [Hin|[Hin|[]]]%in_app_iff; [|done].
      specialize (Hb _ (nextRun w) Hin eq_refl). lia.
    + intros i b [Hin|[Hin|[]]]%in_app_iff; [|done].
      specialize (Hb _ (nextRun w) Hin eq_refl). lia.
Qed.

Lemma orderly_startedFaulty (w : World) :
  wellFormed (startedFaulty w) → bounded (nextRun w) (trace w) → ordered (trace w) →
  orderly (startedFaulty w).
Proof.
  intros Hw Hb Ho. split; [exact Hw|]. cbn. split; [|split].
  - apply bounded_app; [eapply bounded_mono; [|exact Hb]; lia|].
    intros x r [<-|[<-|[]]] [= <-]; lia.
  - apply ordered_app_quiet; [done | repeat constructor].
  - intros r f [=].
Qed.

(** The suspended run faults or finishes. *)
Lemma orderly_ended (w w' : World) (o : list Observation) :
  wellFormed w' → orderly w → noOperation o → bounded (nextRun w) o →
  runs w' = [] → nextRun w' = nextRun w → trace w' = trace w ++ o →
  orderly w'.
Proof.
  intros Hw' (Hw & Hb & Ho & Hf) Hno Hbo Hr Hn Ht. split; [exact Hw'|].
  rewrite Hr, Hn, Ht. split; [now apply bounded_app|].
  split; [now apply ordered_app_quiet|]. intros r f [=].
Qed.

(** The suspended run goes on without deleting or adding anything. *)
Lemma orderly_suspended_quiet (w : World) (run : nat) (f' : Frame)
    (o : list Observation) :
  wellFormed (suspended run f' o w) → orderly w → noOperation o →
  bounded (nextRun w) o → frameOrder run f' (trace w ++ o) →
  orderly (suspended run f' o w).
Proof.
  intros Hw' (Hw & Hb & Ho & Hf) Hno Hbo Hfo. split; [exact Hw'|]. cbn.
  split; [now apply bounded_app|]. split; [now apply ordered_app_quiet|].
  now intros r f [= <- <-].
Qed.

(** The suspended run, all its deletions done, issues its additions. *)
Lemma orderly_suspended_additions (w : World) (run : nat) (f' : Frame)
    (o : list Observation) :
  wellFormed (suspended run f' o w) → orderly w → (run < nextRun w)%nat →
  settledDeletions run (trace w) →
  (∀ x, In x o → isAddition x = true ∧ runOf x = Some run) →
  (∀ d k ps, f' ≠ AwaitDeletions d k ps) →
  orderly (suspended run f' o w).
Proof.
  intros Hw' (Hw & Hb & Ho & Hf) Hlt Hs Hadd Hf'. split; [exact Hw'|]. cbn.
  split; [|split].
  - apply bounded_app; [done|]. intros x r Hx Hr. destruct (Hadd x Hx) as [_ Hr'].
    rewrite Hr' in Hr. injection Hr as <-. exact Hlt.
  - now apply (ordered_app_additions run).
  - intros r f [= <- <-].
    assert (settledDeletions run (trace w ++ o)) as Hs'.
    { intros i b [Hin|Hin]%in_app_iff.
      - apply in_app_iff. left. now apply (Hs i b).
      - destruct (Hadd _ Hin) as [Habs _]. discriminate. }
    destruct f'; try exact Hs'. now destruct (Hf' desired toKeep deletionPromises).
Qed.

Lemma run_lt (w : World) (run : nat) (f : Frame) :
  wellFormed w → runs w = [(run, f)] → (run < nextRun w)%nat.
Proof.
  intros [[Hn|(r & f' & Hr & _ & Hlt & _)] _] H; [congruence|].
  rewrite Hr in H. now injection H as -> _.
Qed.

Lemma settled_of_pending (run : nat) (ps : list (option ())) (us : list ())
    (t : list Observation) :
  pendingDeletions run ps t → allFulfilled ps = Some us → settledDeletions run t.
Proof.
  intros [_ Hp] Hall i b Hin. destruct (Hp i b Hin) as [H|H]; [exact H|].
  now destruct (allFulfilled_lookup ps us i Hall).
Qed.

Lemma settledDeletions_app (run : nat) (t o : list Observation) :
  settledDeletions run t → Forall (λ x, isDeletion x = false) o →
  settledDeletions run (t ++ o).
Proof.
  intros Hs Ho i b [Hin|Hin]%in_app_iff.
  - apply in_app_iff. left. now apply (Hs i b).
  - rewrite Forall_forall in Ho. apply list_elem_of_In, Ho in Hin. discriminate.
Qed.

Ltac bounded_run Hlt :=
  intros ? ? ?Hx ?Hr; cbn in Hx;
  repeat (destruct Hx as [<-|Hx]; [injection Hr as <-; exact Hlt|]); destruct Hx.

Lemma orderly_step (w w' : World) (e : Event) :
  orderly w → step e w = Some w' → orderly w'.
Proof.
  intros Hord Hs. pose proof Hord as (Hw & Hb & Ho & Hf).
  pose proof (wellFormed_step w w' e Hw Hs) as Hw'.
  destruct (step_Transition w w' e Hw Hs);
    try (match goal with H : runs ?w = [(_, _)] |- _ =>
           pose proof (run_lt _ _ _ Hw H) as Hlt;
           pose proof (Hf _ _ H) as Hfo; cbn in Hfo end).
  - split; [done|]. done.
  - now apply orderly_started.
  - split; [done|]. done.
  - now apply orderly_started.
  - now apply orderly_startedEmpty.
  - now apply orderly_startedFaulty.
  - apply orderly_suspended_quiet; [done | done | repeat constructor | bounded_run Hlt |].
    apply fulfil_inv in H0 as [Hi ->]. destruct Hfo as [Hno Hp]. split.
    + intros j call [Hin|[Hin|[]]]%in_app_iff; [now apply (Hno j call) | done].
    + intros i' b [Hin|[Hin|[]]]%in_app_iff; [|done].
      destruct (decide (i' = i)) as [->|Hne].
      * left. apply in_app_iff. right. now left.
      * destruct (Hp i' b Hin) as [Hd|Hd].
        -- left. apply in_app_iff. now left.
        -- right. now rewrite list_lookup_insert_ne.
  - eapply orderly_ended with (o := [DeleteSettled run i false] ++ [RunFaulted run]);
      [done | done | repeat constructor | bounded_run Hlt | done | done | done].
  - apply orderly_suspended_quiet; [done | done | repeat constructor | bounded_run Hlt |].
    cbn. apply settledDeletions_app; [|repeat constructor].
    eapply settled_of_pending; eauto.
  - apply orderly_suspended_additions; [done | done | done | | | done].
    + eapply settled_of_pending; eauto.
    + unfold issuedOld. intros x (i & d & _ & ->)%In_imap. done.
  - eapply orderly_ended with (o := [] ++ [RunFaulted run]);
      [done | done | repeat constructor | bounded_run Hlt | done | done | done].
  - apply orderly_suspended_additions; [done | done | done | done | | done].
    unfold issuedNew. intros x (i & d & _ & ->)%In_imap. done.
  - eapply orderly_ended with (o := [] ++ [RunFaulted run]);
      [done | done | repeat constructor | bounded_run Hlt | done | done | done].
  - apply orderly_suspended_quiet; [done | done | repeat constructor | bounded_run Hlt |].
    cbn. apply settledDeletions_app; [done | repeat constructor].
  - eapply orderly_ended with (o := [AddSettled run i false] ++ [RunFaulted run]);
      [done | done | repeat constructor | bounded_run Hlt | done | done | done].
  - apply orderly_suspended_quiet; [done | done | repeat constructor | bounded_run Hlt |].
    cbn. apply settledDeletions_app; [done | repeat constructor].
  - eapply orderly_ended with (o := [AddSettled run i false] ++ [RunFaulted run]);
      [done | done | repeat constructor | bounded_run Hlt | done | done | done].
  - assert (noOperation (verifiedNew a ++ [RunFinished run])) as Hno
      by (apply noOperation_app; [apply noOperation_verifiedNew | repeat constructor]).
    assert (bounded (nextRun w) (verifiedNew a ++ [RunFinished run])) as Hbo.
    { apply bounded_app; [apply bounded_unowned, runOf_verifiedNew | bounded_run Hlt]. }
    unfold finished in *. destruct (desiredBreakpoints (adapter w)) as [D2|].
    + destruct (newBreakpointProtocol (adapter w)).
      * apply orderly_started; [done | now apply bounded_app |].
        now apply ordered_app_quiet.
      * eapply orderly_ended; [done | done | exact Hno | done | done | done | done].
    + eapply orderly_ended; [done | done | exact Hno | done | done | done | done].
  - assert (noOperation (verifiedOld results a ++ [RunFinished run])) as Hno
      by (apply noOperation_app; [apply noOperation_verifiedOld | repeat constructor]).
    assert (bounded (nextRun w) (verifiedOld results a ++ [RunFinished run])) as Hbo.
    { apply bounded_app; [apply bounded_unowned, runOf_verifiedOld | bounded_run Hlt]. }
    unfold finished in *. destruct (desiredBreakpoints (adapter w)) as [D2|].
    + destruct (newBreakpointProtocol (adapter w)).
      * apply orderly_started; [done | now apply bounded_app |].
        now apply ordered_app_quiet.
      * eapply orderly_ended; [done | done | exact Hno | done | done | done | done].
    + eapply orderly_ended; [done | done | exact Hno | done | done | done | done].
Qed.

(** C3. Deletions before additions. In the trace of every reachable world,
    wherever a run issues an addition, every deletion that the same run
    issues at any time has been issued earlier and has been fulfilled
    earlier: all deletions of a run complete before any of its additions
    begins. *)
Theorem deletions_before_additions (w : World) :
  reachable w →
  ∀ run before j call after,
    trace w = before ++ AddIssued run j call :: after →
    ∀ i b, In (DeleteIssued run i b) (trace w) →
           In (DeleteIssued run i b) before ∧ In (DeleteSettled run i true) before.
Proof.
  intros Hreach. cut (orderly w); [intros (_ & _ & Ho & _); exact Ho|].
  revert w Hreach. apply reachable_ind.
  - intros id actor sourcePath newProtocol. split; [apply wellFormed_initial|].
    split; [intros x r []|]. split; [|intros r f [=]].
    intros run before j call after Heq. now destruct before.
  - intros w e w' Hord Hs. eapply orderly_step; eauto.
Qed.


(** *** The position reported for a legacy breakpoint *)

(** C7. Legacy protocol. When the additions of a run are all answered and the
    run continues, each added descriptor is verified once, in order, with
    the location that the answer of the source actor carries if it carries
    one, and with the requested line and column otherwise; the breakpoint
    that is installed for it holds the descriptor with that position as its
    actual position, and the breakpoint actor of the answer. *)
Theorem legacy_actual_position (w : World) (run : nat)
    (toKeep : list BreakpointAdapter) (toAdd : list BreakpointInfo)
    (promises : list (option SetBreakpointResult))
    (results : list SetBreakpointResult) :
  reachable w →
  lookupRun run w = Some (AwaitAdditionsOld toKeep toAdd promises) →
  allFulfilled promises = Some results →
  ∃ w' added verified rest,
    step (Continue run) w = Some w' ∧
    currentBreakpoints (adapter w') = toKeep ++ added ∧
    trace w' = trace w ++ verified ++ RunFinished run :: rest ∧
    length added = length toAdd ∧ length verified = length toAdd ∧
    ∀ i d, toAdd !! i = Some d →
      ∃ r actualLine actualColumn,
        results !! i = Some r ∧
        match actualLocation r with
        | Some location =>
            actualLine = l_line location ∧ actualColumn = l_column location
        | None =>
            actualLine = Some (line (requestedBreakpoint d)) ∧
            actualColumn = column (requestedBreakpoint d)
        end ∧
        verified !! i = Some (VerifyBreakpoint d actualLine actualColumn) ∧
        added !! i =
          Some (OldProtocolBreakpointAdapter
                  {| requestedBreakpoint := requestedBreakpoint d;
                     Source.actualLine := actualLine;
                     Source.actualColumn := actualColumn;
                     verified := true |}
                  (breakpointActor r)).
Proof.
  intros Hreach El Ea. pose proof (wellFormed_reachable w Hreach) as Hw.
  destruct (lookupRun_inv w run _ (proj1 Hw) El) as (Hr & _ & _ & Hp & Hlen).
  assert (step (Continue run) w =
          Some (afterAdditionsOld run toKeep toAdd results w)) as Hs
    by (cbn; rewrite El; cbn; rewrite Ea; reflexivity).
  pose proof (length_allFulfilled _ _ Ea) as Hlr.
  assert (∃ rest,
            currentBreakpoints (adapter (afterAdditionsOld run toKeep toAdd results w))
              = toKeep ++ addedOld results toAdd ∧
            trace (afterAdditionsOld run toKeep toAdd results w)
              = trace w ++ verifiedOld results toAdd ++ RunFinished run :: rest)
    as (rest & Hcur & Htrace).
  { unfold afterAdditionsOld. rewrite (finishSync_merged w run _ _ _ _ Hr).
    rewrite checkAndSyncBreakpoints_merged. unfold finished.
    destruct (desiredBreakpoints (adapter w)) as [D|].
    - rewrite Hp. exists []. split; reflexivity.
    - exists []. split; reflexivity. }
  exists (afterAdditionsOld run toKeep toAdd results w),
    (addedOld results toAdd), (verifiedOld results toAdd), rest.
  split; [exact Hs|]. split; [exact Hcur|]. split; [exact Htrace|].
  unfold addedOld, verifiedOld. rewrite !length_zip_with.
  split; [lia|]. split; [lia|].
  intros i d Hd.
  destruct (results !! i) as [r|] eqn:Hri.
  2: { apply lookup_ge_None in Hri. apply lookup_lt_Some in Hd. lia. }
  exists r, (legacyActualLine d r), (legacyActualColumn d r).
  split; [reflexivity|]. split.
  - unfold legacyActualLine, legacyActualColumn. destruct (actualLocation r); done.
  - rewrite !lookup_zip_with, Hri, Hd. done.
Qed.

(** *** Rejected promises *)

(** Observations that belong to runs numbered [n] or later, or to no run. *)
Definition owned (n : nat) (o : list Observation) : Prop :=
  ∀ x r, In x o → runOf x = Some r → (n ≤ r)%nat.

(** The runs numbered below [n] are over. *)
Definition later (n : nat) (w : World) : Prop :=
  wellFormed w ∧ (n ≤ nextRun w)%nat ∧ ∀ r f, runs w = [(r, f)] → (n ≤ r)%nat.

Lemma owned_nil (n : nat) : owned n [].
Proof. intros x r []. Qed.

Lemma owned_app (n : nat) (a b : list Observation) :
  owned n a → owned n b → owned n (a ++ b).
Proof. intros Ha Hb x r [Hx|Hx]%in_app_iff; eauto. Qed.

Lemma owned_cons (n : nat) (x : Observation) (o : list Observation) :
  (∀ r, runOf x = Some r → (n ≤ r)%nat) → owned n o → owned n (x :: o).
Proof. intros Hx Ho y r [<-|Hy]; eauto. Qed.

Lemma owned_imap {A} (n run : nat) (f : nat → A → Observation) (l : list A) :
  (n ≤ run)%nat → (∀ i x, runOf (f i x) = Some run) → owned n (imap f l).
Proof.
  intros Hle Hf x r (i & y & _ & ->)%In_imap Hr. rewrite Hf in Hr.
  injection Hr as <-. exact Hle.
Qed.

Lemma owned_unowned (n : nat) (o : list Observation) :
  (∀ x, In x o → runOf x = None) → owned n o.
Proof. intros H x r Hx Hr. rewrite (H x Hx) in Hr. discriminate. Qed.

Lemma owned_started (n : nat) (D : list BreakpointInfo) (w : World) :
  (n ≤ nextRun w)%nat →
  owned n (RunStarted (nextRun w) (Some D) ::
           imap (λ i b, DeleteIssued (nextRun w) i b)
             (breakpointsToDelete D (currentBreakpoints (adapter w)))).
Proof.
  intros Hle. apply owned_cons; [now intros r [= <-]|].
  now apply (owned_imap n (nextRun w)).
Qed.

Ltac owned_run :=
  repeat first
    [ apply owned_nil
    | apply owned_app
    | apply owned_cons; [intros ? [= <-]; lia|]
    | eapply owned_imap; cycle 1; [intros; reflexivity | lia]
    | apply owned_unowned; first [apply runOf_verifiedNew | apply runOf_verifiedOld] ].

Ltac later_world :=
  eexists; split;
    [cbn; rewrite <- ?app_assoc; first [reflexivity | symmetry; apply app_nil_r]|];
  split; [owned_run|];
  split; [assumption|]; split; [cbn; lia|]; cbn;
  first [assumption | intros ? ? [=]; subst; lia].

Lemma later_step (n : nat) (w w' : World) (e : Event) :
  later n w → step e w = Some w' →
  ∃ o, trace w' = trace w ++ o ∧ owned n o ∧ later n w'.
Proof.
  intros (Hw & Hn & Hruns) Hs.
  pose proof (wellFormed_step w w' e Hw Hs) as Hw'.
  destruct (step_Transition w w' e Hw Hs);
    try (match goal with H : runs ?w = [(_, _)] |- _ =>
           pose proof (Hruns _ _ H) as Hle end).
  18, 19: unfold finished in *;
    (destruct (desiredBreakpoints (adapter w)) as [?|];
       [destruct (newBreakpointProtocol (adapter w))|]).
  all: unfold started, startedEmpty, startedFaulty, suspended, faulted, merged,
         issuedOld, issuedNew, setCoordinator, setAdapter in *.
  all: later_world.
Qed.

Lemma later_exec (n : nat) (events : list Event) :
  ∀ w w', later n w → exec events w = Some w' →
  ∃ t, trace w' = trace w ++ t ∧ owned n t ∧ later n w'.
Proof.
  induction events as [|e rest IH]; intros w w' Hl; cbn.
  - intros [= <-]. exists []. rewrite app_nil_r. auto using owned_nil.
  - destruct (step e w) as [w1|] eqn:Hs; cbn; [|discriminate]. intros Hex.
    destruct (later_step n w w1 e Hl Hs) as (o & Ho & Hown & Hl1).
    destruct (IH w1 w' Hl1 Hex) as (t & Ht & Hown' & Hl').
    exists (o ++ t). rewrite Ht, Ho, app_assoc. auto using owned_app.
Qed.

(** Once a promise of a run is rejected, the run is over for good. *)
Lemma rejected_run_over (w w' : World) (e : Event) :
  wellFormed w → isFailure e = true → step e w = Some w' →
  ∃ run o, w' = faulted run o w ∧ noOperation o ∧ later (S run) w'.
Proof.
  intros Hw Hfail Hs.
  pose proof (wellFormed_step w w' e Hw Hs) as Hw'.
  pose proof (step_Transition w w' e Hw Hs) as Ht.
  inversion Ht; subst; try (cbn in Hfail; discriminate Hfail);
    match goal with H : runs w = [(_, _)] |- _ =>
      pose proof (run_lt _ _ _ Hw H) as Hlt end;
    (eexists _, _; split; [reflexivity|]; split; [repeat constructor|];
     split; [exact Hw'|]; split; [cbn; lia | intros ? ? [=]]).
Qed.

(** C2, amended. The operations of a batch are issued together, when the run
    reaches the batch, so that a rejection never keeps another operation of
    the batch from being issued. A rejected deletion, addition or position
    query ends the run where it waits: the run is no longer suspended, the
    installed set stays as it was, and whatever happens afterwards nothing
    more is observed of that run, neither an operation nor its end. When all
    additions are fulfilled the run finishes: the installed set becomes
    what was kept followed by one breakpoint per addition, and the flag is
    clear unless a set that became pending starts the next run at once. *)
Theorem rejection_ends_run :
  (∀ w D, runs w = [] → desiredBreakpoints (adapter w) = Some D →
     trace (syncBreakpoints w) =
       trace w ++ RunStarted (nextRun w) (Some D) ::
       imap (λ i b, DeleteIssued (nextRun w) i b)
         (breakpointsToDelete D (currentBreakpoints (adapter w)))) ∧
  (∀ w run D k ps us,
     reachable w → lookupRun run w = Some (AwaitDeletions (Some D) k ps) →
     allFulfilled ps = Some us → newBreakpointProtocol (adapter w) = false →
     ∃ w', step (Continue run) w = Some w' ∧
       trace w' = trace w ++
                  issuedOld run (breakpointsToAdd D (currentBreakpoints (adapter w)))) ∧
  (∀ w run k a positions,
     reachable w → lookupRun run w = Some (AwaitBreakpointPositions k a) →
     ∃ w', step (PositionsSettle run (Some positions)) w = Some w' ∧
       trace w' = trace w ++
                  issuedNew run (url (actor (adapter w)))
                    (resolveActualLocation findNextBreakpointPosition positions <$> a)) ∧
  (∀ w e w' events w'',
     reachable w → isFailure e = true → step e w = Some w' →
     exec events w' = Some w'' →
     runs w' = [] ∧
     currentBreakpoints (adapter w') = currentBreakpoints (adapter w) ∧
     ∃ run o t, trace w' = trace w ++ o ++ [RunFaulted run] ∧ noOperation o ∧
                trace w'' = trace w' ++ t ∧ ∀ x, In x t → runOf x ≠ Some run) ∧
  (∀ w run k a,
     reachable w →
     ((∃ ps us, lookupRun run w = Some (AwaitAdditionsNew k a ps) ∧
                allFulfilled ps = Some us) ∨
      (∃ ps us, lookupRun run w = Some (AwaitAdditionsOld k a ps) ∧
                allFulfilled ps = Some us)) →
     ∃ w', step (Continue run) w = Some w' ∧
       In (RunFinished run) (trace w') ∧
       (∃ added, currentBreakpoints (adapter w') = k ++ added ∧
                 length added = length a) ∧
       (desiredBreakpoints (adapter w) = None ∨
        newBreakpointProtocol (adapter w) = false →
        isSyncingBreakpoints (adapter w') = false)).
Proof.
  split; [|split; [|split; [|split]]].
  - intros w D Hr Hd. now rewrite (syncBreakpoints_started w D Hr Hd).
  - intros w run D k ps us Hreach El Ea Hp.
    pose proof (wellFormed_reachable w Hreach) as Hw.
    destruct (lookupRun_inv w run _ (proj1 Hw) El) as (Hr & _).
    eexists. split; [cbn; rewrite El; cbn; rewrite Ea; reflexivity|].
    unfold afterDeletions. rewrite Hp.
    now rewrite (suspend_suspended w run _ _ _ Hr).
  - intros w run k a positions Hreach El.
    pose proof (wellFormed_reachable w Hreach) as Hw.
    destruct (lookupRun_inv w run _ (proj1 Hw) El) as (Hr & _).
    eexists. split; [cbn; rewrite El; reflexivity|].
    unfold afterBreakpointPositions.
    now rewrite (suspend_suspended w run _ _ _ Hr).
  - intros w e w' events w'' Hreach Hfail Hs Hex.
    pose proof (wellFormed_reachable w Hreach) as Hw.
    destruct (rejected_run_over w w' e Hw Hfail Hs) as (run & o & -> & Hno & Hl).
    destruct (later_exec (S run) events _ w'' Hl Hex) as (t & Ht & Hown & _).
    split; [reflexivity|]. split; [reflexivity|]. exists run, o, t.
    split; [reflexivity|]. split; [exact Hno|]. split; [exact Ht|].
    intros x Hx Hr. specialize (Hown x run Hx Hr). lia.
  - intros w run k a Hreach Hframe.
    assert (∃ w', step (Continue run) w = Some w') as [w' Hs].
    { destruct Hframe as [(ps & us & El & Ea)|(ps & us & El & Ea)];
        cbn; rewrite El; cbn; rewrite Ea; cbn; eauto. }
    exists w'. split; [exact Hs|].
    pose proof (wellFormed_reachable w Hreach) as Hw.
    pose proof (step_Transition w w' _ Hw Hs) as Ht.
    destruct Hframe as [(ps & us & El & Ea)|(ps & us & El & Ea)];
      destruct (lookupRun_inv w run _ (proj1 Hw) El) as (Hr & _);
      inversion Ht; subst; try congruence; same_run Hr.
    + unfold finished. split; [|split].
      * destruct (desiredBreakpoints (adapter w)) as [?|];
          [destruct (newBreakpointProtocol (adapter w))|]; cbn;
          rewrite ?in_app_iff; cbn; tauto.
      * match goal with |- context [merged _ _ ?x _ _] => exists x end.
        unfold addedNew. rewrite length_fmap.
        split; [|reflexivity].
        destruct (desiredBreakpoints (adapter w)) as [?|];
          [destruct (newBreakpointProtocol (adapter w))|]; reflexivity.
      * intros [Hd|Hp]; [now rewrite Hd | congruence].
    + unfold finished. split; [|split].
      * destruct (desiredBreakpoints (adapter w)) as [?|];
          [destruct (newBreakpointProtocol (adapter w))|]; cbn;
          rewrite ?in_app_iff; cbn; tauto.
      * match goal with |- context [merged _ _ ?x _ _] => exists x end.
        unfold addedOld. rewrite length_zip_with.
        erewrite length_allFulfilled by eassumption.
        split; [|lia].
        destruct (desiredBreakpoints (adapter w)) as [?|];
          [destruct (newBreakpointProtocol (adapter w))|]; reflexivity.
      * intros [Hd|Hp]; [now rewrite Hd|]. rewrite Hp.
        now destruct (desiredBreakpoints (adapter w)).
Qed.

End ReconciliationFacts.

End SourceFacts.

(** * Executions of one source adapter *)

Module Scenarios.
Import JS Source SourceFacts.

(** A breakpoint requested at a line, with an optional condition. *)
Definition breakpointAt (l : Z) (c : option string) : BreakpointInfo :=
  {| requestedBreakpoint :=
       {| line := l; column := None; condition := c; logMessage := None |};
     actualLine := None; actualColumn := None; verified := false |}.

Definition sampleActor : ISourceActorProxy :=
  {| name := "server1.conn0.source12"; url := Some "http://localhost/app.js";
     introductionType := None; isBlackBoxed := false |}.

(** Breakpoint positions are not looked at: the next position is the
    requested one. *)
Definition nextPosition (l c : Z) (positions : unit) : Position :=
  {| p_line := l; p_column := c |}.

Definition sampleWorld (newProtocol : bool) : World :=
  initialWorld (newSourceAdapter 1 sampleActor None newProtocol).

Definition run (events : list (@Event unit)) (w : World) : World :=
  default w (exec nextPosition events w).

Lemma run_reachable (newProtocol : bool) (events : list (@Event unit)) (w : World) :
  exec nextPosition events (sampleWorld newProtocol) = Some w →
  reachable nextPosition w.
Proof. intros H. exists 1, sampleActor, None, newProtocol, events. exact H. Qed.

Ltac in_list := cbn; repeat first [left; reflexivity | right].

(** ** A condition is changed *)

(** The new protocol: a breakpoint is installed at line 10, then the desired
    set asks for line 10 with a condition. *)
Definition conditionChanged : list (@Event unit) :=
  [ Submit [breakpointAt 10 None]; Continue 0; PositionsSettle 0 (Some ());
    AdditionSettlesNew 0 0 true; Continue 0;
    Submit [breakpointAt 10 (Some "x > 1")]; DeletionSettles 1 0 true; Continue 1;
    PositionsSettle 1 (Some ()); AdditionSettlesNew 1 0 true; Continue 1 ].

Definition installedAt10 : BreakpointAdapter :=
  NewProtocolBreakpointAdapter
    {| requestedBreakpoint := requestedBreakpoint (breakpointAt 10 None);
       actualLine := Some 10; actualColumn := Some 0; verified := true |}.

Definition conditionalCall : SetBreakpointCall :=
  ThreadSetBreakpoint (Some 10) (Some 0) (Some "http://localhost/app.js")
    (Some "x > 1") None.

Lemma deletions_before_additions_witness :
  let w := run conditionChanged (sampleWorld true) in
  reachable nextPosition w ∧
  trace w = take 10 (trace w) ++ AddIssued 1 0 conditionalCall :: drop 11 (trace w) ∧
  In (DeleteIssued 1 0 installedAt10) (trace w) ∧
  In (DeleteIssued 1 0 installedAt10) (take 10 (trace w)) ∧
  In (DeleteSettled 1 0 true) (take 10 (trace w)).
Proof.
  intros w.
  assert (reachable nextPosition w) as Hreach
    by (apply (run_reachable true conditionChanged); vm_compute; reflexivity).
  assert (trace w = take 10 (trace w) ++
                    AddIssued 1 0 conditionalCall :: drop 11 (trace w)) as Heq
    by (vm_compute; reflexivity).
  assert (In (DeleteIssued 1 0 installedAt10) (trace w)) as Hin
    by (vm_compute; in_list).
  split; [exact Hreach|]. split; [exact Heq|]. split; [exact Hin|].
  exact (deletions_before_additions nextPosition w Hreach 1%nat _ 0%nat _ _ Heq
           0%nat installedAt10 Hin).
Defined.

(** ** The same set is submitted twice *)

Definition firstRun : list (@Event unit) :=
  [ Continue 0; PositionsSettle 0 (Some ()); AdditionSettlesNew 0 0 true;
    AdditionSettlesNew 0 1 true; Continue 0 ].

Definition afterSecond : list (@Event unit) := [Continue 1].

Definition twoLines : list BreakpointInfo :=
  [breakpointAt 10 None; breakpointAt 20 (Some "n = 0")].

(** The second submission carries the same requests in descriptors that the
    first run has verified in the meantime. *)
Definition twoLinesVerified : list BreakpointInfo :=
  [ {| requestedBreakpoint := requestedBreakpoint (breakpointAt 10 None);
       actualLine := Some 10; actualColumn := Some 0; verified := true |};
    {| requestedBreakpoint := requestedBreakpoint (breakpointAt 20 (Some "n = 0"));
       actualLine := Some 20; actualColumn := Some 0; verified := true |} ].

Lemma reconciliation_idempotent_witness :
  let w0 := sampleWorld true in
  let w1 := run (Submit twoLines :: firstRun) w0 in
  let w2 := run (Submit twoLinesVerified :: afterSecond) w1 in
  (reachable nextPosition w0 ∧ idle w0 ∧
   Forall (λ e : @Event unit, isSubmit e = false) firstRun ∧
   exec nextPosition (Submit twoLines :: firstRun) w0 = Some w1 ∧ idle w1 ∧
   desiredKeys twoLinesVerified = desiredKeys twoLines ∧
   Forall (λ e : @Event unit, isSubmit e = false) afterSecond ∧
   exec nextPosition (Submit twoLinesVerified :: afterSecond) w1 = Some w2) ∧
  inSync twoLines (currentBreakpoints (adapter w1)) ∧
  breakpointsToDelete twoLinesVerified (currentBreakpoints (adapter w1)) = [] ∧
  breakpointsToAdd twoLinesVerified (currentBreakpoints (adapter w1)) = [] ∧
  ∃ t, trace w2 = trace w1 ++ t ∧ noOperation t.
Proof.
  intros w0 w1 w2.
  assert (reachable nextPosition w0) as H0
    by (apply (run_reachable true []); reflexivity).
  assert (idle w0) as H1 by (repeat split).
  assert (Forall (λ e : @Event unit, isSubmit e = false) firstRun) as H2
    by (repeat constructor).
  assert (exec nextPosition (Submit twoLines :: firstRun) w0 = Some w1) as H3
    by (vm_compute; reflexivity).
  assert (idle w1) as H4 by (repeat split).
  assert (desiredKeys twoLinesVerified = desiredKeys twoLines) as H5
    by reflexivity.
  assert (Forall (λ e : @Event unit, isSubmit e = false) afterSecond) as H6
    by (repeat constructor).
  assert (exec nextPosition (Submit twoLinesVerified :: afterSecond) w1 = Some w2) as H7
    by (vm_compute; reflexivity).
  split; [exact (conj H0 (conj H1 (conj H2 (conj H3 (conj H4 (conj H5 (conj H6 H7)))))))|].
  exact (reconciliation_idempotent nextPosition w0 w1 w2 twoLines twoLinesVerified
           firstRun afterSecond H0 H1 H2 H3 H4 H5 H6 H7).
Defined.

(** ** Legacy additions, with and without an actual location *)

Definition movedTo12 : SetBreakpointResult :=
  {| actualLocation := Some {| l_line := Some 12; l_column := Some 4 |};
     breakpointActor := "server1.conn0.breakpoint30" |}.

Definition notMoved : SetBreakpointResult :=
  {| actualLocation := None; breakpointActor := "server1.conn0.breakpoint31" |}.

Definition legacyAdditions : list (@Event unit) :=
  [ Submit twoLines; CoordinatorRuns; Continue 0;
    AdditionSettlesOld 0 0 (Some movedTo12); AdditionSettlesOld 0 1 (Some notMoved) ].

Lemma legacy_actual_position_witness :
  let w := run legacyAdditions (sampleWorld false) in
  (reachable nextPosition w ∧
   lookupRun 0 w = Some (AwaitAdditionsOld [] twoLines [Some movedTo12; Some notMoved]) ∧
   allFulfilled [Some movedTo12; Some notMoved] = Some [movedTo12; notMoved]) ∧
  ∃ w' added verified rest,
    step nextPosition (Continue 0) w = Some w' ∧
    currentBreakpoints (adapter w') = [] ++ added ∧
    trace w' = trace w ++ verified ++ RunFinished 0 :: rest ∧
    length added = length twoLines ∧ length verified = length twoLines ∧
    ∀ i d, twoLines !! i = Some d →
      ∃ r actualLine actualColumn, [movedTo12; notMoved] !! i = Some r ∧
        match actualLocation r with
        | Some location =>
            actualLine = l_line location ∧ actualColumn = l_column location
        | None =>
            actualLine = Some (line (requestedBreakpoint d)) ∧
            actualColumn = column (requestedBreakpoint d)
        end ∧
        verified !! i = Some (VerifyBreakpoint d actualLine actualColumn) ∧
        added !! i =
          Some (OldProtocolBreakpointAdapter
                  {| requestedBreakpoint := requestedBreakpoint d;
                     Source.actualLine := actualLine;
                     Source.actualColumn := actualColumn;
                     verified := true |} (breakpointActor r)).
Proof.
  intros w.
  assert (reachable nextPosition w) as H0
    by (apply (run_reachable false legacyAdditions); vm_compute; reflexivity).
  assert (lookupRun 0 w =
          Some (AwaitAdditionsOld [] twoLines [Some movedTo12; Some notMoved])) as H1
    by (vm_compute; reflexivity).
  assert (allFulfilled [Some movedTo12; Some notMoved] =
          Some [movedTo12; notMoved]) as H2 by reflexivity.
  split; [exact (conj H0 (conj H1 H2))|].
  exact (legacy_actual_position nextPosition w 0%nat [] twoLines
           [Some movedTo12; Some notMoved] [movedTo12; notMoved] H0 H1 H2).
Defined.

(** The two breakpoints that this run installs and the positions that it
    reports. *)
Example legacy_positions_reported :
  let w := run (legacyAdditions ++ [Continue 0]) (sampleWorld false) in
  (breakpointInfo <$> currentBreakpoints (adapter w)) =
    [ {| requestedBreakpoint := requestedBreakpoint (breakpointAt 10 None);
         actualLine := Some 12; actualColumn := Some 4; verified := true |};
      {| requestedBreakpoint := requestedBreakpoint (breakpointAt 20 (Some "n = 0"));
         actualLine := Some 20; actualColumn := None; verified := true |} ] ∧
  List.filter (λ o, match o with VerifyBreakpoint _ _ _ => true | _ => false end)
    (trace w) =
    [ VerifyBreakpoint (breakpointAt 10 None) (Some 12) (Some 4);
      VerifyBreakpoint (breakpointAt 20 (Some "n = 0")) (Some 20) None ].
Proof. split; vm_compute; reflexivity. Qed.

(** ** A rejected addition *)

Definition secondAdditionPending : list (@Event unit) :=
  [ Submit twoLines; Continue 0; PositionsSettle 0 (Some ());
    AdditionSettlesNew 0 0 false ].

(** C2, as stated, fails: the first of two additions is rejected while the
    second is pending. The run ends there: it is no longer suspended, so
    the answer to the second addition has no run to return to and the run
    cannot continue; the installed set is not merged, the flag stays set
    and the trace holds no end of the run. *)
Lemma rejected_addition_ends_run :
  ∃ w, exec nextPosition secondAdditionPending (sampleWorld true) = Some w ∧
    In (AddIssued 0 1
          (ThreadSetBreakpoint (Some 20) (Some 0) (Some "http://localhost/app.js")
             (Some "n = 0") None)) (trace w) ∧
    In (RunFaulted 0) (trace w) ∧
    List.filter (λ o, match o with RunFinished _ => true | _ => false end)
      (trace w) = [] ∧
    runs w = [] ∧
    currentBreakpoints (adapter w) = [] ∧
    isSyncingBreakpoints (adapter w) = true ∧
    step nextPosition (AdditionSettlesNew 0 1 true) w = None ∧
    step nextPosition (Continue 0) w = None ∧
    ∃ w', step nextPosition (Submit twoLines) w = Some w' ∧
          trace w' = trace w ∧ runs w' = [].
Proof.
  eexists. split; [vm_compute; reflexivity|].
  split; [in_list|]. split; [in_list|].
  repeat split. eexists. repeat split.
Qed.

(** The same with a rejected deletion: no addition is issued. *)
Example rejected_deletion_ends_run :
  let w := run (firstRun ++ [Submit [breakpointAt 20 (Some "n = 0"); breakpointAt 30 None];
                             DeletionSettles 1 0 false])
             (run [Submit twoLines] (sampleWorld true)) in
  List.filter isOperation (drop 10 (trace w)) = [DeleteIssued 1 0 installedAt10] ∧
  In (RunFaulted 1) (trace w) ∧
  installedKeys (currentBreakpoints (adapter w)) = desiredKeys twoLines ∧
  isSyncingBreakpoints (adapter w) = true.
Proof. repeat split; in_list. Qed.

(** ** Two equivalent descriptors in one desired set *)

Definition sameTwice : list (@Event unit) :=
  [ Submit [breakpointAt 10 None; breakpointAt 10 None]; Continue 0;
    PositionsSettle 0 (Some ()); AdditionSettlesNew 0 0 true;
    AdditionSettlesNew 0 1 true; Continue 0 ].


(** ** A queued run that finds no pending set *)

Definition queuedTwice : list (@Event unit) :=
  [ Submit [breakpointAt 10 None]; Submit [breakpointAt 20 None];
    CoordinatorRuns; Continue 0; AdditionSettlesOld 0 0 (Some notMoved);
    Continue 0; CoordinatorRuns ].

(** A run that starts with no pending set does not return: with something
    installed it faults at once, with nothing installed it faults when it
    continues after its empty batch of deletions. The flag stays set. *)
Lemma syncBreakpoints_nothing_pending (w : World) :
  runs w = [] → desiredBreakpoints (adapter w) = None →
  isSyncingBreakpoints (adapter (syncBreakpoints w)) = true ∧
  (currentBreakpoints (adapter w) ≠ [] →
     runs (syncBreakpoints w) = [] ∧
     trace (syncBreakpoints w) =
       trace w ++ [RunStarted (nextRun w) None; RunFaulted (nextRun w)]) ∧
  (currentBreakpoints (adapter w) = [] →
     ∃ w', step nextPosition (Continue (nextRun w)) (syncBreakpoints w) = Some w' ∧
       runs w' = [] ∧ isSyncingBreakpoints (adapter w') = true ∧
       trace w' = trace w ++ [RunStarted (nextRun w) None; RunFaulted (nextRun w)]).
Proof.
  intros Hr Hd. split; [|split].
  - destruct (currentBreakpoints (adapter w)) as [|c cs] eqn:Ec.
    + now rewrite syncBreakpoints_startedEmpty.
    + now rewrite syncBreakpoints_startedFaulty by (try rewrite Ec; done).
  - intros Hc. now rewrite syncBreakpoints_startedFaulty.
  - intros Hc. rewrite syncBreakpoints_startedEmpty by done.
    eexists. split.
    { unfold step, lookupRun, startedEmpty. cbn. rewrite bool_decide_eq_true_2 by done.
      cbn. reflexivity. }
    unfold faultRun, settleRun, removeRun, emit, setRuns, startedEmpty. cbn.
    rewrite bool_decide_eq_true_2 by done. cbn.
    rewrite <- app_assoc. done.
Qed.

(** C6, at the failing input. Legacy protocol: two sets are submitted before
    the coordinator runs anything, so two runs are queued. The first run
    captures the second set and installs it. The second run starts with
    no pending set and faults; the adapter keeps its flag set, and a later
    submission starts no run and queues none. *)
Theorem queued_run_without_pending_set_faults :
  ∃ w, exec nextPosition queuedTwice (sampleWorld false) = Some w ∧
    captures (trace w) = [Some [breakpointAt 20 None]; None] ∧
    In (RunFinished 0) (trace w) ∧
    In (RunFaulted 1) (trace w) ∧
    runs w = [] ∧ queued w = 0%nat ∧
    isSyncingBreakpoints (adapter w) = true ∧
    ∃ w', step nextPosition (Submit [breakpointAt 30 None]) w = Some w' ∧
          trace w' = trace w ∧ runs w' = [] ∧ queued w' = 0%nat ∧
          desiredBreakpoints (adapter w') = Some [breakpointAt 30 None].
Proof.
  eexists. split; [vm_compute; reflexivity|].
  split; [reflexivity|]. split; [in_list|]. split; [in_list|].
  repeat split. eexists. repeat split.
Qed.

(** ** Two submissions back to back *)

(** The new protocol: the first run captures the first set; the second set
    is captured by the run that follows, and the installed set agrees with
    it in the end. *)
Example back_to_back_new_protocol :
  let w := run [ Submit [breakpointAt 10 None]; Submit [breakpointAt 20 None];
                 Continue 0; PositionsSettle 0 (Some ()); AdditionSettlesNew 0 0 true;
                 Continue 0; DeletionSettles 1 0 true; Continue 1;
                 PositionsSettle 1 (Some ()); AdditionSettlesNew 1 0 true; Continue 1 ]
             (sampleWorld true) in
  captures (trace w) = [Some [breakpointAt 10 None]; Some [breakpointAt 20 None]] ∧
  installedKeys (currentBreakpoints (adapter w)) = desiredKeys [breakpointAt 20 None] ∧
  idle w.
Proof. repeat split. Qed.

(** The legacy protocol: the only set that a run captures is the second. *)
Example back_to_back_legacy_protocol :
  let w := run (take 6 queuedTwice) (sampleWorld false) in
  captures (trace w) = [Some [breakpointAt 20 None]] ∧
  installedKeys (currentBreakpoints (adapter w)) = desiredKeys [breakpointAt 20 None] ∧
  queued w = 1%nat.
Proof. repeat split. Qed.

End Scenarios.

(** * Further properties of the configuration parser *)

(** ** More on the string primitives *)

Module JSProperties.
Import JS JSFacts.

Lemma append_assoc (a b c : string) : (a +:+ b) +:+ c = a +:+ b +:+ c.
Proof.
  induction a as [|x r IH]; [now rewrite !append_nil|].
  now rewrite !append_cons, IH.
Qed.

Lemma substring_all (s : string) : substring 0 (String.length s) s = s.
Proof. induction s as [|y q IH]; [reflexivity|]. cbn. now rewrite IH. Qed.

Lemma substr_split (n : nat) (s : string) :
  substrTo n s +:+ substrFrom n s = s.
Proof.
  unfold substrTo, substrFrom. revert s.
  induction n as [|n IH]; intros s.
  - rewrite Nat.sub_0_r, substring_all. now destruct s.
  - destruct s as [|x r]; [reflexivity|].
    cbn [substring String.length Nat.sub]. rewrite append_cons. f_equal. apply IH.
Qed.

Lemma substrTo_prefix (prefix s : string) :
  String.eqb (substrTo (String.length prefix) s) prefix = true →
  s = prefix +:+ substrFrom (String.length prefix) s.
Proof.
  intros H%String.eqb_eq. rewrite <- H at 1. symmetry. apply substr_split.
Qed.

(** [lastIndexOf] finds the last occurrence. *)
Lemma lastIndexOf_none (c : ascii) (s : string) :
  lastIndexOf c s < 0 ↔ occurs c s = false.
Proof.
  induction s as [|x r IH]; cbn; [split; [done | lia]|].
  destruct (0 <=? lastIndexOf c r) eqn:E.
  - apply Z.leb_le in E. split; [lia|].
    intros [_ H]%orb_false_iff. apply IH in H. lia.
  - apply Z.leb_gt in E. apply IH in E. rewrite E, orb_false_r.
    destruct (Ascii.eqb x c); split; (lia || done).
Qed.

Lemma lastIndexOf_bounds (c : ascii) (s : string) :
  -1 ≤ lastIndexOf c s < Z.of_nat (String.length s).
Proof.
  induction s as [|x r IH]; cbn [lastIndexOf String.length]; [lia|].
  destruct (0 <=? lastIndexOf c r) eqn:E; [lia|].
  destruct (Ascii.eqb x c); lia.
Qed.

Lemma lastIndexOf_spec (c : ascii) (s : string) :
  0 ≤ lastIndexOf c s →
  ∃ rest, s = substrTo (Z.to_nat (lastIndexOf c s)) s +:+ String c rest ∧
          occurs c rest = false.
Proof.
  induction s as [|x r IH]; cbn [lastIndexOf]; [lia|].
  destruct (0 <=? lastIndexOf c r) eqn:E.
  - apply Z.leb_le in E. intros _. destruct (IH E) as (rest & Hr & Ho).
    exists rest. split; [|exact Ho].
    replace (Z.to_nat (lastIndexOf c r + 1)) with (S (Z.to_nat (lastIndexOf c r))) by lia.
    unfold substrTo in *. cbn [substring]. rewrite append_cons. now f_equal.
  - apply Z.leb_gt in E. destruct (Ascii.eqb x c) eqn:Ex; [|lia].
    intros _. apply Ascii.eqb_eq in Ex as ->. exists r.
    split; [reflexivity|]. now apply lastIndexOf_none.
Qed.

Lemma dropLast_spec (c : ascii) (s : string) :
  endsWith c s = true → s = dropLast s +:+ String c EmptyString.
Proof.
  induction s as [|x r IH]; cbn; [discriminate|].
  destruct r as [|y q].
  - now intros ->%Ascii.eqb_eq.
  - intros H. rewrite append_cons. f_equal. now apply IH.
Qed.

Lemma replaceAll_occurs (c d : ascii) (s : string) :
  c ≠ d → occurs c (replaceAll c d s) = false.
Proof.
  intros Hcd. induction s as [|x r IH]; cbn; [reflexivity|]. rewrite IH, orb_false_r.
  destruct (Ascii.eqb x c) eqn:E; [|exact E].
  apply Ascii.eqb_neq. congruence.
Qed.

Lemma replaceAll_length (c d : ascii) (s : string) :
  String.length (replaceAll c d s) = String.length s.
Proof. induction s as [|x r IH]; cbn; [reflexivity | now rewrite IH]. Qed.

Lemma replaceAll_same (c d : ascii) (s : string) :
  occurs c s = false → replaceAll c d s = s.
Proof.
  induction s as [|x r IH]; cbn; [reflexivity|].
  intros [-> H]%orb_false_iff. now rewrite IH.
Qed.

Lemma replaceFirst_none (c : ascii) (by_ s : string) :
  occurs c s = false → replaceFirst c by_ s = s.
Proof.
  induction s as [|x r IH]; cbn; [reflexivity|].
  intros [-> H]%orb_false_iff. now rewrite IH.
Qed.

Lemma replaceFirst_first (c : ascii) (by_ pre post : string) :
  occurs c pre = false →
  replaceFirst c by_ (pre +:+ String c post) = pre +:+ by_ +:+ post.
Proof.
  induction pre as [|x r IH]; cbn.
  - intros _. rewrite !append_nil. cbn. now rewrite Ascii.eqb_refl.
  - intros [E H]%orb_false_iff. rewrite !append_cons. cbn. rewrite E. now rewrite IH.
Qed.

Lemma first_split_append (c : ascii) (a b : string) :
  occurs c a = false → first (split c (a +:+ String c b)) = a.
Proof.
  unfold first. induction a as [|x r IH]; cbn.
  - intros _. rewrite append_nil. cbn. now rewrite Ascii.eqb_refl.
  - intros [E H]%orb_false_iff. rewrite append_cons. cbn. rewrite E.
    specialize (IH H). destruct (split c (r +:+ String c b)) as [|h t] eqn:Es.
    + now destruct (split_nonempty c (r +:+ String c b)).
    + cbn in *. now subst.
Qed.

Lemma occurs_append (c : ascii) (a b : string) :
  occurs c (a +:+ b) = occurs c a || occurs c b.
Proof.
  induction a as [|x r IH]; [reflexivity|].
  rewrite append_cons. cbn. now rewrite IH, orb_assoc.
Qed.

End JSProperties.

(** ** The configuration parser *)

Module ParseConfigurationProperties.
Import JS Configuration ParseConfiguration JSFacts JSProperties.
Import ParseConfigurationFacts.

(** *** Firefox preferences *)


(** *** The Firefox executable *)

Lemma find_app {A} (f : A → bool) (l1 l2 : list A) :
  List.find f (l1 ++ l2) =
    match List.find f l1 with
    | Some x => Some x
    | None => List.find f l2
    end.
Proof.
  induction l1 as [|a l1 IH]; cbn; [reflexivity|]. now destruct (f a).
Qed.

Lemma find_fmap_some {A B} (f : B → bool) (g : A → B) (l : list A) (a : A) :
  In a l → f (g a) = true →
  ∃ a', In a' l ∧ f (g a') = true ∧ List.find f (g <$> l) = Some (g a').
Proof.
  induction l as [|x l IH]; cbn; [done|]. intros Hin Hf.
  destruct (f (g x)) eqn:E; [exists x; auto|].
  destruct Hin as [->|Hin]; [congruence|].
  destruct (IH Hin Hf) as (a' & Ha & Hfa & Hfind). exists a'. auto.
Qed.

(** The platforms on which Firefox is searched for along [PATH]. *)
Definition searchesPath (env : Environment) : Prop :=
  os_platform env = "linux" ∨ os_platform env = "freebsd" ∨ os_platform env = "sunos".

(** X2. Whatever [findFirefoxExecutable] resolves to has passed the
    [isExecutable] test, and when a path is configured it resolves to that
    path or not at all: a configured path is never replaced by an
    installation found elsewhere. *)
Theorem findFirefoxExecutable_sound
    (env : Environment) (configuredPath : option string) (exe : string) :
  findFirefoxExecutable env configuredPath = Resolved exe →
  isExecutable env exe = true ∧
  (truthy configuredPath = true → configuredPath = Some exe).
Proof.
  unfold findFirefoxExecutable, throw.
  destruct configuredPath as [[|c r]|].
  2: { destruct (isExecutable env (String c r)) eqn:E; [|discriminate].
       intros [= <-]. auto. }
  all: match goal with |- context [List.find ?f ?l] =>
         destruct (List.find f l) as [candidate|] eqn:Ef end; try discriminate;
       intros [= <-]; apply find_some in Ef as [_ Hx]; split; [exact Hx | discriminate].
Qed.

Lemma findFirefoxExecutable_sound_witness :
  findFirefoxExecutable sampleEnvironment None = Resolved "/usr/bin/firefox" ∧
  isExecutable sampleEnvironment "/usr/bin/firefox" = true ∧
  (truthy None = true → None = Some "/usr/bin/firefox").
Proof.
  assert (findFirefoxExecutable sampleEnvironment None = Resolved "/usr/bin/firefox")
    as H by (vm_compute; reflexivity).
  split; [exact H|].
  exact (findFirefoxExecutable_sound sampleEnvironment None "/usr/bin/firefox" H).
Defined.

(** X3. On Linux, FreeBSD and SunOS, with no configured path: as soon as
    some directory of [PATH] holds an executable
    [firefox-developer-edition], the Developer Edition of some directory
    of [PATH] is what is resolved, also when a plain [firefox] comes
    earlier in [PATH]. *)
Theorem findFirefoxExecutable_prefers_developer_edition
    (env : Environment) (configuredPath : option string) (dir : string) :
  searchesPath env → truthy configuredPath = false →
  In dir (split ":" (env_PATH env)) →
  isExecutable env (path_join env dir "firefox-developer-edition") = true →
  ∃ dir', In dir' (split ":" (env_PATH env)) ∧
    isExecutable env (path_join env dir' "firefox-developer-edition") = true ∧
    findFirefoxExecutable env configuredPath =
      Resolved (path_join env dir' "firefox-developer-edition").
Proof.
  intros Hos Hp Hdir Hexe.
  destruct (find_fmap_some (isExecutable env)
              (λ d, path_join env d "firefox-developer-edition") _ dir Hdir Hexe)
    as (dir' & Hin & Hx & Hfind).
  exists dir'. split; [exact Hin|]. split; [exact Hx|].
  unfold findFirefoxExecutable.
  assert (bool_decide (os_platform env = "linux") ||
          bool_decide (os_platform env = "freebsd") ||
          bool_decide (os_platform env = "sunos") = true) as ->.
  { destruct Hos as [H|[H|H]]; rewrite H; reflexivity. }
  destruct configuredPath as [[|c r]|]; try discriminate;
    now rewrite find_app, Hfind.
Qed.

(** A machine with a plain Firefox early in [PATH] and a Developer Edition
    later. *)
Definition twoInstallations : Environment :=
  {| isExecutable := λ p, String.eqb p "/usr/bin/firefox" ||
                          String.eqb p "/opt/bin/firefox-developer-edition";
     os_platform := "linux";
     env_PATH := "/usr/bin:/opt/bin";
     path_join := λ a b, a +:+ "/" +:+ b;
     path_isAbsolute := λ p, match p with String "/" _ => true | _ => false end;
     os_tmpdir := "/tmp";
     uuid_v4 := "110ec58a-a0f2-4ac4-8393-c866d813b8d1";
     isWindowsPlatform := false;
     finder_getPath := λ name, Resolved ("/home/me/.mozilla/firefox/" +:+ name);
     findAddonId := λ _, Resolved (Some "{6c1a6b5a}");
     normalizePath := λ p, p;
     isAbsoluteUrl := λ _, false;
     minimatch_makeRe := λ glob, match glob with
                                 | EmptyString => None
                                 | _ => Some {| regexSource := glob |}
                                 end |}.

Lemma findFirefoxExecutable_prefers_developer_edition_witness :
  (searchesPath twoInstallations ∧ truthy None = false ∧
   In "/opt/bin" (split ":" (env_PATH twoInstallations)) ∧
   isExecutable twoInstallations
     (path_join twoInstallations "/opt/bin" "firefox-developer-edition") = true) ∧
  ∃ dir', In dir' (split ":" (env_PATH twoInstallations)) ∧
    isExecutable twoInstallations
      (path_join twoInstallations dir' "firefox-developer-edition") = true ∧
    findFirefoxExecutable twoInstallations None =
      Resolved (path_join twoInstallations dir' "firefox-developer-edition").
Proof.
  assert (searchesPath twoInstallations) as H1 by (left; reflexivity).
  assert (In "/opt/bin" (split ":" (env_PATH twoInstallations))) as H2
    by (right; left; reflexivity).
  assert (isExecutable twoInstallations
            (path_join twoInstallations "/opt/bin" "firefox-developer-edition") = true)
    as H3 by (vm_compute; reflexivity).
  split; [exact (conj H1 (conj eq_refl (conj H2 H3)))|].
  exact (findFirefoxExecutable_prefers_developer_edition twoInstallations None
           "/opt/bin" H1 eq_refl H2 H3).
Defined.



(** *** The profile *)

(** The directory in which a session without [keepProfileChanges] runs. *)
Definition temporaryProfileDir (env : Environment) : string :=
  path_join env (os_tmpdir env) ("vscode-firefox-debug-profile-" +:+ uuid_v4 env).

(** The profile directory that the configuration points to: [profileDir]
    itself, or what the profile finder gives for [profile]. *)
Definition configuredProfileDir (env : Environment) (c : LaunchConfiguration)
    (dir : option string) : Prop :=
  if truthy (profileDir c) then dir = profileDir c
  else match profile c with
       | Some (String x r) =>
           ∃ found, finder_getPath env (String x r) = Resolved found ∧ dir = Some found
       | _ => dir = None
       end.

(** X5. When the profile options are accepted: with [keepProfileChanges]
    Firefox runs in the configured profile directory itself, nothing is
    left to copy from and no temporary directory is recorded; without it
    Firefox runs in a fresh temporary directory, which is recorded (once,
    at the end of [tmpDirs]) for removal, and the configured profile
    directory is only the source to copy from. *)
Theorem parseProfileConfiguration_outcome
    (env : Environment) (c : LaunchConfiguration) (tmpDirs : list string)
    (dir : string) (source : option string) (tmpDirs' : list string) :
  parseProfileConfiguration env c tmpDirs = Resolved (dir, source, tmpDirs') →
  if truthyBool (keepProfileChanges c)
  then configuredProfileDir env c (Some dir) ∧ source = None ∧ tmpDirs' = tmpDirs
  else dir = temporaryProfileDir env ∧ configuredProfileDir env c source ∧
       tmpDirs' = tmpDirs ++ [dir].
Proof.
  unfold parseProfileConfiguration, configuredProfileDir, findFirefoxProfileDir,
    temporaryProfileDir, throw.
  destruct (truthy (profileDir c)) eqn:Hd.
  - destruct (truthy (profile c)); cbn; [discriminate|].
    destruct (truthyBool (keepProfileChanges c)).
    + destruct (profileDir c) as [[|x r]|]; try discriminate. now intros [= <- <- <-].
    + now intros [= <- <- <-].
  - destruct (profile c) as [[|x r]|]; cbn.
    2: destruct (finder_getPath env (String x r)) as [found|e]; cbn; [|discriminate].
    all: destruct (truthyBool (keepProfileChanges c)); try discriminate.
    2: destruct found as [|y q]; [discriminate|].
    all: intros [= <- <- <-]; cbn; eauto.
Qed.

(** A launch configuration that keeps the changes of the profile [dev]. *)
Definition keepDev : LaunchConfiguration :=
  {| l_common := emptyCommon; file := Some "/home/me/app/index.html";
     firefoxExecutable := None;
     profileDir := None; profile := Some "dev"; keepProfileChanges := Some true;
     preferences := None; l_port := None; firefoxArgs := Some ["-devtools"];
     timeout := None; reAttach := Some true |}.

Lemma parseProfileConfiguration_outcome_witness :
  parseProfileConfiguration twoInstallations keepDev [] =
    Resolved ("/home/me/.mozilla/firefox/dev", None, []) ∧
  configuredProfileDir twoInstallations keepDev (Some "/home/me/.mozilla/firefox/dev") ∧
  (None : option string) = None ∧ [] = ([] : list string).
Proof.
  assert (parseProfileConfiguration twoInstallations keepDev [] =
            Resolved ("/home/me/.mozilla/firefox/dev", None, [])) as H
    by (vm_compute; reflexivity).
  split; [exact H|].
  exact (parseProfileConfiguration_outcome twoInstallations keepDev []
           "/home/me/.mozilla/firefox/dev" None [] H).
Defined.

(** *** The web root *)

(** X6. [parseWebRootConfiguration] is rejected in exactly three cases: a
    [url] with neither [webRoot] nor [pathMappings]; a [url] with a
    [webRoot] that is neither an absolute path nor an absolute URL; a
    [webRoot] without [url]. *)
Theorem parseWebRootConfiguration_rejected
    (env : Environment) (request : string) (c : CommonConfiguration)
    (mappings : list PathMapping) :
  isRejected (parseWebRootConfiguration env request c mappings) = true ↔
  (truthy (c_url c) = true ∧ truthy (webRoot c) = false ∧ pathMappings c = None) ∨
  (truthy (c_url c) = true ∧ truthy (webRoot c) = true ∧
   ∃ root, webRoot c = Some root ∧
           path_isAbsolute env root = false ∧ isAbsoluteUrl env root = false) ∨
  (truthy (c_url c) = false ∧ truthy (webRoot c) = true).
Proof.
  unfold parseWebRootConfiguration, throw.
  destruct (c_url c) as [[|x r]|]; cbn [truthy].
  1, 3: destruct (truthy (webRoot c)); cbn; split;
    [ tauto | intros [(? & _)|[(? & _)|(_ & ?)]]; done
    | discriminate | intros [(? & _)|[(? & _)|(_ & ?)]]; done ].
  destruct (webRoot c) as [[|y q]|] eqn:Hw; cbn [truthy].
  2: { destruct (path_isAbsolute env (String y q)) eqn:Ha,
         (isAbsoluteUrl env (String y q)) eqn:Hu; cbn; split;
         try discriminate; try (intros _; right; left; eauto 10);
         intros [(_ & ? & _)|[(_ & _ & root & [= <-] & Hp & Hq)|(? & _)]]; congruence. }
  all: destruct (pathMappings c); cbn; split; try discriminate; try tauto;
    intros [(_ & _ & ?)|[(_ & ? & _)|(? & _)]]; done.
Qed.

(** What [parseWebRootConfiguration] has done to the path mappings when it
    resolved with the web root [root]. *)
Definition webRootMappings (env : Environment) (c : CommonConfiguration)
    (mappings : list PathMapping) (root : option string)
    (mappings' : list PathMapping) : Prop :=
  match root with
  | None => mappings' = mappings
  | Some root =>
      (∃ configured, webRoot c = Some configured ∧
         root = if isAbsoluteUrl env configured then configured
                else normalizePath env configured) ∧
      ∃ rewritten webRootUrl configUrl,
        mappings' = rewritten ++ [{| url := UrlString webRootUrl; path := Some root |}] ∧
        c_url c = Some configUrl ∧
        (lastIndexOf "/" configUrl ≤ 7 → webRootUrl = configUrl) ∧
        (7 < lastIndexOf "/" configUrl →
         ∃ segment, configUrl = webRootUrl +:+ String "/" segment ∧
                    occurs "/" segment = false) ∧
        length rewritten = length mappings ∧
        ∀ i m, mappings !! i = Some m →
          ∃ m', rewritten !! i = Some m' ∧ url m' = url m ∧
            (∀ rest, path m = Some ("${webRoot}" +:+ rest) →
                     path m' = Some (root +:+ rest)) ∧
            ((∀ rest, path m ≠ Some ("${webRoot}" +:+ rest)) → m' = m)
  end.

(** X7. When [parseWebRootConfiguration] resolves without a web root the
    path mappings are untouched. When it resolves with a web root, this is
    the configured [webRoot] (normalized unless it is an absolute URL);
    every mapping keeps its place and its url, a path that starts with
    [${webRoot}] has this prefix replaced by the web root and every other
    mapping is unchanged; and one mapping is appended, from the configured
    url cut before its last slash (the whole url when that slash is among
    its first eight characters) to the web root. *)
Theorem parseWebRootConfiguration_mappings
    (env : Environment) (request : string) (c : CommonConfiguration)
    (mappings : list PathMapping) (root : option string) (mappings' : list PathMapping) :
  parseWebRootConfiguration env request c mappings = Resolved (root, mappings') →
  webRootMappings env c mappings root mappings'.
Proof.
  unfold parseWebRootConfiguration, webRootMappings, throw.
  destruct (c_url c) as [[|x r]|].
  1, 3: destruct (truthy (webRoot c)); [discriminate | now intros [= <- <-]].
  remember (String x r) as configUrl eqn:Hurl. clear Hurl.
  destruct (webRoot c) as [[|y q]|].
  1, 3: destruct (pathMappings c); [now intros [= <- <-] | discriminate].
  destruct (negb (path_isAbsolute env (String y q)) &&
            negb (isAbsoluteUrl env (String y q))); [discriminate|].
  intros [= <- <-]. split; [eauto|].
  eexists _, _, _. split; [reflexivity|]. split; [reflexivity|].
  split; [|split; [|split]].
  - intros Hle. apply Z.ltb_ge in Hle. now rewrite Hle.
  - intros Hlt. pose proof Hlt as Hlt'. apply Z.ltb_lt in Hlt' as ->.
    apply lastIndexOf_spec. lia.
  - now rewrite length_fmap.
  - intros i m Hm. rewrite list_lookup_fmap, Hm. cbn. eexists. split; [reflexivity|].
    destruct (path m) as [to|] eqn:Hto.
    + destruct (String.eqb (substrTo 10 to) "${webRoot}") eqn:E.
      * cbn. split; [reflexivity|]. split.
        -- intros rest [= ->]. do 2 f_equal.
           unfold substrFrom. rewrite !append_cons, append_nil.
           cbn [String.length Nat.sub substring]. rewrite Nat.sub_0_r.
           apply substring_all.
        -- intros Hno. destruct (Hno (substrFrom 10 to)). f_equal.
           exact (substrTo_prefix "${webRoot}" to E).
      * split; [reflexivity|]. split; [|done].
        intros rest [= ->]. unfold substrTo in E.
        rewrite !append_cons, append_nil in E. cbn in E.
        destruct rest; discriminate.
    + split; [reflexivity|]. split; [discriminate | done].
Qed.

(** A web application served from [localhost:8080], with one mapping below
    the web root and one elsewhere. *)
Definition webApp : CommonConfiguration :=
  {| c_url := Some "http://localhost:8080/app/index.html";
     webRoot := Some "/home/me/app";
     reloadOnAttach := None;
     reloadOnChange := Some (ReloadPath "/home/me/app/dist");
     clearConsoleOnReload := None;
     pathMappings :=
       Some [ {| url := UrlString "http://localhost:8080/lib";
                 path := Some "${webRoot}/vendor/" |};
              {| url := UrlString "http://cdn.example.org/";
                 path := None |} ];
     skipFiles := Some ["**/node_modules/**"; EmptyString];
     showConsoleCallLocation := None; addonPath := None; popupAutohideButton := None;
     sourceMaps := None; liftAccessorsFromPrototypes := None |}.

Lemma parseWebRootConfiguration_mappings_witness :
  let mappings := harmonizeTrailingSlashes <$> default [] (pathMappings webApp) in
  let mappings' :=
    [ {| url := UrlString "http://localhost:8080/lib/";
         path := Some "/home/me/app/vendor/" |};
      {| url := UrlString "http://cdn.example.org/"; path := None |};
      {| url := UrlString "http://localhost:8080/app"; path := Some "/home/me/app" |} ] in
  parseWebRootConfiguration twoInstallations "launch" webApp mappings =
    Resolved (Some "/home/me/app", mappings') ∧
  webRootMappings twoInstallations webApp mappings (Some "/home/me/app") mappings'.
Proof.
  intros mappings mappings'.
  assert (parseWebRootConfiguration twoInstallations "launch" webApp mappings =
            Resolved (Some "/home/me/app", mappings')) as H by (vm_compute; reflexivity).
  split; [exact H|].
  exact (parseWebRootConfiguration_mappings twoInstallations "launch" webApp mappings
           (Some "/home/me/app") mappings' H).
Defined.

(** *** Reloading, skipped files and add-ons *)

(** A normalized reload configuration, written as a detailed one. *)
Definition detailed (n : NormalizedReloadConfiguration) : ReloadConfiguration :=
  ReloadDetailed {| watch := Several (n_watch n);
                    ignore := Some (Several (n_ignore n));
                    debounce := Some (DebounceNumber (n_debounce n)) |}.

(** The paths that a reload configuration watches and ignores, as
    configured. *)
Definition watched (rc : ReloadConfiguration) : list string :=
  match rc with
  | ReloadPath p => [p]
  | ReloadPaths l => l
  | ReloadDetailed d => match watch d with Single p => [p] | Several l => l end
  end.

Definition ignored (rc : ReloadConfiguration) : list string :=
  match rc with
  | ReloadDetailed d =>
      match ignore d with
      | Some (Single p) => [p]
      | Some (Several l) => l
      | None => []
      end
  | _ => []
  end.

(** X8. Every notation of [reloadOnChange] (a path, a list of paths, a
    detailed object with single paths or lists) is normalized to the watched
    and the ignored paths in their order, each normalized, with a debounce
    time of 100 ms unless the detailed notation is used; and the result is
    canonical: when
    [normalizePath] is idempotent, the result written back as a detailed
    configuration is normalized to itself. *)
Theorem parseReloadConfiguration_canonical
    (env : Environment) (rc : ReloadConfiguration) :
  (∀ p, normalizePath env (normalizePath env p) = normalizePath env p) →
  ∃ n, parseReloadConfiguration env (Some rc) = Some n ∧
       n_watch n = normalizePath env <$> watched rc ∧
       n_ignore n = normalizePath env <$> ignored rc ∧
       ((∀ d, rc ≠ ReloadDetailed d) → n_debounce n = 100) ∧
       parseReloadConfiguration env (Some (detailed n)) = Some n.
Proof.
  intros Hidem. unfold parseReloadConfiguration, detailed.
  assert (∀ l : list string,
            normalizePath env <$> (normalizePath env <$> l) = normalizePath env <$> l)
    as Hl.
  { intros l. rewrite <- list_fmap_compose. apply list_fmap_ext.
    intros _ p _. apply Hidem. }
  destruct rc as [p|l|[w i d]]; cbn.
  - eexists. split; [reflexivity|]. cbn. now rewrite Hidem.
  - eexists. split; [reflexivity|]. cbn. now rewrite Hl.
  - eexists. split; [reflexivity|]. cbn.
    split; [now destruct w|]. split; [now destruct i as [[|]|]|].
    split; [intros H; now destruct (H {| watch := w; ignore := i; debounce := d |})|].
    now rewrite !Hl.
Qed.

Lemma parseReloadConfiguration_canonical_witness :
  (∀ p, normalizePath twoInstallations (normalizePath twoInstallations p)
        = normalizePath twoInstallations p) ∧
  ∃ n, parseReloadConfiguration twoInstallations (Some (ReloadPath "/home/me/app/dist"))
       = Some n ∧
       n_watch n = normalizePath twoInstallations <$> ["/home/me/app/dist"] ∧
       n_ignore n = normalizePath twoInstallations <$> [] ∧
       ((∀ d, ReloadPath "/home/me/app/dist" ≠ ReloadDetailed d) → n_debounce n = 100) ∧
       parseReloadConfiguration twoInstallations (Some (detailed n)) = Some n.
Proof.
  assert (∀ p, normalizePath twoInstallations (normalizePath twoInstallations p)
               = normalizePath twoInstallations p) as H by reflexivity.
  split; [exact H|].
  exact (parseReloadConfiguration_canonical twoInstallations
           (ReloadPath "/home/me/app/dist") H).
Defined.

(** X9. An invalid glob in [skipFiles] is left out and nothing else: the
    files to skip are exactly the regular expressions of the valid globs,
    so there are at most as many as globs, and as many when every glob is
    valid. *)
Theorem parseSkipFilesConfiguration_valid_globs
    (env : Environment) (c : CommonConfiguration) :
  let globs := default [] (skipFiles c) in
  (∀ regExp, In regExp (parseSkipFilesConfiguration env c) ↔
     ∃ glob, In glob globs ∧ minimatch_makeRe env glob = Some regExp) ∧
  (length (parseSkipFilesConfiguration env c) ≤ length globs)%nat ∧
  ((∀ glob, In glob globs → is_Some (minimatch_makeRe env glob)) →
   Some <$> parseSkipFilesConfiguration env c = minimatch_makeRe env <$> globs).
Proof.
  unfold parseSkipFilesConfiguration. destruct (skipFiles c) as [globs|]; cbn.
  2: { split; [|split; [lia | done]]. intros r. split; [done | now intros (? & [] & _)]. }
  split; [|split].
  - intros r. rewrite in_flat_map. split; intros (glob & Hin & H); exists glob;
      (split; [exact Hin|]); destruct (minimatch_makeRe env glob) as [r'|];
      cbn in *; try done; [destruct H as [->|[]]; done | left; congruence].
  - induction globs as [|g globs IH]; cbn; [lia|].
    rewrite length_app. destruct (minimatch_makeRe env g); cbn; lia.
  - induction globs as [|g globs IH]; cbn; [done|]. intros Hall.
    destruct (Hall g (or_introl eq_refl)) as [r ->]. cbn. f_equal. apply IH. auto.
Qed.

(** What [parseAddonConfiguration] has added to the path mappings. *)
Definition addonMappings (addonPath : string) (addonId : option string)
    (added : list PathMapping) : Prop :=
  ∃ sanitized,
    (if endsWith "/" addonPath then addonPath = sanitized +:+ "/"
     else addonPath = sanitized) ∧
    Forall (λ m, path m = Some sanitized ∧ ∃ r, url m = UrlRegExp r) added ∧
    length added = if truthy addonId then 2%nat else 1%nat.


(** An extension under development. *)
Definition webExtension : CommonConfiguration :=
  {| c_url := None; webRoot := None; reloadOnAttach := Some true;
     reloadOnChange := None; clearConsoleOnReload := Some true;
     pathMappings := None; skipFiles := None;
     showConsoleCallLocation := None;
     addonPath := Some "/home/me/extension/"; popupAutohideButton := None;
     sourceMaps := Some server; liftAccessorsFromPrototypes := None |}.


(** The packed extension is matched with the braces of its id escaped. *)
Example parseAddonConfiguration_sample :
  (mappings ← parseAddonConfiguration twoInstallations webExtension [];
   Resolved mappings.2) =
    Resolved
      [ {| url := UrlRegExp {| regexSource := "^moz-extension://[0-9a-f-]*(/.*)$" |};
           path := Some "/home/me/extension" |};
        {| url := UrlRegExp
                    {| regexSource := "^jar:file:.*/extensions/%7B6c1a6b5a%7D.xpi!(/.*)$" |};
           path := Some "/home/me/extension" |} ].
Proof. vm_compute. reflexivity. Qed.

(** *** The whole configuration *)

(** The port of the debugger server: the configured one, 6000 when none
    (or 0) is configured. *)
Definition debuggerPort (config : Config) : Z :=
  match port config with
  | Some n => if n =? 0 then 6000 else n
  | None => 6000
  end.

(** What Firefox is asked to open: the file, else the url, else a blank
    page for an add-on. *)
Definition launchTarget (env : Environment) (c : LaunchConfiguration)
    (target : string) : Prop :=
  match file c with
  | Some (String x r) =>
      path_isAbsolute env (String x r) = true ∧
      target = if isWindowsPlatform env
               then "file:///" +:+ replaceAll "\" "/" (String x r)
               else "file://" +:+ String x r
  | _ =>
      match c_url (l_common c) with
      | Some (String x r) => target = String x r
      | _ => truthy (addonPath (l_common c)) = true ∧ target = "about:blank"
      end
  end.

Lemma parseLaunch_resolved (env : Environment) (c : LaunchConfiguration) (port : Z)
    (attach : option ParsedAttachConfiguration) (launch : ParsedLaunchConfiguration) :
  parseLaunch env c port = Resolved (attach, launch) →
  ∃ exe dir source tmp target,
    findFirefoxExecutable env (firefoxExecutable c) = Resolved exe ∧
    parseProfileConfiguration env c [] = Resolved (dir, source, tmp) ∧
    launchTarget env c target ∧
    attach = (if truthyBool (reAttach c)
              then Some {| pa_host := "localhost"; pa_port := port;
                           reloadTabs :=
                             negb (bool_decide (reloadOnAttach (l_common c) = Some false)) |}
              else None) ∧
    launch = {| pl_firefoxExecutable := exe;
                pl_firefoxArgs :=
                  [ "-start-debugger-server"; numberToString port; "-no-remote" ] ++
                  default [] (firefoxArgs c) ++ ["-profile"; dir; target];
                pl_profileDir := dir;
                srcProfileDir := source;
                pl_preferences := createFirefoxPreferences (preferences c);
                tmpDirs := tmp;
                pl_port := port;
                pl_timeout := default 5 (timeout c);
                detached := truthyBool (reAttach c) |}.
Proof.
  unfold parseLaunch, launchTarget, throw.
  destruct (findFirefoxExecutable env (firefoxExecutable c)) as [exe|]; cbn;
    [|discriminate].
  destruct (parseProfileConfiguration env c []) as [[[dir source] tmp]|]; cbn;
    [|discriminate].
  intros H. exists exe, dir, source, tmp.
  destruct (file c) as [[|x r]|].
  2: { destruct (path_isAbsolute env (String x r)); cbn in H; [|discriminate].
       injection H as <- <-. eexists. split; [reflexivity|]. split; [reflexivity|].
       split; [done|]. split; [reflexivity|]. f_equal.
       now rewrite <- !app_assoc. }
  all: destruct (c_url (l_common c)) as [[|y q]|];
    try destruct (truthy (addonPath (l_common c))); cbn in H; try discriminate;
    injection H as <- <-; eexists; (split; [reflexivity|]); (split; [reflexivity|]);
    (split; [done|]); (split; [reflexivity|]); f_equal; now rewrite <- !app_assoc.
Qed.

(** The mappings that [parseConfiguration] starts from and those that it
    appends after the web root is known. *)
Definition harmonized (config : Config) : list PathMapping :=
  match pathMappings (common config) with
  | Some mappings => harmonizeTrailingSlashes <$> mappings
  | None => []
  end.

Definition fallbackMappings (env : Environment) : list PathMapping :=
  [ {| url := UrlString (if isWindowsPlatform env then "webpack:///" else "webpack://");
       path := Some EmptyString |};
    {| url := UrlString (if isWindowsPlatform env then "file:///" else "file://");
       path := Some EmptyString |} ].

Definition webpackMappings (root : option string) : list PathMapping :=
  match root with
  | Some (String c r) =>
      let webRoot := String c r in
      [ {| url := UrlString "webpack:///~/"; path := Some (webRoot +:+ "/node_modules/") |};
        {| url := UrlString "webpack:///./~/"; path := Some (webRoot +:+ "/node_modules/") |};
        {| url := UrlString "webpack:///./"; path := Some (webRoot +:+ "/") |};
        {| url := UrlString "webpack:///src/"; path := Some (webRoot +:+ "/src/") |} ]
  | _ => []
  end.

Lemma bind_resolved_inv {A B} (r : Result A) (k : A → Result B) (b : B) :
  r ≫= k = Resolved b → ∃ a, r = Resolved a ∧ k a = Resolved b.
Proof. destruct r as [a|e]; [eauto | discriminate]. Qed.

Lemma debuggerPort_eq (config : Config) :
  (if truthyNumber (port config) then default 6000 (port config) else 6000)
  = debuggerPort config.
Proof.
  unfold debuggerPort. destruct (port config) as [n|]; [|reflexivity].
  cbn. now destruct (n =? 0).
Qed.

Lemma parseConfiguration_resolved (env : Environment) (config : Config)
    (parsed : ParsedConfiguration) :
  parseConfiguration env config = Resolved parsed →
  ∃ withAddon root withRoot,
    match config with
    | Launch c =>
        ∃ launch, parseLaunch env c (debuggerPort config) =
                    Resolved (p_attach parsed, launch) ∧
                  p_launch parsed = Some launch
    | Attach c =>
        p_attach parsed =
          Some {| pa_host := orString (host c) "localhost";
                  pa_port := debuggerPort config;
                  reloadTabs := truthyBool (reloadOnAttach (a_common c)) |} ∧
        p_launch parsed = None
    end ∧
    (if truthy (addonPath (common config))
     then ∃ addon, parseAddonConfiguration env (common config) (harmonized config)
                     = Resolved (addon, withAddon) ∧
                   p_addon parsed = Some addon
     else withAddon = harmonized config ∧ p_addon parsed = None) ∧
    parseWebRootConfiguration env (request config) (common config) withAddon
      = Resolved (root, withRoot) ∧
    p_pathMappings parsed = withRoot ++ webpackMappings root ++ fallbackMappings env.
Proof.
  unfold parseConfiguration. rewrite debuggerPort_eq.
  change (match pathMappings (common config) with
          | Some mappings => harmonizeTrailingSlashes <$> mappings
          | None => []
          end) with (harmonized config).
  intros H.
  apply bind_resolved_inv in H as ([attach launch] & Hfirst & H). cbv beta iota in H.
  apply bind_resolved_inv in H as ([addon withAddon] & Haddon & H). cbv beta iota in H.
  apply bind_resolved_inv in H as ([root withRoot] & Hroot & H). cbv beta iota in H.
  injection H as <-. cbn [p_attach p_launch p_addon p_pathMappings].
  exists withAddon, root, withRoot. split; [|split; [|split]].
  - destruct config as [c|c].
    + apply bind_resolved_inv in Hfirst as ([attach' l] & HL & H). cbv beta iota in H.
      injection H as <- <-. eauto.
    + now injection Hfirst as <- <-.
  - destruct (truthy (addonPath (common config))).
    + apply bind_resolved_inv in Haddon as ([addon' m] & HA & H). cbv beta iota in H.
      injection H as <- <-. eauto.
    + now injection Haddon as <- <-.
  - exact Hroot.
  - unfold webpackMappings, fallbackMappings.
    destruct root as [[|x r]|]; rewrite <- ?app_assoc; reflexivity.
Qed.

(** X11. The command line of a launch, in this order: the debugger server
    on the port of the session, [-no-remote], the configured arguments, the
    profile directory, and last the one thing to open: the configured file
    as a [file:] URL when there is one (it must be an absolute path; on
    Windows every backslash becomes a slash), else the configured url,
    else a blank page for the add-on. *)
Theorem parseConfiguration_launch_arguments
    (env : Environment) (c : LaunchConfiguration) (parsed : ParsedConfiguration) :
  parseConfiguration env (Launch c) = Resolved parsed →
  ∃ launch target,
    p_launch parsed = Some launch ∧
    pl_firefoxArgs launch =
      [ "-start-debugger-server"; numberToString (debuggerPort (Launch c)); "-no-remote" ] ++
      default [] (firefoxArgs c) ++ ["-profile"; pl_profileDir launch; target] ∧
    launchTarget env c target ∧
    (isWindowsPlatform env = true → truthy (file c) = true →
     ∃ f, target = "file:///" +:+ f ∧ occurs "\" f = false ∧
          ∃ configured, file c = Some configured ∧
                        String.length f = String.length configured).
Proof.
  intros H. apply parseConfiguration_resolved in H as (m1 & root & m2 & H & _).
  destruct H as (launch & HL & Hlaunch).
  apply parseLaunch_resolved in HL as (exe & dir & source & tmp & target & _ & _ & Ht & _ & ->).
  eexists _, target. split; [exact Hlaunch|]. split; [reflexivity|]. split; [exact Ht|].
  intros Hwin Hfile. unfold launchTarget in Ht.
  destruct (file c) as [[|x r]|]; try discriminate. destruct Ht as [_ ->]. rewrite Hwin.
  eexists. split; [reflexivity|]. split; [now apply replaceAll_occurs|].
  eexists. split; [reflexivity|]. apply replaceAll_length.
Qed.

(** The launch configuration [keepDev] on a Windows machine. *)
Definition windowsMachine : Environment :=
  {| isExecutable := λ p, String.eqb p "C:\Program Files\Mozilla Firefox\firefox.exe";
     os_platform := "win32";
     env_PATH := "C:\Windows";
     path_join := λ a b, a +:+ "\" +:+ b;
     path_isAbsolute := λ p, match p with String _ (String ":" _) => true | _ => false end;
     os_tmpdir := "C:\Temp";
     uuid_v4 := "110ec58a-a0f2-4ac4-8393-c866d813b8d1";
     isWindowsPlatform := true;
     finder_getPath := λ name, Resolved ("C:\Profiles\" +:+ name);
     findAddonId := λ _, Resolved None;
     normalizePath := λ p, p;
     isAbsoluteUrl := λ _, false;
     minimatch_makeRe := λ _, None |}.

Definition openFile : LaunchConfiguration :=
  {| l_common := emptyCommon; file := Some "C:\Users\me\app\index.html";
     firefoxExecutable := None;
     profileDir := None; profile := None; keepProfileChanges := None;
     preferences := None; l_port := Some 6080; firefoxArgs := Some ["-devtools"];
     timeout := None; reAttach := None |}.

Definition openFileParsed : ParsedConfiguration :=
  match parseConfiguration windowsMachine (Launch openFile) with
  | Resolved parsed => parsed
  | Rejected _ =>
      {| p_attach := None; p_launch := None; p_addon := None; p_pathMappings := [];
         filesToSkip := []; p_reloadOnChange := None; p_clearConsoleOnReload := false;
         p_sourceMaps := client; p_showConsoleCallLocation := false;
         p_liftAccessorsFromPrototypes := 0 |}
  end.

Lemma parseConfiguration_launch_arguments_witness :
  parseConfiguration windowsMachine (Launch openFile) = Resolved openFileParsed ∧
  ∃ launch target,
    p_launch openFileParsed = Some launch ∧
    pl_firefoxArgs launch =
      [ "-start-debugger-server"; numberToString (debuggerPort (Launch openFile));
        "-no-remote" ] ++
      default [] (firefoxArgs openFile) ++ ["-profile"; pl_profileDir launch; target] ∧
    launchTarget windowsMachine openFile target ∧
    (isWindowsPlatform windowsMachine = true → truthy (file openFile) = true →
     ∃ f, target = "file:///" +:+ f ∧ occurs "\" f = false ∧
          ∃ configured, file openFile = Some configured ∧
                        String.length f = String.length configured).
Proof.
  assert (parseConfiguration windowsMachine (Launch openFile) = Resolved openFileParsed)
    as H by (vm_compute; reflexivity).
  split; [exact H|].
  exact (parseConfiguration_launch_arguments windowsMachine openFile openFileParsed H).
Defined.

Example parseConfiguration_launch_arguments_sample :
  pl_firefoxArgs <$> p_launch openFileParsed =
    Some [ "-start-debugger-server"; "6080"; "-no-remote"; "-devtools"; "-profile";
           "C:\Temp\vscode-firefox-debug-profile-110ec58a-a0f2-4ac4-8393-c866d813b8d1";
           "file:///C:/Users/me/app/index.html" ].
Proof. vm_compute. reflexivity. Qed.

(** X12. One port for the whole session: the port that Firefox is told to
    listen on (the second argument of its command line), the port recorded
    for the launch and the port that the adapter attaches to are the
    configured port, or 6000 when none or 0 is configured; it is never 0. *)
Theorem parseConfiguration_port
    (env : Environment) (config : Config) (parsed : ParsedConfiguration) :
  parseConfiguration env config = Resolved parsed →
  debuggerPort config ≠ 0 ∧
  (∀ n, port config = Some n → n ≠ 0 → debuggerPort config = n) ∧
  (∀ attach, p_attach parsed = Some attach → pa_port attach = debuggerPort config) ∧
  (∀ launch, p_launch parsed = Some launch →
     pl_port launch = debuggerPort config ∧
     pl_firefoxArgs launch !! 1%nat = Some (numberToString (debuggerPort config))).
Proof.
  intros H. apply parseConfiguration_resolved in H as (m1 & root & m2 & H & _).
  split; [|split].
  - unfold debuggerPort. destruct (port config) as [n|]; [|done].
    destruct (n =? 0) eqn:E; [done|]. now apply Z.eqb_neq.
  - intros n Hn Hne. unfold debuggerPort. rewrite Hn.
    now apply Z.eqb_neq in Hne as ->.
  - destruct config as [c|c].
    + destruct H as (launch & HL & Hlaunch).
      apply parseLaunch_resolved
        in HL as (exe & dir & source & tmp & target & _ & _ & _ & Ha & ->).
      split.
      * intros attach Hattach. rewrite Hattach in Ha.
        destruct (truthyBool (reAttach c)); [|discriminate]. now injection Ha as ->.
      * intros launch. rewrite Hlaunch. now intros [= <-].
    + destruct H as [Ha Hl]. split.
      * intros attach. rewrite Ha. now intros [= <-].
      * intros launch. rewrite Hl. discriminate.
Qed.

Lemma parseConfiguration_port_witness :
  parseConfiguration windowsMachine (Launch openFile) = Resolved openFileParsed ∧
  debuggerPort (Launch openFile) ≠ 0 ∧
  (∀ n, port (Launch openFile) = Some n → n ≠ 0 → debuggerPort (Launch openFile) = n) ∧
  (∀ attach, p_attach openFileParsed = Some attach →
     pa_port attach = debuggerPort (Launch openFile)) ∧
  (∀ launch, p_launch openFileParsed = Some launch →
     pl_port launch = debuggerPort (Launch openFile) ∧
     pl_firefoxArgs launch !! 1%nat =
       Some (numberToString (debuggerPort (Launch openFile)))).
Proof.
  assert (parseConfiguration windowsMachine (Launch openFile) = Resolved openFileParsed)
    as H by (vm_compute; reflexivity).
  split; [exact H|].
  exact (parseConfiguration_port windowsMachine (Launch openFile) openFileParsed H).
Defined.

Lemma parseProfileConfiguration_tmpDirs (env : Environment) (c : LaunchConfiguration)
    (tmp : list string) (dir : string) (source : option string) (tmp' : list string) :
  parseProfileConfiguration env c tmp = Resolved (dir, source, tmp') →
  if truthyBool (keepProfileChanges c) then source = None ∧ tmp' = tmp
  else tmp' = tmp ++ [dir].
Proof.
  unfold parseProfileConfiguration. intros H.
  apply bind_resolved_inv in H as (src & _ & H).
  destruct (truthyBool (keepProfileChanges c)).
  - destruct src as [[|x r]|]; try discriminate. now injection H as <- <- <-.
  - now injection H as <- <- <-.
Qed.

(** X13. A launch that is accepted starts a Firefox that passed the
    [isExecutable] test; the directories to remove afterwards are the
    profile directory alone, or none when [keepProfileChanges] is set (and
    then there is no profile to copy from either); the debugger gives up
    after the configured [timeout], 5 when none is configured; and Firefox
    is detached exactly when [reAttach] is set. *)
Theorem parseConfiguration_launch_essentials
    (env : Environment) (c : LaunchConfiguration) (parsed : ParsedConfiguration) :
  parseConfiguration env (Launch c) = Resolved parsed →
  ∃ launch,
    p_launch parsed = Some launch ∧
    isExecutable env (pl_firefoxExecutable launch) = true ∧
    (if truthyBool (keepProfileChanges c)
     then tmpDirs launch = [] ∧ srcProfileDir launch = None
     else tmpDirs launch = [pl_profileDir launch]) ∧
    pl_timeout launch = default 5 (timeout c) ∧
    (detached launch = true ↔ reAttach c = Some true).
Proof.
  intros H. apply parseConfiguration_resolved in H as (m1 & root & m2 & H & _).
  destruct H as (launch & HL & Hlaunch).
  apply parseLaunch_resolved
    in HL as (exe & dir & source & tmp & target & Hexe & Hprofile & _ & _ & ->).
  eexists. split; [exact Hlaunch|]. cbn. split; [|split; [|split]].
  - unfold findFirefoxExecutable in Hexe.
    destruct (firefoxExecutable c) as [[|x r]|].
    2: { destruct (isExecutable env (String x r)) eqn:E; [|discriminate].
         now injection Hexe as <-. }
    all: match type of Hexe with context [List.find ?f ?l] =>
           destruct (List.find f l) as [candidate|] eqn:Ef end; try discriminate;
         injection Hexe as <-; now apply find_some in Ef.
  - apply parseProfileConfiguration_tmpDirs in Hprofile.
    destruct (truthyBool (keepProfileChanges c)); [tauto | exact Hprofile].
  - reflexivity.
  - now destruct (reAttach c) as [[|]|].
Qed.

Definition keepDevParsed : ParsedConfiguration :=
  match parseConfiguration twoInstallations (Launch keepDev) with
  | Resolved parsed => parsed
  | Rejected _ => openFileParsed
  end.

Lemma parseConfiguration_launch_essentials_witness :
  parseConfiguration twoInstallations (Launch keepDev) = Resolved keepDevParsed ∧
  ∃ launch,
    p_launch keepDevParsed = Some launch ∧
    isExecutable twoInstallations (pl_firefoxExecutable launch) = true ∧
    (if truthyBool (keepProfileChanges keepDev)
     then tmpDirs launch = [] ∧ srcProfileDir launch = None
     else tmpDirs launch = [pl_profileDir launch]) ∧
    pl_timeout launch = default 5 (timeout keepDev) ∧
    (detached launch = true ↔ reAttach keepDev = Some true).
Proof.
  assert (parseConfiguration twoInstallations (Launch keepDev) = Resolved keepDevParsed)
    as H by (vm_compute; reflexivity).
  split; [exact H|].
  exact (parseConfiguration_launch_essentials twoInstallations keepDev keepDevParsed H).
Defined.

(** X14. Whether the adapter attaches, and whether it then reloads the
    tabs. A launch attaches only with [reAttach], to [localhost], and
    reloads the tabs unless [reloadOnAttach] is [false]. An attach request
    launches nothing, attaches to the configured host ([localhost] when
    none is configured), and reloads the tabs only if [reloadOnAttach] is
    [true]: with [reloadOnAttach] left out, the two requests differ. *)
Theorem parseConfiguration_attach_part
    (env : Environment) (config : Config) (parsed : ParsedConfiguration) :
  parseConfiguration env config = Resolved parsed →
  match config with
  | Launch c =>
      is_Some (p_launch parsed) ∧
      (reAttach c ≠ Some true → p_attach parsed = None) ∧
      (reAttach c = Some true →
       ∃ attach, p_attach parsed = Some attach ∧ pa_host attach = "localhost" ∧
                 (reloadTabs attach = false ↔ reloadOnAttach (l_common c) = Some false))
  | Attach c =>
      p_launch parsed = None ∧
      ∃ attach, p_attach parsed = Some attach ∧
                pa_host attach = orString (host c) "localhost" ∧
                (reloadTabs attach = true ↔ reloadOnAttach (a_common c) = Some true)
  end.
Proof.
  intros H. apply parseConfiguration_resolved in H as (m1 & root & m2 & H & _).
  destruct config as [c|c].
  - destruct H as (launch & HL & Hlaunch).
    apply parseLaunch_resolved
      in HL as (exe & dir & source & tmp & target & _ & _ & _ & Ha & _).
    split; [rewrite Hlaunch; eauto|]. rewrite Ha. split.
    + intros Hre. now destruct (reAttach c) as [[|]|].
    + intros ->. cbn. eexists. split; [reflexivity|]. split; [reflexivity|]. cbn.
      rewrite negb_false_iff, bool_decide_eq_true. done.
  - destruct H as [Ha Hl]. split; [exact Hl|]. rewrite Ha.
    eexists. split; [reflexivity|]. split; [reflexivity|]. cbn.
    now destruct (reloadOnAttach (a_common c)) as [[|]|].
Qed.

Lemma parseConfiguration_attach_part_witness :
  parseConfiguration twoInstallations (Launch keepDev) = Resolved keepDevParsed ∧
  is_Some (p_launch keepDevParsed) ∧
  (reAttach keepDev ≠ Some true → p_attach keepDevParsed = None) ∧
  (reAttach keepDev = Some true →
   ∃ attach, p_attach keepDevParsed = Some attach ∧ pa_host attach = "localhost" ∧
             (reloadTabs attach = false ↔
              reloadOnAttach (l_common keepDev) = Some false)).
Proof.
  assert (parseConfiguration twoInstallations (Launch keepDev) = Resolved keepDevParsed)
    as H by (vm_compute; reflexivity).
  split; [exact H|].
  exact (parseConfiguration_attach_part twoInstallations (Launch keepDev) keepDevParsed H).
Defined.

(** A configured mapping as it appears in the parsed configuration: the
    same mapping, or the same with the web root put in for [${webRoot}]. *)
Definition asConfigured (parsed configured : PathMapping) : Prop :=
  url parsed = url configured ∧
  (parsed = configured ∨
   ∃ rest root, path configured = Some ("${webRoot}" +:+ rest) ∧
                path parsed = Some (root +:+ rest)).

Lemma parseAddonConfiguration_appends (env : Environment) (c : CommonConfiguration)
    (mappings : list PathMapping) (addon : ParsedAddonConfiguration)
    (mappings' : list PathMapping) :
  parseAddonConfiguration env c mappings = Resolved (addon, mappings') →
  ∃ added, mappings' = mappings ++ added.
Proof.
  unfold parseAddonConfiguration. intros H.
  apply bind_resolved_inv in H as (addonId & _ & H). cbv zeta in H.
  injection H as _ <-. destruct addonId as [[|x r]|]; rewrite <- ?app_assoc; eauto.
Qed.

Lemma parseWebRootConfiguration_keeps (env : Environment) (request : string)
    (c : CommonConfiguration) (mappings : list PathMapping)
    (root : option string) (mappings' : list PathMapping) :
  parseWebRootConfiguration env request c mappings = Resolved (root, mappings') →
  ∃ rewritten extra, mappings' = rewritten ++ extra ∧
                     Forall2 asConfigured rewritten mappings.
Proof.
  assert (Forall2 asConfigured mappings mappings) as Hsame.
  { apply Forall2_same_length_lookup_2; [done|]. intros i m m' H H'.
    split; [congruence|]. left. congruence. }
  unfold parseWebRootConfiguration, throw.
  destruct (c_url c) as [[|x r]|].
  1, 3: destruct (truthy (webRoot c)); [discriminate|]; intros [= <- <-];
    exists mappings, []; now rewrite app_nil_r.
  destruct (webRoot c) as [[|y q]|].
  1, 3: destruct (pathMappings c); [|discriminate]; intros [= <- <-];
    exists mappings, []; now rewrite app_nil_r.
  destruct (negb (path_isAbsolute env (String y q)) &&
            negb (isAbsoluteUrl env (String y q))); [discriminate|].
  intros [= <- <-]. eexists _, _. split; [reflexivity|].
  apply Forall2_fmap_l, Forall2_same_length_lookup_2; [done|].
  intros i m m' H H'. assert (m' = m) as -> by congruence.
  unfold asConfigured, compose. cbv beta zeta.
  destruct (path m) as [to|] eqn:Hto; [|split; [reflexivity | now left]].
  destruct (String.eqb (substrTo 10 to) "${webRoot}") eqn:E;
    [|split; [reflexivity | now left]].
  split; [reflexivity|]. right. eexists _, _. split; [|reflexivity].
  f_equal. exact (substrTo_prefix "${webRoot}" to E).
Qed.

(** X15. The order of the path mappings of a parsed configuration: first
    the configured mappings, one for one and in their order, with their
    trailing slashes harmonized (and the web root put in for [${webRoot}]);
    then what the parser derives from the add-on and the web root; and at
    the very end the two catch-all mappings for [webpack:] and [file:]
    URLs. A configured mapping is therefore tried before every derived
    one. *)
Theorem parseConfiguration_mapping_order
    (env : Environment) (config : Config) (parsed : ParsedConfiguration) :
  parseConfiguration env config = Resolved parsed →
  ∃ configured derived,
    p_pathMappings parsed = configured ++ derived ++ fallbackMappings env ∧
    Forall2 asConfigured configured
      (harmonizeTrailingSlashes <$> default [] (pathMappings (common config))).
Proof.
  intros H.
  apply parseConfiguration_resolved
    in H as (withAddon & root & withRoot & _ & Haddon & Hroot & ->).
  apply parseWebRootConfiguration_keeps in Hroot as (rewritten & extra & -> & Hall).
  assert (∃ added, withAddon = harmonized config ++ added) as [added ->].
  { destruct (truthy (addonPath (common config))).
    - destruct Haddon as (addon & Ha & _). exact (parseAddonConfiguration_appends _ _ _ _ _ Ha).
    - destruct Haddon as [-> _]. exists []. now rewrite app_nil_r. }
  apply Forall2_app_inv_r in Hall as (configured & others & Hc & _ & ->).
  exists configured, (others ++ extra ++ webpackMappings root).
  split; [now rewrite <- !app_assoc|].
  unfold harmonized in Hc. now destruct (pathMappings (common config)).
Qed.

(** The web application [webApp], attached to. *)
Definition attachWebApp : AttachConfiguration :=
  {| a_common := webApp; a_port := None; host := None |}.

Definition attachWebAppParsed : ParsedConfiguration :=
  match parseConfiguration twoInstallations (Attach attachWebApp) with
  | Resolved parsed => parsed
  | Rejected _ => openFileParsed
  end.

Lemma parseConfiguration_mapping_order_witness :
  parseConfiguration twoInstallations (Attach attachWebApp) = Resolved attachWebAppParsed ∧
  ∃ configured derived,
    p_pathMappings attachWebAppParsed =
      configured ++ derived ++ fallbackMappings twoInstallations ∧
    Forall2 asConfigured configured
      (harmonizeTrailingSlashes <$> default [] (pathMappings (common (Attach attachWebApp)))).
Proof.
  assert (parseConfiguration twoInstallations (Attach attachWebApp)
          = Resolved attachWebAppParsed) as H by (vm_compute; reflexivity).
  split; [exact H|].
  exact (parseConfiguration_mapping_order twoInstallations (Attach attachWebApp)
           attachWebAppParsed H).
Defined.

Example parseConfiguration_mapping_order_sample :
  p_pathMappings attachWebAppParsed =
    [ {| url := UrlString "http://localhost:8080/lib/";
         path := Some "/home/me/app/vendor/" |};
      {| url := UrlString "http://cdn.example.org/"; path := None |};
      {| url := UrlString "http://localhost:8080/app"; path := Some "/home/me/app" |};
      {| url := UrlString "webpack:///~/"; path := Some "/home/me/app/node_modules/" |};
      {| url := UrlString "webpack:///./~/"; path := Some "/home/me/app/node_modules/" |};
      {| url := UrlString "webpack:///./"; path := Some "/home/me/app/" |};
      {| url := UrlString "webpack:///src/"; path := Some "/home/me/app/src/" |};
      {| url := UrlString "webpack://"; path := Some EmptyString |};
      {| url := UrlString "file://"; path := Some EmptyString |} ].
Proof. vm_compute. reflexivity. Qed.

Lemma parseWebRootConfiguration_any_mappings (env : Environment) (request : string)
    (c : CommonConfiguration) (m1 m2 : list PathMapping) :
  isRejected (parseWebRootConfiguration env request c m1) =
  isRejected (parseWebRootConfiguration env request c m2).
Proof.
  unfold parseWebRootConfiguration, throw.
  destruct (c_url c) as [[|x r]|]; [destruct (truthy (webRoot c)); reflexivity| |
                                    destruct (truthy (webRoot c)); reflexivity].
  destruct (webRoot c) as [[|y q]|]; [destruct (pathMappings c); reflexivity| |
                                      destruct (pathMappings c); reflexivity].
  destruct (negb (path_isAbsolute env (String y q)) &&
            negb (isAbsoluteUrl env (String y q))); reflexivity.
Qed.




End ParseConfigurationProperties.

(** * Further properties of the source adapter *)

Module SourceProperties.
Import JS Source JSFacts JSProperties SourceFacts.

Section ReconciliationProperties.
Context {BreakpointPositions : Type}.
Variable findNextBreakpointPosition : Z → Z → BreakpointPositions → Position.

Local Abbreviation Event := (@Source.Event BreakpointPositions).
Local Abbreviation step := (Source.step findNextBreakpointPosition).
Local Abbreviation exec := (Source.exec findNextBreakpointPosition).
Local Abbreviation reachable := (SourceFacts.reachable findNextBreakpointPosition).
Local Abbreviation Transition := (SourceFacts.Transition findNextBreakpointPosition).

#[local] Arguments breakpointsToKeep : simpl never.
#[local] Arguments breakpointsToDelete : simpl never.
#[local] Arguments breakpointsToAdd : simpl never.
#[local] Arguments isEquivalent : simpl never.
#[local] Arguments resolveActualLocation : simpl never.
#[local] Arguments verifyBreakpoint : simpl never.
#[local] Arguments logValue : simpl never.
#[local] Arguments legacyActualLine : simpl never.
#[local] Arguments legacyActualColumn : simpl never.
#[local] Arguments syncBreakpoints : simpl never.
#[local] Arguments checkAndSyncBreakpoints : simpl never.
#[local] Arguments updateBreakpoints : simpl never.
#[local] Arguments finishSync : simpl never.
#[local] Arguments afterDeletions : simpl never.
#[local] Arguments afterBreakpointPositions : simpl never.
#[local] Arguments afterAdditionsNew : simpl never.
#[local] Arguments afterAdditionsOld : simpl never.

(** *** The installed set changes only when a run finishes *)

(** X17. The installed set of an adapter is touched at one place only. A
    submission, the coordinator starting a run, a promise that settles
    (fulfilled or rejected) and a run that moves from its deletions to its
    additions all leave it as it is: whenever an event changes the
    installed set, the event is the continuation of a run after its last
    batch, and the run finishes in that step. *)
Theorem installed_set_changes_at_finish (w w' : World) (e : Event) :
  reachable w → step e w = Some w' →
  currentBreakpoints (adapter w') ≠ currentBreakpoints (adapter w) →
  ∃ run t, e = Continue run ∧ trace w' = trace w ++ t ∧ In (RunFinished run) t ∧
           isFailure e = false.
Proof.
  intros Hreach Hs Hne.
  pose proof (wellFormed_reachable _ w Hreach) as Hw.
  pose proof (step_Transition _ w w' e Hw Hs) as Ht.
  inversion Ht; subst; try (now destruct Hne);
    exists run; unfold finished, started, merged, setCoordinator;
    (destruct (desiredBreakpoints (adapter w)) as [D|];
       [destruct (newBreakpointProtocol (adapter w))|]);
    eexists; (split; [reflexivity|]);
    (split; [cbn; rewrite <- ?app_assoc; reflexivity|]);
    (split; [|reflexivity]); rewrite !in_app_iff; cbn; tauto.
Qed.

(** *** Desired sets are taken in the order of their submission *)

Definition submission (e : Event) : option (list BreakpointInfo) :=
  match e with
  | Submit D => Some D
  | _ => None
  end.

(** The desired sets that were submitted, oldest first. *)
Definition submitted (events : list Event) : list (list BreakpointInfo) :=
  omap submission events.

Definition capturedSet (o : Observation) : option (list BreakpointInfo) :=
  match o with
  | RunStarted _ captured => captured
  | _ => None
  end.

(** The desired sets that runs have captured, oldest first. *)
Definition capturedSets (t : list Observation) : list (list BreakpointInfo) :=
  omap capturedSet t.

(** The desired set that waits for a run, if any. *)
Definition pendingSet (w : World) : list (list BreakpointInfo) :=
  match desiredBreakpoints (adapter w) with
  | Some D => [D]
  | None => []
  end.

Lemma capturedSets_app (t1 t2 : list Observation) :
  capturedSets (t1 ++ t2) = capturedSets t1 ++ capturedSets t2.
Proof. apply omap_app. Qed.

Ltac no_captured :=
  unfold capturedSets, issuedOld, issuedNew, verifiedNew, verifiedOld;
  first [ apply omap_imap_none | apply omap_fmap_none | apply omap_zip_with_none ];
  reflexivity.

(** An event other than a submission moves the pending set, at most, to
    the captured ones; a submission replaces the pending set. *)
Lemma accounted_step (w w' : World) (e : Event) :
  Transition w e w' →
  capturedSets (trace w') ++ pendingSet w' =
    match e with
    | Submit D => capturedSets (trace w) ++ [D]
    | _ => capturedSets (trace w) ++ pendingSet w
    end.
Proof.
  assert (∀ (r : nat) (l : list BreakpointAdapter),
            capturedSets (imap (λ i b, DeleteIssued r i b) l) = []) as Hdel
    by (intros; no_captured).
  assert (∀ r a, capturedSets (issuedOld r a) = []) as Hold by (intros; no_captured).
  assert (∀ r u a, capturedSets (issuedNew r u a) = []) as Hnew by (intros; no_captured).
  assert (∀ a, capturedSets (verifiedNew a) = []) as Hvn by (intros; no_captured).
  assert (∀ rs a, capturedSets (verifiedOld rs a) = []) as Hvo by (intros; no_captured).
  intros Ht. inversion Ht; subst;
    unfold finished, started, startedEmpty, startedFaulty, suspended, faulted, merged,
      setCoordinator, setAdapter, pendingSet;
    (destruct (desiredBreakpoints (adapter w)) as [?|] eqn:Hd;
       [destruct (newBreakpointProtocol (adapter w))|]);
    cbn [trace adapter desiredBreakpoints setDesiredBreakpoints setIsSyncingBreakpoints
           setCurrentBreakpoints];
    rewrite ?capturedSets_app; cbn;
    rewrite ?Hd, ?capturedSets_app, ?Hdel, ?Hold, ?Hnew, ?Hvn, ?Hvo, ?app_nil_r;
    try reflexivity; try congruence.
Qed.

(** X18. Desired sets are applied in the order of their submission. The
    sets that runs have captured, in the order of the runs, are among the
    submitted sets in the order of their submission: a run never works on a
    set that was not submitted, never takes a set twice and never goes back
    to an older set once a newer one was captured. And the last submitted
    set is never lost: it is the pending set, or, when nothing is pending,
    the set that the last run captured. *)
Theorem submission_order (id : Z) (actor : ISourceActorProxy)
    (sourcePath : option string) (newProtocol : bool)
    (events : list Event) (w : World) :
  exec events (initialWorld (newSourceAdapter id actor sourcePath newProtocol)) = Some w →
  capturedSets (trace w) `sublist_of` submitted events ∧
  last (capturedSets (trace w) ++ pendingSet w) = last (submitted events).
Proof.
  intros Hex.
  cut (capturedSets (trace w) ++ pendingSet w `sublist_of` submitted events ∧
       last (capturedSets (trace w) ++ pendingSet w) = last (submitted events)).
  { intros [Hsub Hlast]. split; [|exact Hlast].
    etransitivity; [|exact Hsub]. now apply sublist_inserts_r. }
  revert w Hex. induction events as [|e events IH] using rev_ind; intros w.
  - cbn. intros [= <-]. done.
  - intros (w1 & Hex1 & Hs)%exec_snoc. destruct (IH w1 Hex1) as [Hsub Hlast].
    assert (wellFormed w1) as Hw1.
    { eapply wellFormed_exec; [|exact Hex1]. apply wellFormed_initial. }
    pose proof (accounted_step w1 w e (step_Transition _ w1 w e Hw1 Hs)) as Hacc.
    unfold submitted in *. rewrite omap_app. rewrite Hacc.
    destruct e as [D| | | | | |]; cbn [omap list_omap submission];
      rewrite ?app_nil_r; try (split; assumption).
    split; [|now rewrite !last_snoc].
    apply sublist_app; [|done]. etransitivity; [|exact Hsub].
    now apply sublist_inserts_r.
Qed.

(** *** Additions under the new protocol *)

Lemma lookupRun_single (w : World) (run : nat) (f : Frame) :
  runs w = [(run, f)] → lookupRun run w = Some f.
Proof.
  intros Hr. unfold lookupRun. rewrite Hr. cbn. now rewrite bool_decide_eq_true_2.
Qed.

(** X19. New protocol: when the breakpoint positions of the source arrive,
    every breakpoint to add is sent to the thread actor at once, in the
    order of the desired set, at the position that
    [findNextBreakpointPosition] gives for its requested line and column
    (column 0 when none is requested), together with the url of the source,
    the condition and the log value; the descriptor records that position as
    its actual one and keeps its request; and every addition is pending. *)
Theorem new_protocol_additions (w : World) (run : nat)
    (toKeep : list BreakpointAdapter) (toAdd : list BreakpointInfo)
    (positions : BreakpointPositions) :
  reachable w → lookupRun run w = Some (AwaitBreakpointPositions toKeep toAdd) →
  ∃ w' issued resolved promises,
    step (PositionsSettle run (Some positions)) w = Some w' ∧
    trace w' = trace w ++ issued ∧
    lookupRun run w' = Some (AwaitAdditionsNew toKeep resolved promises) ∧
    currentBreakpoints (adapter w') = currentBreakpoints (adapter w) ∧
    length issued = length toAdd ∧ length resolved = length toAdd ∧
    length promises = length toAdd ∧
    ∀ i d, toAdd !! i = Some d →
      let location :=
        findNextBreakpointPosition (line (requestedBreakpoint d))
          (default 0 (column (requestedBreakpoint d))) positions in
      promises !! i = Some None ∧
      issued !! i =
        Some (AddIssued run i
                (ThreadSetBreakpoint (Some (p_line location)) (Some (p_column location))
                   (url (actor (adapter w)))
                   (condition (requestedBreakpoint d)) (logValue d))) ∧
      ∃ d', resolved !! i = Some d' ∧
            requestedBreakpoint d' = requestedBreakpoint d ∧
            actualLine d' = Some (p_line location) ∧
            actualColumn d' = Some (p_column location).
Proof.
  intros Hreach El.
  pose proof (wellFormed_reachable _ w Hreach) as Hw.
  destruct (lookupRun_inv w run _ (proj1 Hw) El) as (Hr & _).
  eexists _, _, _, _. split; [cbn; rewrite El; reflexivity|].
  unfold afterBreakpointPositions. rewrite (suspend_suspended w run _ _ _ Hr).
  split; [reflexivity|]. split; [now apply lookupRun_single|]. split; [reflexivity|].
  rewrite length_imap, !length_fmap. split; [done|]. split; [done|]. split; [done|].
  intros i d Hd. cbv zeta.
  set (location := findNextBreakpointPosition (line (requestedBreakpoint d))
                     (default 0 (column (requestedBreakpoint d))) positions).
  assert (resolveActualLocation findNextBreakpointPosition positions d =
            {| requestedBreakpoint := requestedBreakpoint d;
               actualLine := Some (p_line location);
               actualColumn := Some (p_column location);
               verified := verified d |}) as Hres.
  { unfold resolveActualLocation, location.
    now destruct (column (requestedBreakpoint d)) as [[| |]|]. }
  split; [now rewrite !list_lookup_fmap, Hd|]. split.
  - rewrite list_lookup_imap, list_lookup_fmap, Hd. cbn. rewrite Hres. cbn.
    unfold logValue. reflexivity.
  - eexists. split; [now rewrite list_lookup_fmap, Hd|]. now rewrite Hres.
Qed.

Lemma find_satisfied {A} (f : A → bool) (l : list A) (x : A) :
  In x l → f x = true → ∃ y, List.find f l = Some y ∧ In y l ∧ f y = true.
Proof.
  intros Hin Hf. destruct (List.find f l) as [y|] eqn:E.
  - exists y. split; [reflexivity|]. now apply find_some in E.
  - now rewrite (find_none _ _ E x Hin) in Hf.
Qed.

(** X20. New protocol: once all additions of a run are fulfilled the run
    continues to its end, the breakpoints that it kept are still installed,
    and each added breakpoint can be found by the position at which it was
    set: [findBreakpointAdapterForLocation] finds an installed breakpoint
    at the actual line and column of every added descriptor. *)
Theorem added_breakpoints_found_by_location (w : World) (run : nat)
    (toKeep : list BreakpointAdapter) (toAdd : list BreakpointInfo)
    (promises : list (option ())) (values : list ()) :
  reachable w → lookupRun run w = Some (AwaitAdditionsNew toKeep toAdd promises) →
  allFulfilled promises = Some values →
  ∃ w', step (Continue run) w = Some w' ∧
    (∀ b, In b toKeep → In b (currentBreakpoints (adapter w'))) ∧
    ∀ d, In d toAdd →
      ∃ b, findBreakpointAdapterForLocation (adapter w')
             {| l_line := actualLine d; l_column := actualColumn d |} = Some b ∧
           In b (currentBreakpoints (adapter w')) ∧
           actualLine (breakpointInfo b) = actualLine d ∧
           actualColumn (breakpointInfo b) = actualColumn d.
Proof.
  intros Hreach El Ea.
  pose proof (wellFormed_reachable _ w Hreach) as Hw.
  destruct (lookupRun_inv w run _ (proj1 Hw) El) as (Hr & _).
  eexists. split; [cbn; rewrite El; cbn; rewrite Ea; reflexivity|].
  unfold afterAdditionsNew. rewrite (finishSync_merged w run _ _ _ _ Hr).
  rewrite checkAndSyncBreakpoints_merged.
  assert (currentBreakpoints
            (adapter (finished run toKeep
                        ((λ info, NewProtocolBreakpointAdapter
                                    (verifyBreakpoint info (actualLine info)
                                       (actualColumn info))) <$> toAdd)
                        ((λ info, VerifyBreakpoint info (actualLine info)
                                    (actualColumn info)) <$> toAdd) w))
          = toKeep ++ ((λ info, NewProtocolBreakpointAdapter
                                  (verifyBreakpoint info (actualLine info)
                                     (actualColumn info))) <$> toAdd)) as ->.
  { unfold finished. destruct (desiredBreakpoints (adapter w));
      [destruct (newBreakpointProtocol (adapter w))|]; reflexivity. }
  split; [intros b Hb; apply in_app_iff; now left|].
  intros d Hd. unfold findBreakpointAdapterForLocation.
  match goal with |- context [List.find ?f (currentBreakpoints ?a)] =>
    assert (currentBreakpoints a =
              toKeep ++ ((λ info, NewProtocolBreakpointAdapter
                                    (verifyBreakpoint info (actualLine info)
                                       (actualColumn info))) <$> toAdd)) as ->
  end.
  { unfold finished. destruct (desiredBreakpoints (adapter w));
      [destruct (newBreakpointProtocol (adapter w))|]; reflexivity. }
  destruct (find_satisfied
              (λ b, bool_decide (actualLine (breakpointInfo b) = actualLine d) &&
                    bool_decide (actualColumn (breakpointInfo b) = actualColumn d))
              (toKeep ++ ((λ info, NewProtocolBreakpointAdapter
                                     (verifyBreakpoint info (actualLine info)
                                        (actualColumn info))) <$> toAdd))
              (NewProtocolBreakpointAdapter
                 (verifyBreakpoint d (actualLine d) (actualColumn d))))
    as (b & Hfind & Hin & Hb).
  { apply in_app_iff. right. apply in_map_iff. eauto. }
  { cbn. now rewrite !bool_decide_eq_true_2. }
  exists b. split; [exact Hfind|]. split; [exact Hin|].
  apply andb_true_iff in Hb as [H1 H2].
  now apply bool_decide_eq_true in H1, H2.
Qed.

(** *** A reconciliation whose operations all succeed *)

Lemma fmap_pending {A B} (l : list A) :
  (λ _, None) <$> l = replicate (length l) (None : option B).
Proof. induction l as [|a l IH]; cbn; [done | now f_equal]. Qed.

Lemma fulfil_next {A} (v : A) (settled : list (option A)) (m : nat) :
  fulfil (length settled) v (settled ++ replicate (S m) None) =
    Some ((settled ++ [Some v]) ++ replicate m None).
Proof.
  unfold fulfil. rewrite lookup_app_r by lia. rewrite Nat.sub_diag. cbn.
  f_equal. rewrite insert_app_r_alt by lia. rewrite Nat.sub_diag. cbn.
  now rewrite <- app_assoc.
Qed.

Lemma allFulfilled_fmap {A} (vs : list A) : allFulfilled (Some <$> vs) = Some vs.
Proof. induction vs as [|v vs IH]; cbn; [done | now rewrite IH]. Qed.

Lemma suspended_twice (run : nat) (f f' : Frame) (o o' : list Observation) (w : World) :
  suspended run f' o' (suspended run f o w) = suspended run f' (o ++ o') w.
Proof. unfold suspended. cbn. now rewrite app_assoc. Qed.

Lemma suspended_same (run : nat) (f : Frame) (w : World) :
  runs w = [(run, f)] → suspended run f [] w = w.
Proof. intros Hr. destruct w. unfold suspended. cbn in *. now rewrite app_nil_r, Hr. Qed.

(** The promises of a batch are fulfilled one after the other. *)
Lemma exec_settle_all {A} (run : nat) (frame : list (option A) → Frame)
    (settles : nat → A → Event) (answer : nat → Observation) :
  (∀ w i v ps ps', runs w = [(run, frame ps)] → fulfil i v ps = Some ps' →
     step (settles i v) w = Some (suspended run (frame ps') [answer i] w)) →
  (∀ i, isOperation (answer i) = false) →
  ∀ (vs : list A) (settled : list (option A)) (w : World),
    runs w = [(run, frame (settled ++ replicate (length vs) None))] →
    ∃ o, exec (imap (λ i v, settles (length settled + i)%nat v) vs) w =
           Some (suspended run (frame (settled ++ (Some <$> vs))) o w) ∧
         noOperation o.
Proof.
  intros Hstep Hquiet. induction vs as [|v vs IH]; intros settled w Hr.
  - exists []. cbn in *. split; [|constructor]. now rewrite suspended_same.
  - cbn [length replicate] in Hr.
    pose proof (Hstep w _ v _ _ Hr (fulfil_next v settled (length vs))) as Hs.
    destruct (IH (settled ++ [Some v])
                 (suspended run (frame ((settled ++ [Some v]) ++ replicate (length vs) None))
                    [answer (length settled)] w) eq_refl) as (o & Hex & Ho).
    exists (answer (length settled) :: o). split; [|constructor; auto].
    cbn [imap]. apply exec_cons. eexists. split.
    + rewrite Nat.add_0_r. exact Hs.
    + rewrite (imap_ext _ (λ i x, settles (length (settled ++ [Some v]) + i)%nat x)).
      * rewrite Hex, suspended_twice, <- app_assoc. reflexivity.
      * intros i x _. cbn. rewrite length_app. cbn. f_equal. lia.
Qed.

Lemma step_deletion_fulfilled (run : nat) (d : option (list BreakpointInfo))
    (k : list BreakpointAdapter) (w : World) (i : nat) (v : ())
    (ps ps' : list (option ())) :
  runs w = [(run, AwaitDeletions d k ps)] → fulfil i v ps = Some ps' →
  step (DeletionSettles run i true) w =
    Some (suspended run (AwaitDeletions d k ps') [DeleteSettled run i true] w).
Proof.
  intros Hr Hf. destruct v. cbn. rewrite (lookupRun_single w run _ Hr). cbn.
  rewrite Hf. cbn. now rewrite (suspend_suspended w run _ _ _ Hr).
Qed.

Lemma step_addition_new_fulfilled (run : nat) (k : list BreakpointAdapter)
    (a : list BreakpointInfo) (w : World) (i : nat) (v : ())
    (ps ps' : list (option ())) :
  runs w = [(run, AwaitAdditionsNew k a ps)] → fulfil i v ps = Some ps' →
  step (AdditionSettlesNew run i true) w =
    Some (suspended run (AwaitAdditionsNew k a ps') [AddSettled run i true] w).
Proof.
  intros Hr Hf. destruct v. cbn. rewrite (lookupRun_single w run _ Hr). cbn.
  rewrite Hf. cbn. now rewrite (suspend_suspended w run _ _ _ Hr).
Qed.

Lemma step_addition_old_fulfilled (run : nat) (k : list BreakpointAdapter)
    (a : list BreakpointInfo) (w : World) (i : nat) (v : SetBreakpointResult)
    (ps ps' : list (option SetBreakpointResult)) :
  runs w = [(run, AwaitAdditionsOld k a ps)] → fulfil i v ps = Some ps' →
  step (AdditionSettlesOld run i (Some v)) w =
    Some (suspended run (AwaitAdditionsOld k a ps') [AddSettled run i true] w).
Proof.
  intros Hr Hf. cbn. rewrite (lookupRun_single w run _ Hr). cbn.
  rewrite Hf. cbn. now rewrite (suspend_suspended w run _ _ _ Hr).
Qed.

(** An event of a schedule in which every operation succeeds. *)
Definition succeeds (e : Event) : Prop := isSubmit e = false ∧ isFailure e = false.

(** The events that answer the operations of one run, all with success:
    the deletions, then the positions and the additions. *)
Definition answers (newProtocol : bool) (run deletions additions : nat)
    (positions : BreakpointPositions) (result : SetBreakpointResult) : list Event :=
  (if newProtocol then [] else [CoordinatorRuns]) ++
  imap (λ i _, DeletionSettles run i true) (replicate deletions ()) ++
  [Continue run] ++
  (if newProtocol
   then PositionsSettle run (Some positions) ::
        imap (λ i _, AdditionSettlesNew run i true) (replicate additions ())
   else imap (λ i v, AdditionSettlesOld run i (Some v)) (replicate additions result)) ++
  [Continue run].

Lemma answers_succeed (newProtocol : bool) (run deletions additions : nat)
    (positions : BreakpointPositions) (result : SetBreakpointResult) :
  Forall succeeds (answers newProtocol run deletions additions positions result).
Proof.
  unfold answers. repeat apply Forall_app_2; try (destruct newProtocol);
    repeat constructor;
    apply Forall_forall; intros e (i & x & -> & _)%elem_of_lookup_imap; done.
Qed.

Lemma phase_deletions (w : World) (run : nat) (d : option (list BreakpointInfo))
    (k l : list BreakpointAdapter) :
  runs w = [(run, AwaitDeletions d k ((λ _, None) <$> l))] →
  ∃ o, exec (imap (λ i _, DeletionSettles run i true) (replicate (length l) ())) w =
         Some (suspended run (AwaitDeletions d k (Some <$> replicate (length l) ())) o w).
Proof.
  intros Hr.
  destruct (exec_settle_all run (AwaitDeletions d k) (λ i _, DeletionSettles run i true)
              (λ i, DeleteSettled run i true)
              (step_deletion_fulfilled run d k) (λ _, eq_refl)
              (replicate (length l) ()) [] w) as (o & Hex & _).
  { now rewrite length_replicate, <- fmap_pending. }
  exists o. exact Hex.
Qed.

Lemma phase_additions_new (w : World) (run : nat)
    (k : list BreakpointAdapter) (a : list BreakpointInfo) :
  runs w = [(run, AwaitAdditionsNew k a ((λ _, None) <$> a))] →
  ∃ o, exec (imap (λ i _, AdditionSettlesNew run i true) (replicate (length a) ())) w =
         Some (suspended run (AwaitAdditionsNew k a (Some <$> replicate (length a) ())) o w).
Proof.
  intros Hr.
  destruct (exec_settle_all run (AwaitAdditionsNew k a)
              (λ i _, AdditionSettlesNew run i true)
              (λ i, AddSettled run i true)
              (step_addition_new_fulfilled run k a) (λ _, eq_refl)
              (replicate (length a) ()) [] w) as (o & Hex & _).
  { now rewrite length_replicate, <- fmap_pending. }
  exists o. exact Hex.
Qed.

Lemma phase_additions_old (w : World) (run : nat)
    (k : list BreakpointAdapter) (a : list BreakpointInfo) (result : SetBreakpointResult) :
  runs w = [(run, AwaitAdditionsOld k a ((λ _, None) <$> a))] →
  ∃ o, exec (imap (λ i v, AdditionSettlesOld run i (Some v))
               (replicate (length a) result)) w =
         Some (suspended run
                 (AwaitAdditionsOld k a (Some <$> replicate (length a) result)) o w).
Proof.
  intros Hr.
  destruct (exec_settle_all run (AwaitAdditionsOld k a)
              (λ i v, AdditionSettlesOld run i (Some v))
              (λ i, AddSettled run i true)
              (step_addition_old_fulfilled run k a) (λ _, eq_refl)
              (replicate (length a) result) [] w) as (o & Hex & _).
  { now rewrite length_replicate, <- fmap_pending. }
  exists o. exact Hex.
Qed.

Lemma continue_deletions (w : World) (run : nat) (D : list BreakpointInfo)
    (k : list BreakpointAdapter) (vs : list ()) :
  runs w = [(run, AwaitDeletions (Some D) k (Some <$> vs))] →
  step (Continue run) w =
    Some (let toAdd := breakpointsToAdd D (currentBreakpoints (adapter w)) in
          if newBreakpointProtocol (adapter w)
          then suspended run (AwaitBreakpointPositions k toAdd) [PositionsRequested run] w
          else suspended run (AwaitAdditionsOld k toAdd ((λ _, None) <$> toAdd))
                 (issuedOld run toAdd) w).
Proof.
  intros Hr. cbn. rewrite (lookupRun_single w run _ Hr). cbn.
  rewrite allFulfilled_fmap. cbn. unfold afterDeletions.
  destruct (newBreakpointProtocol (adapter w));
    now rewrite (suspend_suspended w run _ _ _ Hr).
Qed.

Lemma positions_settle (w : World) (run : nat) (k : list BreakpointAdapter)
    (a : list BreakpointInfo) (positions : BreakpointPositions) :
  runs w = [(run, AwaitBreakpointPositions k a)] →
  step (PositionsSettle run (Some positions)) w =
    Some (let resolved := resolveActualLocation findNextBreakpointPosition positions <$> a in
          suspended run (AwaitAdditionsNew k resolved ((λ _, None) <$> resolved))
            (issuedNew run (url (actor (adapter w))) resolved) w).
Proof.
  intros Hr. cbn. rewrite (lookupRun_single w run _ Hr). cbn.
  unfold afterBreakpointPositions. now rewrite (suspend_suspended w run _ _ _ Hr).
Qed.

Lemma continue_additions_new (w : World) (run : nat) (k : list BreakpointAdapter)
    (a : list BreakpointInfo) (vs : list ()) :
  runs w = [(run, AwaitAdditionsNew k a (Some <$> vs))] →
  step (Continue run) w = Some (finished run k (addedNew a) (verifiedNew a) w).
Proof.
  intros Hr. cbn. rewrite (lookupRun_single w run _ Hr). cbn.
  rewrite allFulfilled_fmap. cbn. unfold afterAdditionsNew.
  rewrite (finishSync_merged w run _ _ _ _ Hr). now rewrite checkAndSyncBreakpoints_merged.
Qed.

Lemma continue_additions_old (w : World) (run : nat) (k : list BreakpointAdapter)
    (a : list BreakpointInfo) (vs : list SetBreakpointResult) :
  runs w = [(run, AwaitAdditionsOld k a (Some <$> vs))] →
  step (Continue run) w = Some (finished run k (addedOld vs a) (verifiedOld vs a) w).
Proof.
  intros Hr. cbn. rewrite (lookupRun_single w run _ Hr). cbn.
  rewrite allFulfilled_fmap. cbn. unfold afterAdditionsOld.
  rewrite (finishSync_merged w run _ _ _ _ Hr). now rewrite checkAndSyncBreakpoints_merged.
Qed.

(** A run that waits for its deletions and gets every answer. *)
Lemma run_succeeds (w : World) (run : nat) (D : list BreakpointInfo)
    (k l : list BreakpointAdapter)
    (positions : BreakpointPositions) (result : SetBreakpointResult) :
  runs w = [(run, AwaitDeletions (Some D) k ((λ _, None) <$> l))] →
  desiredBreakpoints (adapter w) = None → queued w = 0%nat →
  ∃ w',
    exec (imap (λ i _, DeletionSettles run i true) (replicate (length l) ()) ++
          [Continue run] ++
          (if newBreakpointProtocol (adapter w)
           then PositionsSettle run (Some positions) ::
                imap (λ i _, AdditionSettlesNew run i true)
                  (replicate (length (breakpointsToAdd D (currentBreakpoints (adapter w)))) ())
           else imap (λ i v, AdditionSettlesOld run i (Some v))
                  (replicate (length (breakpointsToAdd D (currentBreakpoints (adapter w))))
                     result)) ++
          [Continue run]) w = Some w' ∧
    idle w' ∧ In (RunFinished run) (trace w').
Proof.
  intros Hr Hd Hq.
  destruct (phase_deletions w run (Some D) k l Hr) as (o1 & H1).
  set (w2 := suspended run (AwaitDeletions (Some D) k (Some <$> replicate (length l) ())) o1 w)
    in *.
  pose proof (continue_deletions w2 run D k _ eq_refl) as H2. cbv zeta in H2.
  change (adapter w2) with (adapter w) in H2.
  destruct (newBreakpointProtocol (adapter w)) eqn:Hp.
  - set (toAdd := breakpointsToAdd D (currentBreakpoints (adapter w))) in *.
    set (w3 := suspended run (AwaitBreakpointPositions k toAdd) [PositionsRequested run] w2)
      in *.
    pose proof (positions_settle w3 run k toAdd positions eq_refl) as H3. cbv zeta in H3.
    set (resolved := resolveActualLocation findNextBreakpointPosition positions <$> toAdd)
      in *.
    set (w4 := suspended run (AwaitAdditionsNew k resolved ((λ _, None) <$> resolved))
                 (issuedNew run (url (actor (adapter w3))) resolved) w3) in *.
    destruct (phase_additions_new w4 run k resolved eq_refl) as (o5 & H5).
    set (w5 := suspended run
                 (AwaitAdditionsNew k resolved (Some <$> replicate (length resolved) ()))
                 o5 w4) in *.
    pose proof (continue_additions_new w5 run k resolved _ eq_refl) as H6.
    eexists. split.
    + rewrite exec_app, H1. cbn [mbind option_bind app].
      apply exec_cons. eexists. split; [exact H2|].
      apply exec_cons. eexists. split; [exact H3|].
      rewrite exec_app. unfold resolved in H5. rewrite length_fmap in H5.
      fold resolved in H5. rewrite H5. cbn [mbind option_bind].
      apply exec_cons. eexists. split; [exact H6|]. reflexivity.
    + unfold finished. change (desiredBreakpoints (adapter w5))
        with (desiredBreakpoints (adapter w)). rewrite Hd.
      split; [repeat split; cbn; assumption|].
      cbn. rewrite !in_app_iff. cbn. tauto.
  - set (toAdd := breakpointsToAdd D (currentBreakpoints (adapter w))) in *.
    set (w3 := suspended run (AwaitAdditionsOld k toAdd ((λ _, None) <$> toAdd))
                 (issuedOld run toAdd) w2) in *.
    destruct (phase_additions_old w3 run k toAdd result eq_refl) as (o5 & H5).
    set (w5 := suspended run
                 (AwaitAdditionsOld k toAdd (Some <$> replicate (length toAdd) result))
                 o5 w3) in *.
    pose proof (continue_additions_old w5 run k toAdd _ eq_refl) as H6.
    eexists. split.
    + rewrite exec_app, H1. cbn [mbind option_bind app].
      apply exec_cons. eexists. split; [exact H2|].
      rewrite exec_app, H5. cbn [mbind option_bind].
      apply exec_cons. eexists. split; [exact H6|]. reflexivity.
    + unfold finished. change (desiredBreakpoints (adapter w5))
        with (desiredBreakpoints (adapter w)). rewrite Hd.
      split; [repeat split; cbn; assumption|].
      cbn. rewrite !in_app_iff. cbn. tauto.
Qed.

(** X21. A reconciliation completes when every operation succeeds. From
    an idle adapter, whatever is installed and whatever set is submitted:
    if every deletion, the position query and every addition of the run are
    answered with success (and, under the legacy protocol, the coordinator
    runs the queued closure), the run finishes after these answers, the
    adapter is idle again, and the installed set agrees with the submitted
    one. *)
Theorem reconciliation_completes (w : World) (D : list BreakpointInfo)
    (positions : BreakpointPositions) (result : SetBreakpointResult) :
  reachable w → idle w →
  ∃ w',
    exec (Submit D ::
          answers (newBreakpointProtocol (adapter w)) (nextRun w)
            (length (breakpointsToDelete D (currentBreakpoints (adapter w))))
            (length (breakpointsToAdd D (currentBreakpoints (adapter w))))
            positions result) w = Some w' ∧
    idle w' ∧ inSync D (currentBreakpoints (adapter w')) ∧
    In (RunFinished (nextRun w)) (trace w').
Proof.
  intros Hreach Hidle.
  pose proof (wellFormed_reachable _ w Hreach) as Hw.
  pose proof Hidle as (Hr & Hd & Hf & Hq).
  assert (busy w = false) as Hb.
  { destruct Hw as [_ Hc]. unfold coordinatorFits in Hc.
    destruct (newBreakpointProtocol (adapter w)); [tauto|].
    destruct (busy w); [|done]. now destruct (proj1 Hc eq_refl). }
  cut (∃ w', exec (Submit D ::
                   answers (newBreakpointProtocol (adapter w)) (nextRun w)
                     (length (breakpointsToDelete D (currentBreakpoints (adapter w))))
                     (length (breakpointsToAdd D (currentBreakpoints (adapter w))))
                     positions result) w = Some w' ∧
             idle w' ∧ In (RunFinished (nextRun w)) (trace w')).
  { intros (w' & Hex & Hidle' & Hfin). exists w'.
    split; [exact Hex|]. split; [exact Hidle'|]. split; [|exact Hfin].
    eapply (reconciled _ D _ w w' Hw Hidle); [|exact Hex | exact Hidle'].
    eapply Forall_impl; [apply answers_succeed|]. now intros e [? _]. }
  set (w0 := setAdapter (setDesiredBreakpoints (Some D) (adapter w)) w).
  assert (step (Submit D) w =
            Some (if newBreakpointProtocol (adapter w) then started D w0
                  else setCoordinator 1 false w0)) as Hsub.
  { cbn. unfold updateBreakpoints. fold w0.
    pose proof (checkAndSyncBreakpoints_cases w0 Hr) as Hc. cbn in Hc.
    rewrite Hf in Hc. rewrite Hc. f_equal.
    destruct (newBreakpointProtocol (adapter w)); [reflexivity|].
    unfold w0. cbn. now rewrite Hq, Hb. }
  unfold answers. destruct (newBreakpointProtocol (adapter w)) eqn:Hp.
  - destruct (run_succeeds (started D w0) (nextRun w) D _ _ positions result
                eq_refl eq_refl Hq) as (w' & Hex & Hidle' & Hfin).
    exists w'. split; [|split; assumption].
    apply exec_cons. eexists. split; [exact Hsub|].
    change (newBreakpointProtocol (adapter (started D w0)))
      with (newBreakpointProtocol (adapter w)) in Hex. rewrite Hp in Hex.
    exact Hex.
  - set (w1 := setCoordinator 1 false w0) in *.
    assert (step CoordinatorRuns w1 = Some (started D (setCoordinator 0 true w1))) as Hrun.
    { cbn. f_equal. now apply syncBreakpoints_started. }
    destruct (run_succeeds (started D (setCoordinator 0 true w1)) (nextRun w) D _ _
                positions result eq_refl eq_refl eq_refl) as (w' & Hex & Hidle' & Hfin).
    exists w'. split; [|split; assumption].
    apply exec_cons. eexists. split; [exact Hsub|]. cbn [app].
    apply exec_cons. eexists. split; [exact Hrun|].
    change (newBreakpointProtocol (adapter (started D (setCoordinator 0 true w1))))
      with (newBreakpointProtocol (adapter w)) in Hex. rewrite Hp in Hex.
    exact Hex.
Qed.

End ReconciliationProperties.

(** ** The log value of a log point *)

(** X22. What [syncBreakpoints] sends as the log value of a breakpoint. A
    breakpoint without a log message, or with an empty one, has no log
    value. Any other message is sent between two backticks, as a template:
    a message without an opening brace is sent as it is, and in a message
    with opening braces the first one only is turned into a dollar sign and
    a brace; the text after it, later braces included, is not touched. *)
Theorem logValue_first_placeholder (info : BreakpointInfo) :
  (logValue info = None ↔
     logMessage (requestedBreakpoint info) = None ∨
     logMessage (requestedBreakpoint info) = Some EmptyString) ∧
  (∀ message, logMessage (requestedBreakpoint info) = Some message →
     message ≠ EmptyString → occurs "{" message = false →
     logValue info = Some ("`" +:+ message +:+ "`")) ∧
  (∀ before after,
     logMessage (requestedBreakpoint info) = Some (before +:+ String "{" after) →
     occurs "{" before = false →
     logValue info = Some ("`" +:+ before +:+ "${" +:+ after +:+ "`")).
Proof.
  unfold logValue. split; [|split].
  - destruct (logMessage (requestedBreakpoint info)) as [[|c r]|]; split;
      try discriminate; try tauto; intros [H|H]; discriminate.
  - intros message -> Hne Ho. destruct message as [|c r]; [done|].
    now rewrite (replaceFirst_none _ _ _ Ho).
  - intros before after -> Ho.
    remember (before +:+ String "{" after) as message eqn:Hm.
    destruct message as [|c r].
    { destruct before; [rewrite append_nil in Hm | rewrite append_cons in Hm];
        discriminate. }
    now rewrite Hm, (replaceFirst_first _ _ _ _ Ho), !append_assoc.
Qed.

(** A message with two placeholders: the second one is sent as it was
    written. *)
Example logValue_sample :
  logValue {| requestedBreakpoint :=
                {| line := 3; column := None; condition := None;
                   logMessage := Some "x = {x}, y = {y}" |};
              actualLine := None; actualColumn := None; verified := false |}
  = Some "`x = ${x}, y = {y}`".
Proof. reflexivity. Qed.

(** ** The properties on sample executions *)

Import Scenarios.

(** Both additions of the first run are answered; the run has not continued. *)
Definition additionsAnswered : list (@Event unit) :=
  [ Submit twoLines; Continue 0; PositionsSettle 0 (Some ());
    AdditionSettlesNew 0 0 true; AdditionSettlesNew 0 1 true ].

(** The descriptors of [twoLines] with the positions that the first run
    resolved for them. *)
Definition twoLinesResolved : list BreakpointInfo :=
  [ {| requestedBreakpoint := requestedBreakpoint (breakpointAt 10 None);
       actualLine := Some 10; actualColumn := Some 0; verified := false |};
    {| requestedBreakpoint := requestedBreakpoint (breakpointAt 20 (Some "n = 0"));
       actualLine := Some 20; actualColumn := Some 0; verified := false |} ].

Lemma installed_set_changes_at_finish_witness :
  let w := run additionsAnswered (sampleWorld true) in
  let w' := run [Continue 0] w in
  (reachable nextPosition w ∧ step nextPosition (Continue 0) w = Some w' ∧
   currentBreakpoints (adapter w') ≠ currentBreakpoints (adapter w)) ∧
  ∃ r t, (Continue 0 : @Event unit) = Continue r ∧ trace w' = trace w ++ t ∧
         In (RunFinished r) t ∧ isFailure (Continue 0 : @Event unit) = false.
Proof.
  intros w w'.
  assert (reachable nextPosition w) as H0
    by (apply (run_reachable true additionsAnswered); vm_compute; reflexivity).
  assert (step nextPosition (Continue 0) w = Some w') as H1
    by (vm_compute; reflexivity).
  assert (currentBreakpoints (adapter w') ≠ currentBreakpoints (adapter w)) as H2
    by (vm_compute; discriminate).
  split; [exact (conj H0 (conj H1 H2))|].
  exact (installed_set_changes_at_finish nextPosition w w' (Continue 0) H0 H1 H2).
Defined.

Lemma submission_order_witness :
  let w := run conditionChanged (sampleWorld true) in
  exec nextPosition conditionChanged
    (initialWorld (newSourceAdapter 1 sampleActor None true)) = Some w ∧
  capturedSets (trace w) `sublist_of` submitted conditionChanged ∧
  last (capturedSets (trace w) ++ pendingSet w) = last (submitted conditionChanged).
Proof.
  intros w.
  assert (exec nextPosition conditionChanged
            (initialWorld (newSourceAdapter 1 sampleActor None true)) = Some w) as H0
    by (vm_compute; reflexivity).
  split; [exact H0|].
  exact (submission_order nextPosition 1 sampleActor None true conditionChanged w H0).
Defined.

Lemma new_protocol_additions_witness :
  let w := run [Submit twoLines; Continue 0] (sampleWorld true) in
  (reachable nextPosition w ∧
   lookupRun 0 w = Some (AwaitBreakpointPositions [] twoLines)) ∧
  ∃ w' issued resolved promises,
    step nextPosition (PositionsSettle 0 (Some ())) w = Some w' ∧
    trace w' = trace w ++ issued ∧
    lookupRun 0 w' = Some (AwaitAdditionsNew [] resolved promises) ∧
    currentBreakpoints (adapter w') = currentBreakpoints (adapter w) ∧
    length issued = length twoLines ∧ length resolved = length twoLines ∧
    length promises = length twoLines ∧
    ∀ i d, twoLines !! i = Some d →
      let location :=
        nextPosition (line (requestedBreakpoint d))
          (default 0 (column (requestedBreakpoint d))) () in
      promises !! i = Some None ∧
      issued !! i =
        Some (AddIssued 0 i
                (ThreadSetBreakpoint (Some (p_line location)) (Some (p_column location))
                   (url (actor (adapter w)))
                   (condition (requestedBreakpoint d)) (logValue d))) ∧
      ∃ d', resolved !! i = Some d' ∧
            requestedBreakpoint d' = requestedBreakpoint d ∧
            actualLine d' = Some (p_line location) ∧
            actualColumn d' = Some (p_column location).
Proof.
  intros w.
  assert (reachable nextPosition w) as H0
    by (apply (run_reachable true [Submit twoLines; Continue 0]);
        vm_compute; reflexivity).
  assert (lookupRun 0 w = Some (AwaitBreakpointPositions [] twoLines)) as H1
    by (vm_compute; reflexivity).
  split; [exact (conj H0 H1)|].
  exact (new_protocol_additions nextPosition w 0%nat [] twoLines () H0 H1).
Defined.

Lemma added_breakpoints_found_by_location_witness :
  let w := run additionsAnswered (sampleWorld true) in
  (reachable nextPosition w ∧
   lookupRun 0 w = Some (AwaitAdditionsNew [] twoLinesResolved [Some (); Some ()]) ∧
   allFulfilled [Some (); Some ()] = Some [(); ()]) ∧
  ∃ w', step nextPosition (Continue 0) w = Some w' ∧
    (∀ b, In b [] → In b (currentBreakpoints (adapter w'))) ∧
    ∀ d, In d twoLinesResolved →
      ∃ b, findBreakpointAdapterForLocation (adapter w')
             {| l_line := actualLine d; l_column := actualColumn d |} = Some b ∧
           In b (currentBreakpoints (adapter w')) ∧
           actualLine (breakpointInfo b) = actualLine d ∧
           actualColumn (breakpointInfo b) = actualColumn d.
Proof.
  intros w.
  assert (reachable nextPosition w) as H0
    by (apply (run_reachable true additionsAnswered); vm_compute; reflexivity).
  assert (lookupRun 0 w =
          Some (AwaitAdditionsNew [] twoLinesResolved [Some (); Some ()])) as H1
    by (vm_compute; reflexivity).
  assert (allFulfilled [Some (); Some ()] = Some [(); ()]) as H2 by reflexivity.
  split; [exact (conj H0 (conj H1 H2))|].
  exact (added_breakpoints_found_by_location nextPosition w 0%nat [] twoLinesResolved
           [Some (); Some ()] [(); ()] H0 H1 H2).
Defined.

Lemma reconciliation_completes_witness :
  let w := sampleWorld false in
  (reachable nextPosition w ∧ idle w) ∧
  ∃ w',
    exec nextPosition
      (Submit twoLines ::
       answers (newBreakpointProtocol (adapter w)) (nextRun w)
         (length (breakpointsToDelete twoLines (currentBreakpoints (adapter w))))
         (length (breakpointsToAdd twoLines (currentBreakpoints (adapter w))))
         () notMoved) w = Some w' ∧
    idle w' ∧ inSync twoLines (currentBreakpoints (adapter w')) ∧
    In (RunFinished (nextRun w)) (trace w').
Proof.
  intros w.
  assert (reachable nextPosition w) as H0
    by (apply (run_reachable false []); reflexivity).
  assert (idle w) as H1 by (repeat split).
  split; [exact (conj H0 H1)|].
  exact (reconciliation_completes nextPosition w twoLines () notMoved H0 H1).
Defined.

(** The answers of that legacy run, written out. *)
Example reconciliation_completes_sample :
  Submit twoLines :: answers false 0 0 2 () notMoved =
    [ Submit twoLines; CoordinatorRuns; Continue 0;
      AdditionSettlesOld 0 0 (Some notMoved);
      AdditionSettlesOld 0 1 (Some notMoved); Continue 0 ] ∧
  (breakpointInfo <$>
     currentBreakpoints
       (adapter (run (Submit twoLines :: answers false 0 0 2 () notMoved)
                   (sampleWorld false)))) =
    [ {| requestedBreakpoint := requestedBreakpoint (breakpointAt 10 None);
         actualLine := Some 10; actualColumn := None; verified := true |};
      {| requestedBreakpoint := requestedBreakpoint (breakpointAt 20 (Some "n = 0"));
         actualLine := Some 20; actualColumn := None; verified := true |} ].
Proof. split; vm_compute; reflexivity. Qed.



End SourceProperties.

(** * Properties of the extension's commands *)

Module ExtensionProperties.
Import JS Extension JSFacts JSProperties.

Lemma occurs_digits (c : ascii) (d : Decimal.uint) :
  isDigit c = false → occurs c (NilEmpty.string_of_uint d) = false.
Proof.
  intros Hc. induction d; cbn [NilEmpty.string_of_uint occurs]; [reflexivity|..];
    rewrite IHd, orb_false_r;
    apply Ascii.eqb_neq; intros <-; discriminate.
Qed.

Lemma occurs_numberToString (c : ascii) (n : Z) :
  isDigit c = false → c ≠ "-"%char → occurs c (numberToString n) = false.
Proof.
  intros Hc Hm. unfold numberToString, NilZero.string_of_int, NilZero.string_of_uint.
  assert (occurs c "0" = false) as H0.
  { cbn [occurs]. rewrite orb_false_r. apply Ascii.eqb_neq. intros <-. discriminate. }
  destruct (Z.to_int n) as [d|d]; cbn [occurs].
  - destruct d; first [exact H0 | now apply occurs_digits].
  - apply orb_false_iff. split; [apply Ascii.eqb_neq; congruence|].
    destruct d; first [exact H0 | now apply occurs_digits].
Qed.

Lemma split_append (c : ascii) (a b : string) :
  occurs c a = false → split c (a +:+ String c b) = a :: split c b.
Proof.
  induction a as [|x r IH]; cbn [occurs].
  - intros _. rewrite append_nil. cbn. now rewrite Ascii.eqb_refl.
  - intros [E H]%orb_false_iff. rewrite append_cons. cbn [split]. rewrite E.
    now rewrite (IH H).
Qed.

(** The document that [openRemoteScript] names: the part of the uri before
    its query. *)
Definition remoteDocument (filename : string) (sourceId : Z) : string :=
  "debug:" +:+ numberToString sourceId +:+ "/" +:+ first (split "?" filename).

(** X23. [openRemoteScript] never lets a question mark of the file name
    into the uri that it opens. For an integral source id, the uri is the
    document [debug:<sourceId>/<name>], a question mark and
    [session=<sessionId>], where [name] is the file name, or the part of the
    file name before its first question mark. The document holds no
    question mark, so that the first question mark of the uri is the one
    before [session=]: split at question marks, the uri gives the document
    and then the pieces of [session=<sessionId>]. *)
Theorem remoteScriptUri_query (filename sessionId : string) (sourceId : Z) :
  0 ≤ sourceId < 2 ^ 53 →
  let name := first (split "?" filename) in
  remoteScriptUri filename sourceId sessionId =
    remoteDocument filename sourceId +:+ "?session=" +:+ sessionId ∧
  (filename = name ∨ ∃ rest, filename = name +:+ String "?" rest) ∧
  occurs "?" name = false ∧
  occurs "?" (remoteDocument filename sourceId) = false ∧
  split "?" (remoteScriptUri filename sourceId sessionId) =
    remoteDocument filename sourceId :: split "?" ("session=" +:+ sessionId).
Proof.
  intros _ name. destruct (first_split "?" filename) as [Ho Hs]. fold name in Ho, Hs.
  assert (occurs "?" (remoteDocument filename sourceId) = false) as Hd.
  { unfold remoteDocument. fold name. rewrite !occurs_append, Ho.
    rewrite occurs_numberToString by (reflexivity || discriminate). reflexivity. }
  assert (remoteScriptUri filename sourceId sessionId =
          remoteDocument filename sourceId +:+ "?session=" +:+ sessionId) as Hu.
  { unfold remoteScriptUri, remoteDocument. now rewrite !append_assoc. }
  split; [exact Hu|]. split; [exact Hs|]. split; [exact Ho|]. split; [exact Hd|].
  rewrite Hu. change ("?session=" +:+ sessionId) with (String "?" ("session=" +:+ sessionId)).
  now apply split_append.
Qed.

Lemma remoteScriptUri_query_witness :
  0 ≤ 12 < 2 ^ 53 ∧
  let name := first (split "?" "app.js?v=3") in
  remoteScriptUri "app.js?v=3" 12 "a1b2" =
    remoteDocument "app.js?v=3" 12 +:+ "?session=" +:+ "a1b2" ∧
  ("app.js?v=3" = name ∨ ∃ rest, "app.js?v=3" = name +:+ String "?" rest) ∧
  occurs "?" name = false ∧
  occurs "?" (remoteDocument "app.js?v=3" 12) = false ∧
  split "?" (remoteScriptUri "app.js?v=3" 12 "a1b2") =
    remoteDocument "app.js?v=3" 12 :: split "?" ("session=" +:+ "a1b2").
Proof.
  assert (0 ≤ 12 < 2 ^ 53) as H by (split; [discriminate | reflexivity]).
  split; [exact H|]. exact (remoteScriptUri_query "app.js?v=3" "a1b2" 12 H).
Defined.

(** The uri of a script whose name carries a query. *)
Example remoteScriptUri_sample :
  remoteScriptUri "app.js?v=3" 12 "a1b2" = "debug:12/app.js?session=a1b2".
Proof. vm_compute. reflexivity. Qed.

End ExtensionProperties.
